(** * A bucketed hash map with pluggable hashing: model and verification

    The development embeds [src/HashMap.ts] and [src/Entry.ts].

    Conventions of the embedding.
    - A JavaScript [number] that holds an integer is a [Z].  The operators
      that go through 32-bit integers ([<<], [&], [| 0], [Math.clz32]) are
      written out with their wrap-around in module [JS].
    - [HashMap.loadThreshold] is the default [0.75].  Products and quotients
      by it are exact on the integers that occur (below [2^49]), so
      [Math.ceil (x * 0.75)] is the ceiling of [3x/4], [Math.ceil (x / 0.75)]
      the ceiling of [4x/3], and [a / b > 0.75] is [3 * b < 4 * a].
    - A method that mutates [this] is a function from the map before the
      call to the map after it.  A [TypeError] raised by reading a property
      of [undefined] (an indexed bucket that does not exist) is the result
      [None]; the map is not followed after an exception.
    - The [Option] of [@sck/optres] is the inductive [Option] with
      constructors [some] and [none]. *)

From Stdlib Require Import ZArith Lia.
From stdpp Require Import base tactics option list numbers strings pretty gmap.

Local Open Scope Z_scope.

(** ** JavaScript integer primitives *)

Module JS.

(** [ToInt32] of the language specification, on integers. *)
Definition ToInt32 (x : Z) : Z :=
  let r := x mod 2 ^ 32 in
  if r <? 2 ^ 31 then r else r - 2 ^ 32.

Definition ToUint32 (x : Z) : Z := x mod 2 ^ 32.

(** [Math.clz32 x]: the number of leading zero bits of [ToUint32 x]. *)
Definition clz32 (x : Z) : Z :=
  let u := ToUint32 x in
  if u =? 0 then 32 else 31 - Z.log2 u.

(** [a << b]: the shift count is taken modulo 32 and the result is a
    signed 32-bit integer. *)
Definition shl (a b : Z) : Z :=
  ToInt32 (Z.shiftl (ToInt32 a) (ToUint32 b mod 32)).

(** [a & b] *)
Definition band (a b : Z) : Z := Z.land (ToInt32 a) (ToInt32 b).

(** [ToLength], as used by [Array.from ({ length })]; the upper clamp at
    [2^53 - 1] is beyond every value that reaches it here. *)
Definition ToLength (x : Z) : Z := Z.max 0 x.

(** [Math.ceil (a / b)] for integers [a] and [b > 0]. *)
Definition ceil_div (a b : Z) : Z := - ((- a) / b).

(** [arr[i]]: [undefined] (here [None]) outside of the array. *)
Definition index {A} (arr : list A) (i : Z) : option A :=
  if decide (0 ≤ i) then arr !! Z.to_nat i else None.

(** [Array.from ({ length: n }, () => x)] *)
Definition Array_from_length {A} (n : Z) (x : A) : list A :=
  replicate (Z.to_nat (ToLength n)) x.

End JS.

(** ** The [Option] type of [@sck/optres] *)

Inductive Option (T : Type) : Type :=
| some (value : T)
| none.
Arguments some {T} value.
Arguments none {T}.

Definition isSome {T} (o : Option T) : bool :=
  match o with some _ => true | none => false end.

(** ** Hashers *)

(** [type Hasher<K> = { hash: (key: K) => number; equals: (key1: K, key2: K) => boolean }].
    A hasher of the model is a pair of pure functions with integer hashes.
    [getWeakMapHasher] and [getHybridHasher], which assign an identifier to
    an object at its first [hash], keep state between the calls; they are
    modelled on their own, in [WeakMapHasher] and [HybridHasher] below. *)
Class Hasher (K : Type) : Type := {
  hash : K → Z;
  equals : K → K → bool;
}.

(** The contract the documentation asks of a hasher: [equals] is an
    equivalence and equal keys have equal hashes. *)
Class LawfulHasher (K : Type) `{Hasher K} : Prop := {
  equals_refl : ∀ a : K, equals a a = true;
  equals_sym : ∀ a b : K, equals a b = true → equals b a = true;
  equals_trans : ∀ a b c : K, equals a b = true → equals b c = true → equals a c = true;
  equals_hash : ∀ a b : K, equals a b = true → hash a = hash b;
}.

(** [input.charCodeAt (i)] for a string of code units below 256. *)
Definition charCode (c : Ascii.ascii) : Z := Z.of_N (Ascii.N_of_ascii c).

(** The loop of [hashString] from a given value of [hash]:
    [hash = ((hash << 5) - hash + input.charCodeAt(i)) | 0]. *)
Fixpoint hashString_from (hash : Z) (input : string) : Z :=
  match input with
  | EmptyString => hash
  | String c rest =>
      hashString_from (JS.ToInt32 (JS.shl hash 5 - hash + charCode c)) rest
  end.

(** [function hashString(input: string): number] *)
Definition hashString (input : string) : Z := hashString_from 0 input.

(** The primitive values used as keys with the default hasher.  A number is
    [NaN], an infinity, negative zero, or an integer that prints in plain
    decimal ([Int 0] is [+0]). *)
Inductive JSNumber : Type :=
| NaN
| PosInfinity
| NegInfinity
| NegZero
| Int (z : Z).

Inductive Primitive : Type :=
| PUndefined
| PNull
| PBoolean (b : bool)
| PNumber (n : JSNumber)
| PString (s : string).

Definition typeof (key : Primitive) : string :=
  match key with
  | PUndefined => "undefined"
  | PNull => "object"
  | PBoolean _ => "boolean"
  | PNumber _ => "number"
  | PString _ => "string"
  end.

(** [`${key}`]: the string conversion of a primitive; both zeros print as
    ["0"]. *)
Definition ToString (key : Primitive) : string :=
  match key with
  | PUndefined => "undefined"
  | PNull => "null"
  | PBoolean b => if b then "true" else "false"
  | PNumber NaN => "NaN"
  | PNumber PosInfinity => "Infinity"
  | PNumber NegInfinity => "-Infinity"
  | PNumber NegZero => "0"
  | PNumber (Int z) => pretty z
  | PString s => s
  end.

Global Instance JSNumber_eq_dec : EqDecision JSNumber.
Proof. solve_decision. Defined.
Global Instance Primitive_eq_dec : EqDecision Primitive.
Proof. solve_decision. Defined.

(** [Object.is] (SameValue) on primitives: [NaN] is itself, the two zeros
    differ; with one constructor per value this is syntactic equality. *)
Definition Object_is (key1 key2 : Primitive) : bool := bool_decide (key1 = key2).

(** [function defaultHasher<K>(): Hasher<K>], the hasher of a map built
    without one: [hash] is [hashString(`${typeof key}: ${key}`)] and
    [equals] is [Object.is]. *)
Global Instance defaultHasher : Hasher Primitive := {|
  hash key := hashString (typeof key +:+ ": " +:+ ToString key);
  equals key1 key2 := Object_is key1 key2;
|}.

(** ** The map core *)

Module HashMap.

(** [type Bucket<K, T> = [K, T][]] *)
Abbreviation Bucket K T := (list (K * T)).

Section HashMap.
Context {K T : Type} `{Hasher K}.
Local Abbreviation Bucket := (Bucket K T).

(** The private fields [#buckets] and [#count]; [#hasher] is the
    [Hasher K] instance of the section. *)
Record HashMap : Type := {
  _buckets : list Bucket;
  _count : Z;
}.

(** [constructor(hasher?: Hasher<K>)] *)
Definition new : HashMap :=
  {| _buckets := JS.Array_from_length 8 []; _count := 0 |}.

(** [size(): number] *)
Definition size (m : HashMap) : Z := _count m.

(** [isEmpty(): boolean] *)
Definition isEmpty (m : HashMap) : bool := bool_decide (_count m = 0).

(** [buckets(): number], the length of the store. *)
Definition buckets (m : HashMap) : Z := Z.of_nat (length (_buckets m)).

(** [Math.floor(this.#buckets.length * HashMap.loadThreshold)] *)
Definition capacity (m : HashMap) : Z := (3 * buckets m) / 4.

(** The slot [Math.abs(hash) & (this.#buckets.length - 1)] of a key. *)
Definition slot (key : K) (m : HashMap) : Z :=
  JS.band (Z.abs (hash key)) (buckets m - 1).

(** [private getBucket(key: K): Bucket<K, T>]; the result is [None] when
    the slot holds no bucket, in which case every caller throws on
    [bucket.length]. *)
Definition getBucket (key : K) (m : HashMap) : option Bucket :=
  JS.index (_buckets m) (slot key m).

(** The bucket array returned by [getBucket] is shared with the store, so
    an update of it is an update of the store at the key's slot. *)
Definition putBucket (key : K) (bucket : Bucket) (m : HashMap) : list Bucket :=
  <[Z.to_nat (slot key m) := bucket]> (_buckets m).

(** The scan of [set]: the first pair whose key equals [key] gets the new
    value (the stored key stays); [None] when the scan falls through. *)
Fixpoint set_scan (key : K) (value : T) (bucket : Bucket) : option Bucket :=
  match bucket with
  | [] => None
  | (k, v) :: rest =>
      if equals key k then Some ((k, value) :: rest)
      else cons (k, v) <$> set_scan key value rest
  end.

(** The body of the rehash loop of [resize]: push one pair into its
    bucket of the new store. *)
Definition rehash_pair (bucketCountFinal : Z) (store : list Bucket) (kv : K * T)
  : option (list Bucket) :=
  let i := JS.band (Z.abs (hash kv.1)) (bucketCountFinal - 1) in
  bucket ← JS.index store i;
  Some (<[Z.to_nat i := bucket ++ [kv]]> store).

Fixpoint rehash_bucket (bucketCountFinal : Z) (store : list Bucket) (bucket : Bucket)
  : option (list Bucket) :=
  match bucket with
  | [] => Some store
  | kv :: rest =>
      store' ← rehash_pair bucketCountFinal store kv;
      rehash_bucket bucketCountFinal store' rest
  end.

Fixpoint rehash (bucketCountFinal : Z) (store : list Bucket) (oldBuckets : list Bucket)
  : option (list Bucket) :=
  match oldBuckets with
  | [] => Some store
  | bucket :: rest =>
      store' ← rehash_bucket bucketCountFinal store bucket;
      rehash bucketCountFinal store' rest
  end.

(** [1 << (32 - Math.clz32(Math.max(newBucketCount, 1) - 1))] *)
Definition bucketCountFinal (newBucketCount : Z) : Z :=
  JS.shl 1 (32 - JS.clz32 (Z.max newBucketCount 1 - 1)).

(** [private resize(newBucketCount: number): void] *)
Definition resize (newBucketCount : Z) (m : HashMap) : option HashMap :=
  let oldBuckets := _buckets m in
  let bucketCountFinal := bucketCountFinal newBucketCount in
  store ← rehash bucketCountFinal (JS.Array_from_length bucketCountFinal []) oldBuckets;
  Some {| _buckets := store; _count := _count m |}.

(** [set(key: K, value: T): void] *)
Definition set (key : K) (value : T) (m : HashMap) : option HashMap :=
  bucket ← getBucket key m;
  match set_scan key value bucket with
  | Some bucket' =>
      Some {| _buckets := putBucket key bucket' m; _count := _count m |}
  | None =>
      let m1 := {| _buckets := putBucket key (bucket ++ [(key, value)]) m;
                   _count := _count m + 1 |} in
      if decide (3 * buckets m1 < 4 * _count m1)
      then resize (buckets m1 * 2) m1
      else Some m1
  end.

(** The scan shared by [get] and [has]. *)
Fixpoint get_scan (key : K) (bucket : Bucket) : Option T :=
  match bucket with
  | [] => none
  | (k, v) :: rest => if equals key k then some v else get_scan key rest
  end.

(** [get(key: K): Option<T>] *)
Definition get (key : K) (m : HashMap) : option (Option T) :=
  bucket ← getBucket key m;
  Some (get_scan key bucket).

(** The scan of [getKeyValue]: the stored pair itself is returned. *)
Fixpoint getKeyValue_scan (key : K) (bucket : Bucket) : Option (K * T) :=
  match bucket with
  | [] => none
  | kv :: rest => if equals key kv.1 then some kv else getKeyValue_scan key rest
  end.

(** [getKeyValue(key: K): Option<[K, T]>] *)
Definition getKeyValue (key : K) (m : HashMap) : option (Option (K * T)) :=
  bucket ← getBucket key m;
  Some (getKeyValue_scan key bucket).

(** [has(key: K): boolean] *)
Definition has (key : K) (m : HashMap) : option bool :=
  exists_ ← get key m;
  Some (isSome exists_).

(** The scan of [remove]: [bucket.splice(i, 1)] at the first pair whose key
    equals [key]; [None] when the scan falls through. *)
Fixpoint remove_scan (key : K) (bucket : Bucket) : option (T * Bucket) :=
  match bucket with
  | [] => None
  | (k, v) :: rest =>
      if equals key k then Some (v, rest)
      else
        match remove_scan key rest with
        | Some (r, rest') => Some (r, (k, v) :: rest')
        | None => None
        end
  end.

(** [remove(key: K): Option<T>] *)
Definition remove (key : K) (m : HashMap) : option (Option T * HashMap) :=
  bucket ← getBucket key m;
  match remove_scan key bucket with
  | Some (v, bucket') =>
      Some (some v, {| _buckets := putBucket key bucket' m; _count := _count m - 1 |})
  | None => Some (none, m)
  end.

(** [static withCapacity(capacity: number, hasher?)] *)
Definition withCapacity (capacity : Z) : option HashMap :=
  resize (JS.ceil_div (3 * capacity) 4) new.

(** [for (const [key, value] of fromArray) { map.set(key, value); }] *)
Fixpoint set_all (pairs : list (K * T)) (m : HashMap) : option HashMap :=
  match pairs with
  | [] => Some m
  | (key, value) :: rest => m' ← set key value m; set_all rest m'
  end.

(** [static from(fromArray: [K, T][], hasher?)] *)
Definition from (fromArray : list (K * T)) : option HashMap :=
  map ← withCapacity (Z.of_nat (length fromArray));
  set_all fromArray map.

(** [reserve(newCount: number): void] *)
Definition reserve (newCount : Z) (m : HashMap) : option HashMap :=
  let newTotal := newCount + _count m in
  let newBucketCount := JS.ceil_div (4 * newTotal) 3 in
  if decide (buckets m ≤ newBucketCount) then resize newBucketCount m else Some m.

(** [shrinkToFit(): void] *)
Definition shrinkToFit (m : HashMap) : option HashMap :=
  let newBucketCount := JS.ceil_div (4 * _count m) 3 in
  if decide (newBucketCount < buckets m) then resize newBucketCount m else Some m.

(** [shrinkTo(newCapacity: number): void] *)
Definition shrinkTo (newCapacity : Z) (m : HashMap) : option HashMap :=
  let targetBucketCount := JS.ceil_div (4 * newCapacity) 3 in
  let minBuckets := JS.ceil_div (4 * _count m) 3 in
  if decide (minBuckets ≤ targetBucketCount ∧ targetBucketCount < buckets m)
  then resize targetBucketCount m
  else if decide (targetBucketCount < minBuckets)
  then shrinkToFit m
  else Some m.

(** [*[Symbol.iterator]()], run to completion on a map that is not
    modified meanwhile: the buckets in store order, each in its own
    order. *)
Definition iterator (m : HashMap) : list (K * T) := concat (_buckets m).

(** [*keys()] *)
Definition keys (m : HashMap) : list K := fst <$> iterator m.

(** [*values()] *)
Definition values (m : HashMap) : list T := snd <$> iterator m.

(** [clear(): void] *)
Definition clear (m : HashMap) : HashMap :=
  {| _buckets := JS.Array_from_length (buckets m) []; _count := 0 |}.

(** [map(fn: (value: T, key: K) => T): void] *)
Definition map (fn : T → K → T) (m : HashMap) : HashMap :=
  {| _buckets := (λ bucket : Bucket, (λ kv, (kv.1, fn kv.2 kv.1)) <$> bucket) <$> _buckets m;
     _count := _count m |}.

(** The inner loop of [retain] walks a bucket from its last pair to its
    first and splices out the pairs [fn] rejects; the result carries the
    number of pairs removed. *)
Definition retain_bucket (fn : T → K → bool) (bucket : Bucket) : Bucket * Z :=
  foldr (λ kv acc, if fn kv.2 kv.1 then (kv :: acc.1, acc.2) else (acc.1, acc.2 + 1))
        ([], 0) bucket.

(** [retain(fn: (value: T, key: K) => boolean): void] *)
Definition retain (fn : T → K → bool) (m : HashMap) : HashMap :=
  {| _buckets := (λ bucket, (retain_bucket fn bucket).1) <$> _buckets m;
     _count := foldl (λ count bucket, count - (retain_bucket fn bucket).2)
                     (_count m) (_buckets m) |}.

(** *** [drain], a generator

    Calling a generator function runs none of its body: the body starts
    at the first [next()].  A generator object of [drain] is therefore
    either not started, suspended inside [yield* bucket] (with the pairs
    of that bucket still to come and the buckets of [oldBuckets] after
    it), or completed.  The old bucket arrays are reachable from the
    generator only, once [clear] has replaced the store. *)
Inductive DrainGenerator : Type :=
| SuspendedStart
| SuspendedYield (bucket : Bucket) (oldBuckets : list Bucket)
| Completed.

Inductive IteratorResult : Type :=
| Yield (value : K * T)
| Done.

(** [for (const bucket of oldBuckets) { yield* bucket; bucket.length = 0; }]
    up to the next [yield]. *)
Fixpoint drain_loop (oldBuckets : list Bucket) : IteratorResult * DrainGenerator :=
  match oldBuckets with
  | [] => (Done, Completed)
  | bucket :: rest =>
      match bucket with
      | kv :: bucket' => (Yield kv, SuspendedYield bucket' rest)
      | [] => drain_loop rest
      end
  end.

(** [*drain(): IterableIterator<[K, T]>]: the call returns a generator
    object and leaves the map as it is. *)
Definition drain (m : HashMap) : DrainGenerator * HashMap := (SuspendedStart, m).

(** One [next()] of a generator of [drain], on the current map. *)
Definition next (g : DrainGenerator) (m : HashMap)
  : IteratorResult * DrainGenerator * HashMap :=
  match g with
  | SuspendedStart =>
      let oldBuckets := _buckets m in
      let m' := clear m in
      let '(r, g') := drain_loop oldBuckets in
      (r, g', m')
  | SuspendedYield bucket rest =>
      let '(r, g') := drain_loop (bucket :: rest) in
      (r, g', m)
  | Completed => (Done, Completed, m)
  end.

(** [Array.from(g)]: call [next()] until it reports [done].  The recursion
    is bounded by [fuel]; [None] means the bound was reached first. *)
Fixpoint Array_from (fuel : nat) (g : DrainGenerator) (m : HashMap)
  : option (list (K * T) * DrainGenerator * HashMap) :=
  match fuel with
  | O => None
  | S fuel' =>
      match next g m with
      | (Yield kv, g', m') =>
          match Array_from fuel' g' m' with
          | Some (l, g'', m'') => Some (kv :: l, g'', m'')
          | None => None
          end
      | (Done, g', m') => Some ([], g', m')
      end
  end.

End HashMap.
Arguments HashMap K T : clear implicits.
Arguments DrainGenerator K T : clear implicits.
Arguments IteratorResult K T : clear implicits.
End HashMap.

(** ** The entry handle *)

Module Entry.
Section Entry.
Context {K T : Type} `{Hasher K}.

(** An [Entry] holds a reference [#map] to its map and the key [#key].
    The map is the state the methods below act on, so the handle itself
    carries the key only. *)
Record Entry : Type := { _key : K }.

(** [constructor(map: HashMap<K, T>, key: K)] *)
Definition new (key : K) : Entry := {| _key := key |}.

(** [private set(value: T): void] *)
Definition set (value : T) (e : Entry) (m : HashMap.HashMap K T)
  : option (HashMap.HashMap K T) :=
  HashMap.set (_key e) value m.

(** [get(): Option<T>] *)
Definition get (e : Entry) (m : HashMap.HashMap K T) : option (Option T) :=
  HashMap.get (_key e) m.

(** [isOccupied(): boolean] *)
Definition isOccupied (e : Entry) (m : HashMap.HashMap K T) : option bool :=
  o ← HashMap.get (_key e) m;
  Some (isSome o).

(** [key(): K] *)
Definition key (e : Entry) : K := _key e.

(** [andModify(fn: (value: T) => T): typeof this] *)
Definition andModify (fn : T → T) (e : Entry) (m : HashMap.HashMap K T)
  : option (Entry * HashMap.HashMap K T) :=
  o ← get e m;
  match o with
  | some value => m' ← set (fn value) e m; Some (e, m')
  | none => Some (e, m)
  end.

(** [insertEntry(value: T): typeof this] *)
Definition insertEntry (value : T) (e : Entry) (m : HashMap.HashMap K T)
  : option (Entry * HashMap.HashMap K T) :=
  m' ← set value e m;
  Some (e, m').

(** [orInsert(value: T): typeof this] *)
Definition orInsert (value : T) (e : Entry) (m : HashMap.HashMap K T)
  : option (Entry * HashMap.HashMap K T) :=
  o ← get e m;
  match o with
  | some _ => Some (e, m)
  | none => m' ← set value e m; Some (e, m')
  end.

(** [orInsertWith(fn: (key: K) => T): typeof this].  Besides the handle
    and the map, the result lists the arguments of the calls made to
    [fn], in order. *)
Definition orInsertWith (fn : K → T) (e : Entry) (m : HashMap.HashMap K T)
  : option (Entry * list K * HashMap.HashMap K T) :=
  o ← get e m;
  match o with
  | some _ => Some (e, [], m)
  | none => m' ← set (fn (_key e)) e m; Some (e, [_key e], m')
  end.

(** [insert(value: T): Option<T>] *)
Definition insert (value : T) (e : Entry) (m : HashMap.HashMap K T)
  : option (Option T * HashMap.HashMap K T) :=
  oldValue ← get e m;
  m' ← set value e m;
  Some (oldValue, m').

(** [remove(): Option<T>] *)
Definition remove (e : Entry) (m : HashMap.HashMap K T)
  : option (Option T * HashMap.HashMap K T) :=
  o ← get e m;
  match o with
  | some oldVal => '(_, m') ← HashMap.remove (_key e) m; Some (some oldVal, m')
  | none => Some (none, m)
  end.

(** [removeEntry(): Option<[K, T]>] *)
Definition removeEntry (e : Entry) (m : HashMap.HashMap K T)
  : option (Option (K * T) * HashMap.HashMap K T) :=
  o ← get e m;
  match o with
  | some value => '(_, m') ← HashMap.remove (_key e) m; Some (some (_key e, value), m')
  | none => Some (none, m)
  end.

End Entry.
Arguments Entry K : clear implicits.
End Entry.

(** [entry(key: K): Entry<K, T>] *)
Definition entry {K} (key : K) : Entry.Entry K := Entry.new key.

(** ** Reachable maps

    The maps a caller can hold: built by a constructor and changed by the
    public methods, each call having returned normally. *)

Section Reachable.
Context {K T : Type} `{Hasher K}.
Local Abbreviation HashMap := (HashMap.HashMap K T).

Inductive reachable : HashMap → Prop :=
| reachable_new : reachable HashMap.new
| reachable_withCapacity capacity m :
    HashMap.withCapacity capacity = Some m → reachable m
| reachable_from fromArray m :
    HashMap.from fromArray = Some m → reachable m
| reachable_set key value m m' :
    reachable m → HashMap.set key value m = Some m' → reachable m'
| reachable_remove key m r m' :
    reachable m → HashMap.remove key m = Some (r, m') → reachable m'
| reachable_reserve newCount m m' :
    reachable m → HashMap.reserve newCount m = Some m' → reachable m'
| reachable_shrinkToFit m m' :
    reachable m → HashMap.shrinkToFit m = Some m' → reachable m'
| reachable_shrinkTo newCapacity m m' :
    reachable m → HashMap.shrinkTo newCapacity m = Some m' → reachable m'
| reachable_clear m :
    reachable m → reachable (HashMap.clear m)
| reachable_map fn m :
    reachable m → reachable (HashMap.map fn m)
| reachable_retain fn m :
    reachable m → reachable (HashMap.retain fn m)
| reachable_drain_next g m r g' m' :
    reachable m → HashMap.next g m = (r, g', m') → reachable m'
| reachable_andModify fn e m e' m' :
    reachable m → Entry.andModify fn e m = Some (e', m') → reachable m'
| reachable_insertEntry value e m e' m' :
    reachable m → Entry.insertEntry value e m = Some (e', m') → reachable m'
| reachable_orInsert value e m e' m' :
    reachable m → Entry.orInsert value e m = Some (e', m') → reachable m'
| reachable_orInsertWith fn e m e' calls m' :
    reachable m → Entry.orInsertWith fn e m = Some (e', calls, m') → reachable m'
| reachable_insert value e m r m' :
    reachable m → Entry.insert value e m = Some (r, m') → reachable m'
| reachable_entry_remove e m r m' :
    reachable m → Entry.remove e m = Some (r, m') → reachable m'
| reachable_removeEntry e m r m' :
    reachable m → Entry.removeEntry e m = Some (r, m') → reachable m'.

End Reachable.

(** ** Representation invariants *)

Section Invariants.
Context {K T : Type} `{Hasher K}.
Local Abbreviation HashMap := (HashMap.HashMap K T).

(** No key of [ks] equals [key]. *)
Definition no_key (key : K) (ks : list K) : Prop :=
  ∀ k, k ∈ ks → equals key k = false.

(** The keys of [ks] are pairwise different for [equals]. *)
Fixpoint unique_keys (ks : list K) : Prop :=
  match ks with
  | [] => True
  | k :: rest => no_key k rest ∧ unique_keys rest
  end.

(** Every pair of [store] sits in the bucket that the mask of a store of
    [len] buckets selects for its key. *)
Definition placed_store (len : Z) (store : list (HashMap.Bucket K T)) : Prop :=
  ∀ i bucket kv,
    store !! i = Some bucket → kv ∈ bucket →
    JS.band (Z.abs (hash kv.1)) (len - 1) = Z.of_nat i.

(** The bucket count is a power of two that [1 << _] can produce. *)
Definition pow2_store (m : HashMap) : Prop :=
  ∃ j, 0 ≤ j ≤ 30 ∧ HashMap.buckets m = 2 ^ j.

Definition placed (m : HashMap) : Prop :=
  placed_store (HashMap.buckets m) (HashMap._buckets m).

(** [#count] is the number of stored pairs. *)
Definition counted (m : HashMap) : Prop :=
  HashMap._count m = Z.of_nat (length (HashMap.iterator m)).

Record wf (m : HashMap) : Prop := {
  wf_pow2 : pow2_store m;
  wf_placed : placed m;
  wf_unique : unique_keys (HashMap.keys m);
  wf_counted : counted m;
}.

(** The store left behind by a [resize] whose rounded bucket count wrapped
    to [1 << 31]: no bucket at all. *)
Definition degenerate (m : HashMap) : Prop :=
  HashMap._buckets m = [] ∧ HashMap._count m = 0.

(** The two ways [set] leaves the store before the growth check: the value
    of an equal key overwritten in its bucket, or a new pair pushed at the
    end of the bucket with the count incremented. *)
Definition overwritten (key : K) (bucket' : HashMap.Bucket K T) (m : HashMap) : HashMap :=
  {| HashMap._buckets := HashMap.putBucket key bucket' m;
     HashMap._count := HashMap._count m |}.

Definition pushed (key : K) (value : T) (bucket : HashMap.Bucket K T) (m : HashMap) : HashMap :=
  {| HashMap._buckets := HashMap.putBucket key (bucket ++ [(key, value)]) m;
     HashMap._count := HashMap._count m + 1 |}.

(** The growth check of [set] after a push, and the [resize] it may run:
    [m'] is what the check leaves of [m1]. *)
Definition grown (m1 m' : HashMap) : Prop :=
  if decide (3 * HashMap.buckets m1 < 4 * HashMap._count m1)
  then HashMap.resize (HashMap.buckets m1 * 2) m1 = Some m'
  else m' = m1.

(** The entry count does not exceed the load threshold. *)
Definition within_load (m : HashMap) : Prop :=
  4 * HashMap._count m ≤ 3 * HashMap.buckets m.

(** What a sequence of [set] calls leaves at [key], read off the sequence:
    the value of the last call whose key equals [key]. *)
Fixpoint last_write (key : K) (pairs : list (K * T)) (before : Option T) : Option T :=
  match pairs with
  | [] => before
  | (k, v) :: rest => last_write key rest (if equals key k then some v else before)
  end.

End Invariants.

(** ** Sample maps *)

(** [new HashMap<string, number>()] after [set("one", 1)], [set("two", 2)]
    and [set("three", 3)]. *)
Definition three_entries : HashMap.HashMap Primitive Z := {|
  HashMap._buckets :=
    [[]; [(PString "one", 1); (PString "three", 3)]; []; [(PString "two", 2)];
     []; []; []; []];
  HashMap._count := 3;
|}.

(** [new HashMap<string, number>()] after [set("a", 1)]. *)
Definition one_entry : HashMap.HashMap Primitive Z := {|
  HashMap._buckets := [[]; []; []; []; []; []; [(PString "a", 1)]; []];
  HashMap._count := 1;
|}.

(** Distinct keys for [n] inserts. *)
Definition distinct_keys (n : nat) : list (Primitive * Z) :=
  (λ i : nat, (PNumber (Int (Z.of_nat i)), Z.of_nat i)) <$> seq 0 n.

(** ** Tactics *)

(** Give the value of a call that returns as the witness of the goal. *)
Ltac evaluate_to call :=
  let r := eval vm_compute in call in
  lazymatch r with
  | Some ?m => exists m
  end.

(** ** The remaining methods of the map and of the entry handle *)

Section Info.
Context {K T : Type} `{Hasher K}.

(** The object [info()] returns. *)
Record Info : Type := {
  info_size : Z;
  info_capacity : Z;
  info_buckets : Z;
}.

(** [info(): { size: number; capacity: number; buckets: number }] *)
Definition info (m : HashMap.HashMap K T) : Info := {|
  info_size := HashMap.size m;
  info_capacity := HashMap.capacity m;
  info_buckets := HashMap.buckets m;
|}.

(** [entries(): IterableIterator<Entry<K, T>>], run to completion on a map
    that is not modified meanwhile: a handle for the key of every stored
    pair. *)
Definition entries (m : HashMap.HashMap K T) : list (Entry.Entry K) :=
  (λ kv : K * T, Entry.new kv.1) <$> HashMap.iterator m.

End Info.

(** The polynomial that [hashString] evaluates, without the wrap-around:
    the code units as the digits of a number in base 31. *)
Fixpoint horner (h : Z) (input : string) : Z :=
  match input with
  | EmptyString => h
  | String c rest => horner (31 * h + charCode c) rest
  end.

(** ** Hashers for object keys

    An object is modelled by its identity.  A [WeakMap] keyed by objects is
    a finite map keyed by identities; that it does not keep its keys alive
    cannot be observed through a key one still holds. *)

Abbreviation Obj := positive.

Module WeakMapHasher.

(** The variables [mapCounter] and [map] that the two closures of
    [getWeakMapHasher()] share. *)
Record State : Type := {
  mapCounter : Z;
  map : gmap Obj Z;
}.

(** [let mapCounter = 0; const map = new WeakMap<object, number>();] *)
Definition init : State := {| mapCounter := 0; map := ∅ |}.

(** [hash: (key) => ...]: the identifier of the key, assigned at the first
    call. *)
Definition hash (key : Obj) (s : State) : Z * State :=
  match map s !! key with
  | Some hash => (hash, s)
  | None =>
      (mapCounter s,
       {| mapCounter := mapCounter s + 1; map := <[key := mapCounter s]> (map s) |})
  end.

(** [equals: (key1, key2) => ...]; [hash1 === hash2] is false when [key2] has
    no identifier. *)
Definition equals (key1 key2 : Obj) (s : State) : bool :=
  match map s !! key1 with
  | None => false
  | Some hash1 => bool_decide (map s !! key2 = Some hash1)
  end.

(** The states of a hasher in use: [hash] is the one call that changes
    it. *)
Inductive reachable : State → Prop :=
| reachable_init : reachable init
| reachable_hash key s : reachable s → reachable (hash key s).2.

(** Identifiers handed out are below the counter and belong to one key
    each. *)
Definition weak_ok (s : State) : Prop :=
  0 ≤ mapCounter s
  ∧ (∀ k id, map s !! k = Some id → 0 ≤ id < mapCounter s)
  ∧ (∀ k1 k2 id, map s !! k1 = Some id → map s !! k2 = Some id → k1 = k2).

End WeakMapHasher.

Module HybridHasher.

(** The variables [counter] and [map] of the closures of
    [getHybridHasher()], together with what the hasher reads and writes of
    the objects themselves: the value of the own property [HASH_TAG] of the
    objects that have one, the objects that are not extensible, and the
    objects whose [typeof] is ["function"]. *)
Record State : Type := {
  counter : Z;
  map : gmap Obj Z;
  tags : gmap Obj Z;
  nonExtensible : gset Obj;
  functions : gset Obj;
}.

(** A new hasher in a world with the given frozen objects and functions:
    [HASH_TAG] is a new symbol, so no object has the property. *)
Definition init (nonExtensible functions : gset Obj) : State := {|
  counter := 0;
  map := ∅;
  tags := ∅;
  nonExtensible := nonExtensible;
  functions := functions;
|}.

(** [isHashTagged(input)]:
    [typeof input === "object" && input !== null && Object.hasOwn(input, HASH_TAG)] *)
Definition isHashTagged (input : Obj) (s : State) : bool :=
  bool_decide (input ∉ functions s) && bool_decide (is_Some (tags s !! input)).

(** [Object.defineProperty(key, HASH_TAG, { value, enumerable: false,
    writable: false, configurable: false })] on an extensible object: it
    adds the property, accepts a property that is already there with the
    same value, and throws a [TypeError] ([None]) when the property is
    there with another value. *)
Definition defineProperty (key : Obj) (value : Z) (s : State) : option State :=
  match tags s !! key with
  | Some current => if decide (current = value) then Some s else None
  | None =>
      Some {| counter := counter s; map := map s;
              tags := <[key := value]> (tags s);
              nonExtensible := nonExtensible s; functions := functions s |}
  end.

Definition increment (s : State) : State :=
  {| counter := counter s + 1; map := map s; tags := tags s;
     nonExtensible := nonExtensible s; functions := functions s |}.

(** [hash: (key: object) => ...] *)
Definition hash (key : Obj) (s : State) : option (Z * State) :=
  if isHashTagged key s then
    tag ← tags s !! key; Some (tag, s)
  else if decide (key ∉ nonExtensible s) then
    s' ← defineProperty key (counter s) s;
    Some (counter s, increment s')
  else
    match map s !! key with
    | Some id => Some (id, s)
    | None =>
        Some (counter s,
              increment {| counter := counter s; map := <[key := counter s]> (map s);
                           tags := tags s; nonExtensible := nonExtensible s;
                           functions := functions s |})
    end.

(** [equals: (key1, key2) => ...] *)
Definition equals (key1 key2 : Obj) (s : State) : bool :=
  if isHashTagged key1 s then
    if isHashTagged key2 s
    then bool_decide (tags s !! key1 = tags s !! key2)
    else false
  else
    match map s !! key1 with
    | Some id1 => bool_decide (map s !! key2 = Some id1)
    | None => false
    end.

(** [Object.preventExtensions(key)] (also [Object.freeze], [Object.seal])
    by the owner of a key: an object never becomes extensible again. *)
Definition preventExtensions (key : Obj) (s : State) : State :=
  {| counter := counter s; map := map s; tags := tags s;
     nonExtensible := {[key]} ∪ nonExtensible s; functions := functions s |}.

(** The states of a hasher in use. *)
Inductive reachable : State → Prop :=
| reachable_init nonExtensible functions : reachable (init nonExtensible functions)
| reachable_hash key s id s' : reachable s → hash key s = Some (id, s') → reachable s'
| reachable_preventExtensions key s : reachable s → reachable (preventExtensions key s).

(** [later s s']: the hasher in state [s] has come to state [s'] by calls
    of [hash] that returned, on any keys, and by objects made
    non-extensible in between.  (A call of [hash] that throws changes
    nothing: [Object.defineProperty] throws before [counter++].) *)
Inductive later (s : State) : State → Prop :=
| later_refl : later s s
| later_hash key s1 id s2 : later s s1 → hash key s1 = Some (id, s2) → later s s2
| later_preventExtensions key s1 : later s s1 → later s (preventExtensions key s1).

(** Identifiers handed out are below the counter and are not shared: not
    between two tags, not between two entries of the table, not between a
    tag and an entry of the table; and the table holds objects that are not
    extensible only. *)
Definition hybrid_ok (s : State) : Prop :=
  0 ≤ counter s
  ∧ (∀ k id, tags s !! k = Some id → 0 ≤ id < counter s)
  ∧ (∀ k id, map s !! k = Some id → 0 ≤ id < counter s)
  ∧ (∀ k1 k2 id, tags s !! k1 = Some id → tags s !! k2 = Some id → k1 = k2)
  ∧ (∀ k1 k2 id, map s !! k1 = Some id → map s !! k2 = Some id → k1 = k2)
  ∧ (∀ k1 k2 id, tags s !! k1 = Some id → map s !! k2 = Some id → False)
  ∧ (∀ k, is_Some (map s !! k) → k ∈ nonExtensible s).

End HybridHasher.

(** * Verification *)

(** ** 32-bit arithmetic *)

Lemma ToInt32_congr (a : Z) : ∃ q, JS.ToInt32 a = a + q * 2 ^ 32.
Proof.
  unfold JS.ToInt32. cbv zeta.
  pose proof (Z.div_mod a (2 ^ 32) ltac:(lia)) as Hdm.
  destruct (a mod 2 ^ 32 <? 2 ^ 31).
  - exists (- (a / 2 ^ 32)). lia.
  - exists (- (a / 2 ^ 32) - 1). lia.
Qed.

Lemma ToInt32_small (a : Z) : - 2 ^ 31 ≤ a < 2 ^ 31 → JS.ToInt32 a = a.
Proof.
  intros Ha. unfold JS.ToInt32. cbv zeta.
  destruct (decide (0 ≤ a)) as [Hpos|Hneg].
  - rewrite Z.mod_small by lia.
    destruct (Z.ltb_spec a (2 ^ 31)); lia.
  - replace (a mod 2 ^ 32) with (a + 2 ^ 32).
    + destruct (Z.ltb_spec (a + 2 ^ 32) (2 ^ 31)); lia.
    + apply Z.mod_unique with (q := -1); lia.
Qed.

Lemma ToInt32_mod_pow2 (a j : Z) :
  0 ≤ j ≤ 32 → JS.ToInt32 a mod 2 ^ j = a mod 2 ^ j.
Proof.
  intros Hj. destruct (ToInt32_congr a) as [q ->].
  replace (2 ^ 32) with (2 ^ (32 - j) * 2 ^ j)
    by (rewrite <- Z.pow_add_r by lia; f_equal; lia).
  rewrite Z.mul_assoc. apply Z_mod_plus_full.
Qed.

Lemma ceil_div_ge (a b : Z) : 0 < b → a ≤ b * JS.ceil_div a b.
Proof.
  intros Hb. unfold JS.ceil_div.
  pose proof (Z.mul_div_le (- a) b Hb). lia.
Qed.

(** On a store whose length is [2^j], the mask of [getBucket] is the
    remainder of the absolute value of the hash. *)
Lemma band_mask (h j : Z) :
  0 ≤ j ≤ 30 → JS.band (Z.abs h) (2 ^ j - 1) = Z.abs h mod 2 ^ j.
Proof.
  intros Hj. unfold JS.band.
  assert (0 < 2 ^ j ≤ 2 ^ 30) as Hp.
  { split; [apply Z.pow_pos_nonneg; lia | apply Z.pow_le_mono_r; lia]. }
  rewrite (ToInt32_small (2 ^ j - 1)) by lia.
  replace (2 ^ j - 1) with (Z.ones j) by (rewrite Z.ones_equiv; lia).
  rewrite Z.land_ones by lia.
  apply ToInt32_mod_pow2. lia.
Qed.

Lemma band_mask_bound (h j : Z) :
  0 ≤ j ≤ 30 → 0 ≤ JS.band (Z.abs h) (2 ^ j - 1) < 2 ^ j.
Proof.
  intros Hj. rewrite band_mask by done.
  apply Z.mod_pos_bound, Z.pow_pos_nonneg; lia.
Qed.

(** The rounded bucket count is a power of two up to [2^30], or the
    wrapped [1 << 31]. *)
Lemma bucketCountFinal_cases (n : Z) :
  (∃ j, 0 ≤ j ≤ 30 ∧ HashMap.bucketCountFinal n = 2 ^ j)
  ∨ HashMap.bucketCountFinal n = - 2 ^ 31.
Proof.
  unfold HashMap.bucketCountFinal, JS.shl.
  set (s := JS.ToUint32 _ mod 32).
  assert (0 ≤ s < 32) as Hs by (apply Z.mod_pos_bound; lia).
  rewrite (ToInt32_small 1) by lia.
  rewrite Z.shiftl_1_l.
  destruct (decide (s = 31)) as [->|Hne].
  - right. reflexivity.
  - left. exists s. split; [lia|].
    apply ToInt32_small.
    assert (0 < 2 ^ s ≤ 2 ^ 30).
    { split; [apply Z.pow_pos_nonneg; lia | apply Z.pow_le_mono_r; lia]. }
    lia.
Qed.

(** In the range where [1 << _] does not wrap, [resize] rounds the request
    up to the next power of two. *)
Lemma bucketCountFinal_round (n : Z) :
  n ≤ 2 ^ 30 → HashMap.bucketCountFinal n = 2 ^ Z.log2_up (Z.max n 1).
Proof.
  intros Hn. unfold HashMap.bucketCountFinal, JS.shl, JS.clz32, JS.ToUint32.
  set (x := Z.max n 1).
  assert (1 ≤ x ≤ 2 ^ 30) as Hx by lia.
  rewrite (Z.mod_small (x - 1)) by lia.
  rewrite (ToInt32_small 1) by lia.
  rewrite Z.shiftl_1_l.
  destruct (Z.eqb_spec (x - 1) 0) as [H0|H0].
  - replace x with 1 by lia. reflexivity.
  - assert (Z.log2_up x = Z.succ (Z.log2 (x - 1))) as Hup.
    { unfold Z.log2_up.
      destruct (Z.compare_spec 1 x); try lia. by rewrite Z.sub_1_r. }
    assert (0 ≤ Z.log2 (x - 1) < 30) as Hl.
    { split; [apply Z.log2_nonneg|]. apply Z.log2_lt_pow2; lia. }
    replace (32 - (31 - Z.log2 (x - 1))) with (Z.succ (Z.log2 (x - 1))) by lia.
    rewrite (Z.mod_small (Z.succ _) (2 ^ 32)) by lia.
    rewrite (Z.mod_small (Z.succ _) 32) by lia.
    rewrite Hup. apply ToInt32_small.
    assert (0 < 2 ^ Z.succ (Z.log2 (x - 1)) ≤ 2 ^ 30).
    { split; [apply Z.pow_pos_nonneg; lia | apply Z.pow_le_mono_r; lia]. }
    lia.
Qed.

Lemma bucketCountFinal_pow2 (j : Z) :
  0 ≤ j ≤ 30 → HashMap.bucketCountFinal (2 ^ j) = 2 ^ j.
Proof.
  intros Hj.
  assert (0 < 2 ^ j ≤ 2 ^ 30) as Hp.
  { split; [apply Z.pow_pos_nonneg; lia | apply Z.pow_le_mono_r; lia]. }
  rewrite bucketCountFinal_round by lia.
  rewrite Z.max_l by lia. rewrite Z.log2_up_pow2 by lia. done.
Qed.

Lemma bucketCountFinal_ge (n : Z) :
  n ≤ 2 ^ 30 →
  ∃ j, 0 ≤ j ≤ 30 ∧ HashMap.bucketCountFinal n = 2 ^ j ∧ n ≤ 2 ^ j.
Proof.
  intros Hn. rewrite bucketCountFinal_round by done.
  assert (1 ≤ Z.max n 1 ≤ 2 ^ 30 ∧ n ≤ Z.max n 1) as Hx by lia.
  revert Hx. generalize (Z.max n 1). intros x [Hx Hle].
  exists (Z.log2_up x). split_and!.
  - apply Z.log2_up_nonneg.
  - destruct (decide (x = 1)) as [->|]; [done|].
    apply Z.log2_up_le_pow2; lia.
  - done.
  - destruct (decide (x = 1)) as [->|].
    + change (Z.log2_up 1) with 0. lia.
    + pose proof (Z.log2_up_spec x ltac:(lia)). lia.
Qed.

(** The rolling hash on known values, one of them wrapping to the least
    32-bit integer. *)
Example hashString_known :
  hashString "hello" = 99162322
  ∧ hashString "hello world" = 1794106052
  ∧ hashString "polygenelubricants" = - 2 ^ 31.
Proof. split_and!; vm_compute; reflexivity. Qed.

(** ** Scans of a bucket *)

Section Scans.
Context {K T : Type} `{LawfulHasher K}.
Implicit Types (key k : K) (value v : T) (bucket l : HashMap.Bucket K T) (ks : list K).

Lemma equals_false_l key k k' :
  equals key k = true → equals key k' = false → equals k k' = false.
Proof.
  intros Hk Hk'. destruct (equals k k') eqn:E; [|done].
  rewrite (equals_trans key k k') in Hk'; done.
Qed.

Lemma equals_false_sym key k : equals key k = false → equals k key = false.
Proof.
  intros Hk. destruct (equals k key) eqn:E; [|done].
  apply equals_sym in E. congruence.
Qed.

Lemma equals_true_r key key' k :
  equals key' key = true → equals key' k = equals key k.
Proof.
  intros Hkk. destruct (equals key k) eqn:E.
  - by apply (equals_trans key' key k).
  - destruct (equals key' k) eqn:E'; [|done].
    apply equals_sym in Hkk. rewrite (equals_trans key key' k) in E; done.
Qed.

Lemma no_key_nil key : no_key key [].
Proof. intros k Hk. by apply elem_of_nil in Hk. Qed.

Lemma no_key_cons key k ks :
  no_key key (k :: ks) ↔ equals key k = false ∧ no_key key ks.
Proof.
  unfold no_key. split.
  - intros Hno. split; [apply Hno; left | intros k' Hk'; apply Hno; by right].
  - intros [Hk Hno] k' [->|Hk']%elem_of_cons; auto.
Qed.

Lemma no_key_app key ks1 ks2 :
  no_key key (ks1 ++ ks2) ↔ no_key key ks1 ∧ no_key key ks2.
Proof.
  unfold no_key. split.
  - intros Hno. split; intros k Hk; apply Hno, elem_of_app; auto.
  - intros [H1 H2] k [Hk|Hk]%elem_of_app; auto.
Qed.

Lemma no_key_equal key key' ks :
  equals key' key = true → no_key key ks → no_key key' ks.
Proof.
  intros Hkk Hno k Hk. rewrite (equals_true_r key key' k Hkk). by apply Hno.
Qed.

Lemma no_key_perm key ks ks' : ks ≡ₚ ks' → no_key key ks → no_key key ks'.
Proof. intros Hp Hno k Hk. apply Hno. by rewrite Hp. Qed.

Lemma unique_keys_app ks1 ks2 :
  unique_keys (ks1 ++ ks2) ↔
  unique_keys ks1 ∧ unique_keys ks2 ∧ ∀ k, k ∈ ks1 → no_key k ks2.
Proof.
  induction ks1 as [|k ks1 IH]; simpl.
  - split; [intros Hu; split_and!; [done|done|] | tauto].
    intros k Hk. by apply elem_of_nil in Hk.
  - rewrite no_key_app, IH. split.
    + intros [[Hn1 Hn2] (Hu1 & Hu2 & Hcross)]. split_and!; try done.
      intros k' [->|Hk']%elem_of_cons; auto.
    + intros ([Hn1 Hu1] & Hu2 & Hcross). split_and!; try done.
      * apply Hcross. left.
      * intros k' Hk'. apply Hcross. by right.
Qed.

Lemma unique_keys_perm ks ks' : ks ≡ₚ ks' → unique_keys ks → unique_keys ks'.
Proof.
  induction 1 as [|k ks ks' Hp IH|k1 k2 ks|ks ks' ks'' Hp1 IH1 Hp2 IH2]; simpl.
  - done.
  - intros [Hno Hu]. split; [by eapply no_key_perm | auto].
  - intros [[Hk12 Hno2]%no_key_cons [Hno1 Hu]]. split_and!; try done.
    apply no_key_cons. split; [by apply equals_false_sym | done].
  - auto.
Qed.

Lemma unique_keys_sublist ks ks' : ks' `sublist_of` ks → unique_keys ks → unique_keys ks'.
Proof.
  induction 1 as [|k ks' ks Hs IH|k ks' ks Hs IH]; simpl.
  - done.
  - intros [Hno Hu]. split; [|auto].
    intros k' Hk'. apply Hno. by eapply elem_of_sublist.
  - intros [_ Hu]. auto.
Qed.

(** [get] *)

Lemma get_scan_app key l1 l2 :
  HashMap.get_scan key (l1 ++ l2) =
  match HashMap.get_scan key l1 with
  | some v => some v
  | none => HashMap.get_scan key l2
  end.
Proof.
  induction l1 as [|[k v] l1 IH]; simpl; [done|].
  by destruct (equals key k).
Qed.

Lemma get_scan_none key l :
  HashMap.get_scan key l = none ↔ no_key key l.*1.
Proof.
  induction l as [|[k v] l IH]; simpl.
  - split; [intros _; apply no_key_nil | done].
  - rewrite no_key_cons. destruct (equals key k).
    + split; [done | by intros [? _]].
    + rewrite IH. tauto.
Qed.

Lemma get_scan_some key l v :
  HashMap.get_scan key l = some v ↔
  ∃ l1 k l2, l = l1 ++ (k, v) :: l2 ∧ no_key key l1.*1 ∧ equals key k = true.
Proof.
  induction l as [|[k0 v0] l IH]; simpl.
  - split; [done|]. intros (l1 & k & l2 & Hl & _). by destruct l1.
  - destruct (equals key k0) eqn:E.
    + split.
      * intros [= ->]. exists [], k0, l. split_and!; [done | apply no_key_nil | done].
      * intros (l1 & k & l2 & Hl & Hno & Hk). destruct l1 as [|[k1 v1] l1].
        -- by simplify_eq/=.
        -- simplify_eq/=. apply no_key_cons in Hno as [Hno _]. congruence.
    + rewrite IH. split.
      * intros (l1 & k & l2 & -> & Hno & Hk).
        exists ((k0, v0) :: l1), k, l2. split_and!; [done| |done].
        simpl. by apply no_key_cons.
      * intros (l1 & k & l2 & Hl & Hno & Hk). destruct l1 as [|[k1 v1] l1].
        -- simplify_eq/=. congruence.
        -- simplify_eq/=. apply no_key_cons in Hno as [_ Hno].
           by exists l1, k, l2.
Qed.

(** With pairwise different keys, what a scan finds does not depend on the
    order of the pairs. *)
Lemma get_scan_perm key l l' :
  l ≡ₚ l' → unique_keys l.*1 → HashMap.get_scan key l = HashMap.get_scan key l'.
Proof.
  induction 1 as [|[k v] l l' Hp IH|[k1 v1] [k2 v2] l|l l' l'' Hp1 IH1 Hp2 IH2]; simpl.
  - done.
  - intros [_ Hu]. destruct (equals key k); auto.
  - intros [[Hk12 _]%no_key_cons _].
    destruct (equals key k1) eqn:E1, (equals key k2) eqn:E2; try done.
    apply equals_sym in E2. rewrite (equals_trans k2 key k1) in Hk12; done.
  - intros Hu. rewrite IH1 by done. apply IH2.
    eapply unique_keys_perm; [|done]. by apply fmap_Permutation.
Qed.

(** [set] *)

Lemma set_scan_None key value l :
  HashMap.set_scan key value l = None ↔ HashMap.get_scan key l = none.
Proof.
  induction l as [|[k v] l IH]; simpl; [done|].
  destruct (equals key k); [done|].
  rewrite <- IH. by destruct (HashMap.set_scan key value l).
Qed.

Lemma set_scan_Some key value l l' :
  HashMap.set_scan key value l = Some l' ↔
  ∃ l1 k v l2,
    l = l1 ++ (k, v) :: l2 ∧ l' = l1 ++ (k, value) :: l2 ∧
    no_key key l1.*1 ∧ equals key k = true.
Proof.
  revert l'. induction l as [|[k0 v0] l IH]; intros l'; simpl.
  - split; [done|]. intros (l1 & k & v & l2 & Hl & _). by destruct l1.
  - destruct (equals key k0) eqn:E.
    + split.
      * intros [= <-]. exists [], k0, v0, l. split_and!; [done|done|apply no_key_nil|done].
      * intros (l1 & k & v & l2 & Hl & -> & Hno & Hk). destruct l1 as [|[k1 v1] l1].
        -- by simplify_eq/=.
        -- simplify_eq/=. apply no_key_cons in Hno as [Hno _]. congruence.
    + destruct (HashMap.set_scan key value l) as [r|] eqn:Hr; simpl.
      * split.
        -- intros [= <-]. destruct (proj1 (IH r) eq_refl) as (l1 & k & v & l2 & -> & -> & Hno & Hk).
           exists ((k0, v0) :: l1), k, v, l2. split_and!; [done|done| |done].
           simpl. by apply no_key_cons.
        -- intros (l1 & k & v & l2 & Hl & -> & Hno & Hk). destruct l1 as [|[k1 v1] l1].
           ++ simplify_eq/=. congruence.
           ++ simplify_eq/=. apply no_key_cons in Hno as [_ Hno]. do 2 f_equal.
              assert (Some r = Some (l1 ++ (k, value) :: l2)) as [= ->]; [|done].
              apply IH. by exists l1, k, v, l2.
      * split; [done|].
        intros (l1 & k & v & l2 & Hl & -> & Hno & Hk). destruct l1 as [|[k1 v1] l1].
        -- simplify_eq/=. congruence.
        -- simplify_eq/=. apply no_key_cons in Hno as [_ Hno].
           assert (None = Some (l1 ++ (k, value) :: l2)) as [=].
           apply IH. by exists l1, k, v, l2.
Qed.

Lemma set_scan_keys key value l l' :
  HashMap.set_scan key value l = Some l' → l'.*1 = l.*1.
Proof.
  intros (l1 & k & v & l2 & -> & -> & _)%set_scan_Some.
  by rewrite !fmap_app.
Qed.

(** Reading [key'] in a bucket after [set key value] wrote in place. *)
Lemma get_scan_set_found key key' value l l' :
  HashMap.set_scan key value l = Some l' →
  HashMap.get_scan key' l' =
  if equals key' key then some value else HashMap.get_scan key' l.
Proof.
  intros (l1 & k & v & l2 & -> & -> & Hno & Hk)%set_scan_Some.
  rewrite !get_scan_app. simpl.
  destruct (equals key' key) eqn:E.
  - assert (HashMap.get_scan key' l1 = none) as ->.
    { apply get_scan_none. by eapply no_key_equal. }
    by rewrite (equals_true_r key key' k E), Hk.
  - destruct (HashMap.get_scan key' l1); [done|].
    destruct (equals key' k) eqn:E'; [|done].
    apply equals_sym in Hk. rewrite (equals_trans key' k key) in E; done.
Qed.

(** Reading [key'] in a bucket after [set key value] pushed a new pair. *)
Lemma get_scan_set_pushed key key' value l :
  HashMap.set_scan key value l = None →
  HashMap.get_scan key' (l ++ [(key, value)]) =
  if equals key' key then some value else HashMap.get_scan key' l.
Proof.
  intros Hno%set_scan_None%get_scan_none.
  rewrite get_scan_app. simpl.
  destruct (equals key' key) eqn:E.
  - assert (HashMap.get_scan key' l = none) as ->; [|done].
    apply get_scan_none. by eapply no_key_equal.
  - by destruct (HashMap.get_scan key' l).
Qed.

(** [remove] *)

Lemma remove_scan_None key l :
  HashMap.remove_scan key l = None ↔ HashMap.get_scan key l = none.
Proof.
  induction l as [|[k v] l IH]; simpl; [done|].
  destruct (equals key k); [done|].
  rewrite <- IH. by destruct (HashMap.remove_scan key l) as [[??]|].
Qed.

Lemma remove_scan_Some key l r l' :
  HashMap.remove_scan key l = Some (r, l') →
  ∃ l1 k l2,
    l = l1 ++ (k, r) :: l2 ∧ l' = l1 ++ l2 ∧
    no_key key l1.*1 ∧ equals key k = true.
Proof.
  revert l'. induction l as [|[k0 v0] l IH]; intros l'; simpl; [done|].
  destruct (equals key k0) eqn:E.
  - intros [= <- <-]. exists [], k0, l. split_and!; [done|done|apply no_key_nil|done].
  - destruct (HashMap.remove_scan key l) as [[r0 rest]|]; [|done].
    intros [= <- <-]. destruct (IH rest eq_refl) as (l1 & k & l2 & -> & -> & Hno & Hk).
    exists ((k0, v0) :: l1), k, l2. split_and!; [done|done| |done].
    simpl. by apply no_key_cons.
Qed.

Lemma remove_scan_get key l r l' :
  HashMap.remove_scan key l = Some (r, l') → HashMap.get_scan key l = some r.
Proof.
  intros (l1 & k & l2 & -> & _ & Hno & Hk)%remove_scan_Some.
  apply get_scan_some. by exists l1, k, l2.
Qed.


End Scans.

(** ** The bucket store *)

Section Store.
Context {K T : Type} `{LawfulHasher K}.
Local Abbreviation HashMap := (HashMap.HashMap K T).
Local Abbreviation Bucket := (HashMap.Bucket K T).
Implicit Types (key k : K) (value v : T) (bucket b : Bucket)
  (store : list Bucket) (m : HashMap).

Lemma index_Some {A} (arr : list A) (i : Z) (x : A) :
  JS.index arr i = Some x ↔ 0 ≤ i ∧ arr !! Z.to_nat i = Some x.
Proof.
  unfold JS.index. case_decide; [tauto|].
  split; [done | by intros [? _]].
Qed.

Lemma index_of_nat {A} (arr : list A) (i : nat) :
  JS.index arr (Z.of_nat i) = arr !! i.
Proof. unfold JS.index. rewrite decide_True by lia. by rewrite Nat2Z.id. Qed.

Lemma elem_of_concat {A} (ls : list (list A)) (x : A) :
  x ∈ concat ls ↔ ∃ i l, ls !! i = Some l ∧ x ∈ l.
Proof.
  induction ls as [|l ls IH]; simpl.
  - split; [by intros ?%elem_of_nil | by intros (i & l & ? & _)].
  - rewrite elem_of_app, IH. split.
    + intros [Hx|(i & l' & Hi & Hx)]; [by exists 0%nat, l | by exists (S i), l'].
    + intros ([|i] & l' & Hi & Hx); simplify_eq/=; [by left | right; eauto].
Qed.

Lemma concat_middle {A} (ls : list (list A)) (i : nat) (l : list A) :
  ls !! i = Some l →
  concat ls = concat (take i ls) ++ l ++ concat (drop (S i) ls).
Proof.
  intros Hi. rewrite <- (take_drop_middle ls i l Hi) at 1.
  by rewrite concat_app.
Qed.

Lemma concat_insert {A} (ls : list (list A)) (i : nat) (l l' : list A) :
  ls !! i = Some l →
  concat (<[i:=l']> ls) = concat (take i ls) ++ l' ++ concat (drop (S i) ls).
Proof.
  intros Hi. rewrite insert_take_drop by (by eapply lookup_lt_Some).
  by rewrite concat_app.
Qed.

(** Pushing a pair at the end of one bucket adds it to the content of the
    store. *)
Lemma concat_insert_snoc {A} (ls : list (list A)) (i : nat) (l : list A) (x : A) :
  ls !! i = Some l → concat (<[i:=l ++ [x]]> ls) ≡ₚ concat ls ++ [x].
Proof.
  intros Hi. rewrite (concat_insert ls i l) by done.
  rewrite (concat_middle ls i l Hi).
  rewrite <- !(assoc_L (++)). do 2 f_equiv. apply Permutation_app_comm.
Qed.

Lemma slot_bound key m :
  pow2_store m → 0 ≤ HashMap.slot key m < HashMap.buckets m.
Proof.
  intros (j & Hj & Hlen). unfold HashMap.slot. rewrite Hlen.
  by apply band_mask_bound.
Qed.

(** On a store of [2^j] buckets the slot of a key is the remainder of the
    absolute value of its hash. *)
Lemma slot_mod key m :
  pow2_store m → HashMap.slot key m = Z.abs (hash key) mod HashMap.buckets m.
Proof.
  intros (j & Hj & Hlen). unfold HashMap.slot. rewrite Hlen.
  by apply band_mask.
Qed.

Lemma slot_equal key key' m :
  equals key' key = true → HashMap.slot key' m = HashMap.slot key m.
Proof. intros Hk. unfold HashMap.slot. by rewrite (equals_hash _ _ Hk). Qed.

Lemma getBucket_Some key m :
  pow2_store m →
  ∃ bucket, HashMap.getBucket key m = Some bucket
    ∧ HashMap._buckets m !! Z.to_nat (HashMap.slot key m) = Some bucket.
Proof.
  intros Hp. pose proof (slot_bound key m Hp) as Hs.
  destruct (lookup_lt_is_Some_2 (HashMap._buckets m) (Z.to_nat (HashMap.slot key m)))
    as [bucket Hb].
  { unfold HashMap.buckets in Hs. lia. }
  exists bucket. split; [|done]. unfold HashMap.getBucket. apply index_Some. split; [lia|done].
Qed.

Lemma getBucket_lookup key m bucket :
  HashMap.getBucket key m = Some bucket →
  0 ≤ HashMap.slot key m
  ∧ HashMap._buckets m !! Z.to_nat (HashMap.slot key m) = Some bucket.
Proof. unfold HashMap.getBucket. by intros ?%index_Some. Qed.

(** A key has no equal in the buckets of the other slots. *)
Lemma placed_other_bucket key m i bucket :
  placed m → HashMap._buckets m !! i = Some bucket →
  Z.of_nat i ≠ HashMap.slot key m → no_key key bucket.*1.
Proof.
  intros Hpl Hi Hne k (kv & -> & Hkv)%list_elem_of_fmap.
  destruct (equals key kv.1) eqn:E; [|done].
  destruct Hne. rewrite <- (Hpl i bucket kv Hi Hkv).
  unfold HashMap.slot. by rewrite (equals_hash _ _ E).
Qed.

Lemma no_key_concat key store :
  (∀ i bucket, store !! i = Some bucket → no_key key bucket.*1) →
  no_key key (concat store).*1.
Proof.
  intros Hall k (kv & -> & (i & bucket & Hi & Hkv)%elem_of_concat)%list_elem_of_fmap.
  apply (Hall i bucket Hi). by apply list_elem_of_fmap_2.
Qed.

(** [get] finds what a scan of the whole content would find. *)
Lemma get_iterator key m :
  pow2_store m → placed m →
  HashMap.get key m = Some (HashMap.get_scan key (HashMap.iterator m)).
Proof.
  intros Hp Hpl. destruct (getBucket_Some key m Hp) as (bucket & Hg & Hb).
  pose proof (slot_bound key m Hp) as Hs.
  unfold HashMap.get. rewrite Hg. simpl. f_equal.
  unfold HashMap.iterator. rewrite (concat_middle _ _ _ Hb), !get_scan_app.
  assert (HashMap.get_scan key (concat (take (Z.to_nat (HashMap.slot key m))
            (HashMap._buckets m))) = none) as ->.
  { apply get_scan_none, no_key_concat. intros i b [Hi Hlt]%lookup_take_Some.
    apply (placed_other_bucket key m i b Hpl Hi). lia. }
  assert (HashMap.get_scan key (concat (drop (S (Z.to_nat (HashMap.slot key m)))
            (HashMap._buckets m))) = none) as ->.
  { apply get_scan_none, no_key_concat. intros i b Hi. rewrite lookup_drop in Hi.
    apply (placed_other_bucket key m _ b Hpl Hi). lia. }
  by destruct (HashMap.get_scan key bucket).
Qed.

Lemma placed_store_insert len store i bucket :
  placed_store len store →
  (∀ kv, kv ∈ bucket → JS.band (Z.abs (hash kv.1)) (len - 1) = Z.of_nat i) →
  placed_store len (<[i:=bucket]> store).
Proof.
  intros Hpl Hb j b kv Hj Hkv.
  apply list_lookup_insert_Some in Hj as [(-> & -> & _)|[Hne Hj]]; [by apply Hb|].
  by eapply Hpl.
Qed.

Lemma placed_store_replicate len n : placed_store len (replicate n ([] : Bucket)).
Proof.
  intros i b kv [-> _]%lookup_replicate Hkv. by apply elem_of_nil in Hkv.
Qed.

(** *** The rehash loop *)

Lemma rehash_pair_spec bcf store kv store' :
  HashMap.rehash_pair bcf store kv = Some store' →
  length store' = length store
  ∧ concat store' ≡ₚ concat store ++ [kv]
  ∧ (placed_store bcf store → placed_store bcf store').
Proof.
  unfold HashMap.rehash_pair. cbv zeta.
  destruct (JS.index store _) as [b|] eqn:Hb; [|done]. simpl. intros [= <-].
  apply index_Some in Hb as [Hpos Hb]. split_and!.
  - apply length_insert.
  - by apply concat_insert_snoc.
  - intros Hpl. apply placed_store_insert; [done|].
    intros kv' [Hkv'|Hkv']%elem_of_app; [|apply list_elem_of_singleton in Hkv' as ->].
    + apply (Hpl _ b kv' Hb Hkv').
    + by rewrite Z2Nat.id.
Qed.

Lemma rehash_bucket_spec bcf store bucket store' :
  HashMap.rehash_bucket bcf store bucket = Some store' →
  length store' = length store
  ∧ concat store' ≡ₚ concat store ++ bucket
  ∧ (placed_store bcf store → placed_store bcf store').
Proof.
  revert store. induction bucket as [|kv bucket IH]; intros store; simpl.
  - intros [= <-]. by rewrite app_nil_r.
  - destruct (HashMap.rehash_pair bcf store kv) as [s1|] eqn:H1; [|done]. simpl.
    intros (Hlen & Hperm & Hpl)%IH.
    apply rehash_pair_spec in H1 as (Hlen1 & Hperm1 & Hpl1). split_and!.
    + congruence.
    + rewrite Hperm, Hperm1. by rewrite <- (assoc_L (++)).
    + auto.
Qed.

Lemma rehash_spec bcf store oldBuckets store' :
  HashMap.rehash bcf store oldBuckets = Some store' →
  length store' = length store
  ∧ concat store' ≡ₚ concat store ++ concat oldBuckets
  ∧ (placed_store bcf store → placed_store bcf store').
Proof.
  revert store. induction oldBuckets as [|bucket rest IH]; intros store; simpl.
  - intros [= <-]. by rewrite app_nil_r.
  - destruct (HashMap.rehash_bucket bcf store bucket) as [s1|] eqn:H1; [|done]. simpl.
    intros (Hlen & Hperm & Hpl)%IH.
    apply rehash_bucket_spec in H1 as (Hlen1 & Hperm1 & Hpl1). split_and!.
    + congruence.
    + rewrite Hperm, Hperm1. by rewrite <- (assoc_L (++)).
    + auto.
Qed.

(** The loop runs to its end when the new store has [2^j] buckets. *)
Lemma rehash_pair_returns j store kv :
  0 ≤ j ≤ 30 → Z.of_nat (length store) = 2 ^ j →
  is_Some (HashMap.rehash_pair (2 ^ j) store kv).
Proof.
  intros Hj Hlen. unfold HashMap.rehash_pair. cbv zeta.
  pose proof (band_mask_bound (hash kv.1) j Hj) as Hb.
  destruct (lookup_lt_is_Some_2 store
    (Z.to_nat (JS.band (Z.abs (hash kv.1)) (2 ^ j - 1)))) as [b Hlk]; [lia|].
  assert (JS.index store (JS.band (Z.abs (hash kv.1)) (2 ^ j - 1)) = Some b) as ->.
  { apply index_Some. split; [lia|done]. }
  by eexists.
Qed.

Lemma rehash_bucket_returns j store bucket :
  0 ≤ j ≤ 30 → Z.of_nat (length store) = 2 ^ j →
  is_Some (HashMap.rehash_bucket (2 ^ j) store bucket).
Proof.
  intros Hj. revert store. induction bucket as [|kv bucket IH]; intros store Hlen; simpl.
  - by eexists.
  - destruct (rehash_pair_returns j store kv Hj Hlen) as [s1 H1]. rewrite H1. simpl.
    apply IH. apply rehash_pair_spec in H1 as (-> & _). done.
Qed.

Lemma rehash_returns j store oldBuckets :
  0 ≤ j ≤ 30 → Z.of_nat (length store) = 2 ^ j →
  is_Some (HashMap.rehash (2 ^ j) store oldBuckets).
Proof.
  intros Hj. revert store. induction oldBuckets as [|bucket rest IH]; intros store Hlen; simpl.
  - by eexists.
  - destruct (rehash_bucket_returns j store bucket Hj Hlen) as [s1 H1]. rewrite H1. simpl.
    apply IH. apply rehash_bucket_spec in H1 as (-> & _). done.
Qed.

(** On an empty store the loop succeeds only if there is nothing to move. *)
Lemma rehash_nil bcf oldBuckets store' :
  HashMap.rehash bcf [] oldBuckets = Some store' → store' = [] ∧ concat oldBuckets = [].
Proof.
  induction oldBuckets as [|bucket rest IH]; simpl.
  - by intros [= <-].
  - destruct bucket as [|kv bucket]; simpl; [|by unfold HashMap.rehash_pair, JS.index; case_decide].
    done.
Qed.

End Store.

(** ** [resize] *)

Section Resize.
Context {K T : Type} `{LawfulHasher K}.
Local Abbreviation HashMap := (HashMap.HashMap K T).
Implicit Types (key k : K) (value v : T) (m : HashMap).

Lemma buckets_nonneg m : 0 ≤ HashMap.buckets m.
Proof. unfold HashMap.buckets. lia. Qed.

Lemma length_Array_from_length {A} (n : Z) (x : A) :
  Z.of_nat (length (JS.Array_from_length n x)) = Z.max 0 n.
Proof. unfold JS.Array_from_length, JS.ToLength. rewrite length_replicate. lia. Qed.

Lemma concat_replicate_nil {A} (n : nat) : concat (replicate n ([] : list A)) = [].
Proof. induction n; simpl; auto. Qed.

Lemma iterator_Array_from_length n count :
  HashMap.iterator ({| HashMap._buckets := JS.Array_from_length n [];
                       HashMap._count := count |} : HashMap) = [].
Proof. apply concat_replicate_nil. Qed.

(** What [resize] leaves when it returns. *)
Lemma resize_spec n m m' :
  HashMap.resize n m = Some m' →
  HashMap.buckets m' = Z.max 0 (HashMap.bucketCountFinal n)
  ∧ HashMap._count m' = HashMap._count m
  ∧ HashMap.iterator m' ≡ₚ HashMap.iterator m
  ∧ placed m'.
Proof.
  unfold HashMap.resize. cbv zeta.
  destruct (HashMap.rehash _ _ _) as [store|] eqn:Hre; [|done]. simpl. intros [= <-].
  pose proof Hre as (Hlen & Hperm & Hpl)%rehash_spec.
  unfold placed, HashMap.buckets, HashMap.iterator. simpl.
  rewrite Hlen, length_Array_from_length.
  unfold JS.Array_from_length in Hperm. rewrite concat_replicate_nil in Hperm.
  split_and!; [done|done|done|].
  destruct (bucketCountFinal_cases n) as [(j & Hj & Hbcf)|Hbcf].
  - rewrite Z.max_r by (rewrite Hbcf; apply Z.pow_nonneg; lia).
    apply Hpl, placed_store_replicate.
  - rewrite Hbcf in Hre. change (JS.Array_from_length (- 2 ^ 31) []) with (@nil (list (K * T))) in Hre.
    apply rehash_nil in Hre as [-> _]. intros i b kv Hi. by rewrite lookup_nil in Hi.
Qed.

(** [resize] returns when the rounded bucket count did not wrap. *)
Lemma resize_returns n m j :
  0 ≤ j ≤ 30 → HashMap.bucketCountFinal n = 2 ^ j →
  ∃ m', HashMap.resize n m = Some m' ∧ HashMap.buckets m' = 2 ^ j.
Proof.
  intros Hj Hbcf. unfold HashMap.resize. cbv zeta. rewrite Hbcf.
  assert (0 < 2 ^ j) as Hpos by (apply Z.pow_pos_nonneg; lia).
  destruct (rehash_returns j (JS.Array_from_length (2 ^ j) []) (HashMap._buckets m) Hj)
    as [store Hre].
  { rewrite length_Array_from_length. lia. }
  rewrite Hre. simpl. eexists. split; [done|].
  apply rehash_spec in Hre as (Hlen & _). unfold HashMap.buckets. simpl.
  rewrite Hlen, length_Array_from_length. lia.
Qed.

Lemma keys_perm m m' :
  HashMap.iterator m' ≡ₚ HashMap.iterator m → HashMap.keys m' ≡ₚ HashMap.keys m.
Proof. intros Hp. unfold HashMap.keys. by apply fmap_Permutation. Qed.

Lemma wf_empty_store n :
  (∃ j, 0 ≤ j ≤ 30 ∧ n = 2 ^ j) →
  wf ({| HashMap._buckets := JS.Array_from_length n []; HashMap._count := 0 |} : HashMap).
Proof.
  intros (j & Hj & ->).
  assert (0 < 2 ^ j) as Hpos by (apply Z.pow_pos_nonneg; lia).
  split.
  - exists j. split; [done|]. unfold HashMap.buckets. simpl.
    rewrite length_Array_from_length. lia.
  - apply placed_store_replicate.
  - unfold HashMap.keys. by rewrite iterator_Array_from_length.
  - unfold counted. by rewrite iterator_Array_from_length.
Qed.

Lemma wf_new : wf (HashMap.new : HashMap).
Proof. apply wf_empty_store. exists 3. split; [lia|done]. Qed.

(** A map is in order when it is well formed or has lost its store. *)
Lemma resize_inv n m m' :
  wf m ∨ degenerate m → HashMap.resize n m = Some m' → wf m' ∨ degenerate m'.
Proof.
  intros Hinv Hre. pose proof Hre as (Hlen & Hcount & Hperm & Hpl)%resize_spec.
  assert (unique_keys (HashMap.keys m) ∧ counted m) as [Hu Hc].
  { destruct Hinv as [[]|[Hb Hc]]; [done|]. unfold HashMap.keys, counted, HashMap.iterator.
    rewrite Hb, Hc. done. }
  destruct (bucketCountFinal_cases n) as [(j & Hj & Hbcf)|Hbcf].
  - left. split.
    + exists j. split; [done|]. rewrite Hlen, Hbcf.
      pose proof (Z.pow_pos_nonneg 2 j). lia.
    + done.
    + eapply unique_keys_perm; [|done]. symmetry. by apply keys_perm.
    + unfold counted in *. by rewrite Hcount, Hc, Hperm.
  - right. rewrite Hbcf in Hlen. unfold HashMap.buckets in Hlen.
    destruct m' as [[|b bs] c]; simpl in *; [|lia]. split; [done|].
    unfold HashMap.iterator in Hperm at 1. simpl in Hperm.
    apply Permutation_nil_l in Hperm. unfold counted in Hc. rewrite <- Hperm in Hc.
    simpl in *. lia.
Qed.

Lemma resize_wf n m m' :
  wf m → HashMap.resize n m = Some m' → 0 < HashMap.bucketCountFinal n → wf m'.
Proof.
  intros Hwf Hre Hpos. destruct (resize_inv n m m' (or_introl Hwf) Hre) as [?|[Hb _]]; [done|].
  apply resize_spec in Hre as (Hlen & _). unfold HashMap.buckets in Hlen.
  rewrite Hb in Hlen. simpl in Hlen. lia.
Qed.

(** Across a [resize] of a well-formed map every key reads the same. *)
Lemma get_resize n m m' key :
  wf m → HashMap.resize n m = Some m' → 0 < HashMap.bucketCountFinal n →
  HashMap.get key m' = HashMap.get key m.
Proof.
  intros Hwf Hre Hpos. pose proof (resize_wf n m m' Hwf Hre Hpos) as Hwf'.
  apply resize_spec in Hre as (_ & _ & Hperm & _).
  rewrite !get_iterator by (by destruct Hwf, Hwf'). f_equal.
  symmetry. apply get_scan_perm; [by symmetry|]. by destruct Hwf.
Qed.

End Resize.

(** ** [set] *)

Section SetOp.
Context {K T : Type} `{LawfulHasher K}.
Local Abbreviation HashMap := (HashMap.HashMap K T).
Local Abbreviation Bucket := (HashMap.Bucket K T).
Implicit Types (key k : K) (value v : T) (bucket b : Bucket) (m : HashMap).

Lemma set_found key value m bucket bucket' :
  HashMap.getBucket key m = Some bucket →
  HashMap.set_scan key value bucket = Some bucket' →
  HashMap.set key value m = Some (overwritten key bucket' m).
Proof. intros Hg Hs. unfold HashMap.set. rewrite Hg. simpl. by rewrite Hs. Qed.

Lemma set_absent key value m bucket :
  HashMap.getBucket key m = Some bucket →
  HashMap.set_scan key value bucket = None →
  HashMap.set key value m =
  if decide (3 * HashMap.buckets (pushed key value bucket m)
             < 4 * HashMap._count (pushed key value bucket m))
  then HashMap.resize (HashMap.buckets (pushed key value bucket m) * 2)
         (pushed key value bucket m)
  else Some (pushed key value bucket m).
Proof. intros Hg Hs. unfold HashMap.set. rewrite Hg. simpl. by rewrite Hs. Qed.

(** Writing a bucket back at the slot of [key]. *)
Section PutBucket.
Variables (key : K) (m : HashMap) (bucket bucket' : Bucket) (count : Z).
Hypothesis Hpow2 : pow2_store m.
Hypothesis HgetBucket : HashMap.getBucket key m = Some bucket.
Let m' : HashMap :=
  {| HashMap._buckets := HashMap.putBucket key bucket' m; HashMap._count := count |}.

Lemma buckets_putBucket : HashMap.buckets m' = HashMap.buckets m.
Proof. unfold HashMap.buckets, m', HashMap.putBucket. simpl. by rewrite length_insert. Qed.

Lemma pow2_putBucket : pow2_store m'.
Proof. unfold pow2_store. by rewrite buckets_putBucket. Qed.

Lemma slot_putBucket key' : HashMap.slot key' m' = HashMap.slot key' m.
Proof. unfold HashMap.slot. by rewrite buckets_putBucket. Qed.

Lemma iterator_putBucket :
  ∃ before after,
    HashMap.iterator m = before ++ bucket ++ after
    ∧ HashMap.iterator m' = before ++ bucket' ++ after.
Proof.
  apply getBucket_lookup in HgetBucket as [_ Hb].
  eexists _, _. split; [by apply concat_middle|].
  unfold m', HashMap.iterator, HashMap.putBucket. simpl. by eapply concat_insert.
Qed.

Lemma placed_putBucket :
  placed m → (∀ k, k ∈ bucket'.*1 → k ∈ bucket.*1 ∨ equals k key = true) → placed m'.
Proof.
  intros Hpl Hkeys. unfold placed. rewrite buckets_putBucket.
  apply getBucket_lookup in HgetBucket as [Hpos Hb].
  apply placed_store_insert; [done|].
  intros kv Hkv. rewrite Z2Nat.id by done.
  destruct (Hkeys kv.1) as [(kv0 & -> & Hkv0)%list_elem_of_fmap|Heq].
  { by apply list_elem_of_fmap_2. }
  - rewrite (Hpl _ bucket kv0 Hb Hkv0). lia.
  - by rewrite (equals_hash _ _ Heq).
Qed.

Lemma get_putBucket_same key' :
  HashMap.slot key' m = HashMap.slot key m →
  HashMap.get key' m' = Some (HashMap.get_scan key' bucket')
  ∧ HashMap.get key' m = Some (HashMap.get_scan key' bucket).
Proof.
  intros Hslot. pose proof HgetBucket as [Hpos Hb]%getBucket_lookup.
  unfold HashMap.get, HashMap.getBucket. rewrite slot_putBucket, Hslot.
  assert (JS.index (HashMap._buckets m') (HashMap.slot key m) = Some bucket') as ->.
  { apply index_Some. split; [done|]. unfold m', HashMap.putBucket. simpl.
    apply list_lookup_insert_eq. by eapply lookup_lt_Some. }
  assert (JS.index (HashMap._buckets m) (HashMap.slot key m) = Some bucket) as ->.
  { by apply index_Some. }
  done.
Qed.

Lemma get_putBucket_other key' :
  HashMap.slot key' m ≠ HashMap.slot key m →
  HashMap.get key' m' = HashMap.get key' m.
Proof.
  intros Hslot. pose proof (slot_bound key m Hpow2). pose proof (slot_bound key' m Hpow2).
  unfold HashMap.get, HashMap.getBucket. rewrite slot_putBucket.
  unfold JS.index. case_decide; [|done].
  unfold m', HashMap.putBucket. simpl. rewrite list_lookup_insert_ne by lia. done.
Qed.

End PutBucket.

(** The map after an overwrite in place. *)
Lemma keys_overwritten key value m bucket bucket' :
  HashMap.getBucket key m = Some bucket →
  HashMap.set_scan key value bucket = Some bucket' →
  HashMap.keys (overwritten key bucket' m) = HashMap.keys m.
Proof.
  intros Hg Hs.
  destruct (iterator_putBucket key m bucket bucket' (HashMap._count m) Hg)
    as (before & after & Hit & Hit').
  unfold HashMap.keys, overwritten. rewrite Hit, Hit', !fmap_app.
  by rewrite (set_scan_keys _ _ _ _ Hs).
Qed.

Lemma wf_overwritten key value m bucket bucket' :
  wf m →
  HashMap.getBucket key m = Some bucket →
  HashMap.set_scan key value bucket = Some bucket' →
  wf (overwritten key bucket' m).
Proof.
  intros [Hp Hpl Hu Hc] Hg Hs. pose proof (keys_overwritten _ _ _ _ _ Hg Hs) as Hkeys. split.
  - by apply pow2_putBucket.
  - apply (placed_putBucket key m bucket); [done|done|].
    intros k Hk. left. by rewrite <- (set_scan_keys _ _ _ _ Hs).
  - by rewrite Hkeys.
  - unfold counted in *. simpl. rewrite Hc. unfold HashMap.keys in Hkeys.
    rewrite <- (length_fmap fst (HashMap.iterator m)), <- Hkeys. by rewrite length_fmap.
Qed.

(** The map after a push, before the growth check. *)
Lemma iterator_pushed key value m bucket :
  HashMap.getBucket key m = Some bucket →
  HashMap.iterator (pushed key value bucket m) ≡ₚ HashMap.iterator m ++ [(key, value)].
Proof.
  intros [_ Hb]%getBucket_lookup.
  unfold pushed, HashMap.iterator, HashMap.putBucket. simpl.
  by apply concat_insert_snoc.
Qed.

Lemma wf_pushed key value m bucket :
  wf m →
  HashMap.getBucket key m = Some bucket →
  HashMap.set_scan key value bucket = None →
  wf (pushed key value bucket m).
Proof.
  intros [Hp Hpl Hu Hc] Hg Hs. pose proof (iterator_pushed key value m bucket Hg) as Hit.
  assert (no_key key (HashMap.keys m)) as Hno.
  { apply get_scan_none. apply set_scan_None in Hs.
    pose proof (get_iterator key m Hp Hpl) as Hget.
    unfold HashMap.get in Hget. rewrite Hg in Hget. simpl in Hget. congruence. }
  split.
  - by apply pow2_putBucket.
  - apply (placed_putBucket key m bucket); [done|done|].
    intros k Hk. rewrite fmap_app in Hk.
    apply elem_of_app in Hk as [Hk|Hk]; [by left|right].
    apply list_elem_of_singleton in Hk as ->. apply equals_refl.
  - eapply unique_keys_perm.
    { symmetry. apply fmap_Permutation. exact Hit. }
    rewrite fmap_app. apply unique_keys_app. split_and!; [done|simpl; split; [apply no_key_nil|done]|].
    intros k Hk k' ->%list_elem_of_singleton. simpl.
    apply equals_false_sym. by apply Hno.
  - unfold counted in *. rewrite Hit, length_app. simpl. lia.
Qed.

(** Reading any key after the store was written at the slot of [key]. *)
Lemma get_overwritten key key' value m bucket bucket' :
  pow2_store m →
  HashMap.getBucket key m = Some bucket →
  HashMap.set_scan key value bucket = Some bucket' →
  ∃ r, HashMap.get key' m = Some r
     ∧ HashMap.get key' (overwritten key bucket' m)
       = Some (if equals key' key then some value else r).
Proof.
  intros Hp Hg Hs.
  destruct (decide (HashMap.slot key' m = HashMap.slot key m)) as [Hslot|Hslot].
  - destruct (get_putBucket_same key m bucket bucket' (HashMap._count m) Hg key' Hslot)
      as [Hget' Hget].
    eexists. split; [done|]. unfold overwritten. rewrite Hget'.
    by rewrite (get_scan_set_found _ _ _ _ _ Hs).
  - destruct (getBucket_Some key' m Hp) as (b' & Hg' & _).
    exists (HashMap.get_scan key' b'). split.
    { unfold HashMap.get. by rewrite Hg'. }
    unfold overwritten. rewrite (get_putBucket_other key m bucket' _ Hp key' Hslot).
    unfold HashMap.get. rewrite Hg'. simpl.
    destruct (equals key' key) eqn:E; [|done].
    destruct Hslot. by apply slot_equal.
Qed.

Lemma get_pushed key key' value m bucket :
  pow2_store m →
  HashMap.getBucket key m = Some bucket →
  HashMap.set_scan key value bucket = None →
  ∃ r, HashMap.get key' m = Some r
     ∧ HashMap.get key' (pushed key value bucket m)
       = Some (if equals key' key then some value else r).
Proof.
  intros Hp Hg Hs.
  destruct (decide (HashMap.slot key' m = HashMap.slot key m)) as [Hslot|Hslot].
  - destruct (get_putBucket_same key m bucket (bucket ++ [(key, value)])
                (HashMap._count m + 1) Hg key' Hslot) as [Hget' Hget].
    eexists. split; [done|]. unfold pushed. rewrite Hget'.
    by rewrite (get_scan_set_pushed _ _ _ _ Hs).
  - destruct (getBucket_Some key' m Hp) as (b' & Hg' & _).
    exists (HashMap.get_scan key' b'). split.
    { unfold HashMap.get. by rewrite Hg'. }
    unfold pushed. rewrite (get_putBucket_other key m _ _ Hp key' Hslot).
    unfold HashMap.get. rewrite Hg'. simpl.
    destruct (equals key' key) eqn:E; [|done].
    destruct Hslot. by apply slot_equal.
Qed.

End SetOp.

Section SetSpec.
Context {K T : Type} `{LawfulHasher K}.
Local Abbreviation HashMap := (HashMap.HashMap K T).
Local Abbreviation Bucket := (HashMap.Bucket K T).
Implicit Types (key k : K) (value v : T) (bucket b : Bucket) (m : HashMap).

Lemma counted_nonneg m : counted m → 0 ≤ HashMap._count m.
Proof. unfold counted. lia. Qed.

Lemma get_returns key m :
  wf m → HashMap.get key m = Some (HashMap.get_scan key (HashMap.iterator m)).
Proof. intros [Hp Hpl _ _]. by apply get_iterator. Qed.

(** A [resize] that moved a pair did not wrap. *)
Lemma resize_moved n m m' :
  HashMap.resize n m = Some m' → 0 < HashMap._count m → counted m →
  0 < HashMap.bucketCountFinal n.
Proof.
  intros Hre Hpos Hc.
  destruct (bucketCountFinal_cases n) as [(j & Hj & ->)|Hbcf].
  { apply Z.pow_pos_nonneg; lia. }
  unfold HashMap.resize in Hre. cbv zeta in Hre. rewrite Hbcf in Hre.
  change (JS.Array_from_length (- 2 ^ 31) []) with (@nil Bucket) in Hre.
  destruct (HashMap.rehash _ _ _) as [store|] eqn:Hrh; [|done].
  apply rehash_nil in Hrh as [_ Hnil]. unfold counted, HashMap.iterator in Hc.
  rewrite Hnil in Hc. simpl in Hc. lia.
Qed.

(** Every [set] that returns went one of two ways. *)
Lemma set_cases key value m m' :
  pow2_store m → HashMap.set key value m = Some m' →
  ∃ bucket,
    HashMap.getBucket key m = Some bucket
    ∧ match HashMap.set_scan key value bucket with
      | Some bucket' => m' = overwritten key bucket' m
      | None => grown (pushed key value bucket m) m'
      end.
Proof.
  intros Hp Hset. destruct (getBucket_Some key m Hp) as (bucket & Hg & _).
  exists bucket. split; [done|].
  destruct (HashMap.set_scan key value bucket) as [bucket'|] eqn:Hs.
  - rewrite (set_found _ _ _ _ _ Hg Hs) in Hset. congruence.
  - rewrite (set_absent _ _ _ _ Hg Hs) in Hset. unfold grown.
    case_decide; congruence.
Qed.

Lemma grown_wf m1 m' : wf m1 → 0 < HashMap._count m1 → grown m1 m' → wf m'.
Proof.
  intros Hwf Hpos. unfold grown. case_decide; [|by intros ->].
  intros Hre. eapply resize_wf; [done|done|].
  eapply resize_moved; [done|done|by destruct Hwf].
Qed.

Lemma grown_get m1 m' key :
  wf m1 → 0 < HashMap._count m1 → grown m1 m' →
  HashMap.get key m' = HashMap.get key m1.
Proof.
  intros Hwf Hpos. unfold grown. case_decide; [|by intros ->].
  intros Hre. eapply get_resize; [done|done|].
  eapply resize_moved; [done|done|by destruct Hwf].
Qed.

Lemma grown_content m1 m' :
  grown m1 m' →
  HashMap._count m' = HashMap._count m1
  ∧ HashMap.iterator m' ≡ₚ HashMap.iterator m1.
Proof.
  unfold grown. case_decide; [|by intros ->].
  by intros (_ & ? & ? & _)%resize_spec.
Qed.

(** When the count is over the threshold after a push, the store doubles. *)
Lemma grown_buckets m1 m' :
  pow2_store m1 → HashMap.buckets m1 ≤ 2 ^ 29 → grown m1 m' →
  HashMap.buckets m' =
  if decide (3 * HashMap.buckets m1 < 4 * HashMap._count m1)
  then 2 * HashMap.buckets m1 else HashMap.buckets m1.
Proof.
  intros (j & Hj & Hlen) Hsmall. unfold grown. case_decide; [|by intros ->].
  intros (Hb & _)%resize_spec. rewrite Hb, Hlen.
  assert (j ≤ 29) as Hj'.
  { rewrite Hlen in Hsmall. apply (Z.pow_le_mono_r_iff 2); lia. }
  replace (2 ^ j * 2) with (2 ^ (j + 1)) by (rewrite Z.pow_add_r; lia).
  rewrite bucketCountFinal_pow2 by lia.
  pose proof (Z.pow_pos_nonneg 2 (j + 1)).
  rewrite Z.pow_add_r by lia. rewrite Z.pow_add_r in * by lia. lia.
Qed.

Lemma grown_returns m1 :
  pow2_store m1 → HashMap._count m1 ≤ 2 ^ 29 → ∃ m', grown m1 m'.
Proof.
  intros (j & Hj & Hlen) Hsmall. unfold grown. case_decide; [|by eexists].
  assert (j ≤ 29) as Hj'.
  { destruct (decide (j ≤ 29)); [done|].
    assert (2 ^ 30 ≤ 2 ^ j) by (apply Z.pow_le_mono_r; lia). lia. }
  destruct (resize_returns (HashMap.buckets m1 * 2) m1 (j + 1)) as (m' & Hre & _); [lia| |by eexists].
  rewrite Hlen. replace (2 ^ j * 2) with (2 ^ (j + 1)) by (rewrite Z.pow_add_r; lia).
  apply bucketCountFinal_pow2. lia.
Qed.

(** [set] keeps the map well formed. *)
Lemma set_wf key value m m' :
  wf m → HashMap.set key value m = Some m' → wf m'.
Proof.
  intros Hwf Hset. pose proof Hwf as [Hp _ _ Hc].
  destruct (set_cases key value m m' Hp Hset) as (bucket & Hg & Hcase).
  destruct (HashMap.set_scan key value bucket) as [bucket'|] eqn:Hs.
  - subst m'. by eapply wf_overwritten.
  - eapply grown_wf; [by eapply wf_pushed| |done].
    apply counted_nonneg in Hc. simpl. lia.
Qed.

(** After [set key value], [key] and the keys equal to it read [value], and
    every other key reads what it read before. *)
Lemma get_set key key' value m m' :
  wf m → HashMap.set key value m = Some m' →
  HashMap.get key' m' =
  (λ r, if equals key' key then some value else r) <$> HashMap.get key' m.
Proof.
  intros Hwf Hset. pose proof Hwf as [Hp _ _ Hc].
  destruct (set_cases key value m m' Hp Hset) as (bucket & Hg & Hcase).
  destruct (HashMap.set_scan key value bucket) as [bucket'|] eqn:Hs.
  - subst m'. destruct (get_overwritten key key' value m bucket bucket' Hp Hg Hs)
      as (r & -> & ->). done.
  - rewrite (grown_get (pushed key value bucket m) m').
    + destruct (get_pushed key key' value m bucket Hp Hg Hs) as (r & -> & ->). done.
    + by eapply wf_pushed.
    + apply counted_nonneg in Hc. simpl. lia.
    + done.
Qed.

(** The size after [set]: unchanged for a key that was present, one more for
    a key that was absent. *)
Lemma size_set key value m m' :
  wf m → HashMap.set key value m = Some m' →
  HashMap.get key m = Some none ∧ HashMap.size m' = HashMap.size m + 1
  ∨ (∃ v, HashMap.get key m = Some (some v)) ∧ HashMap.size m' = HashMap.size m.
Proof.
  intros Hwf Hset. pose proof Hwf as [Hp _ _ Hc].
  destruct (set_cases key value m m' Hp Hset) as (bucket & Hg & Hcase).
  unfold HashMap.get. rewrite Hg. simpl.
  destruct (HashMap.set_scan key value bucket) as [bucket'|] eqn:Hs.
  - right. subst m'. split; [|done].
    destruct (HashMap.get_scan key bucket) as [v|] eqn:Hscan; [by eexists|].
    rewrite <- (set_scan_None key value), Hs in Hscan. done.
  - left. apply set_scan_None in Hs. rewrite Hs. split; [done|].
    apply grown_content in Hcase as [Hcount _]. unfold HashMap.size. by rewrite Hcount.
Qed.

(** [set] returns as long as doubling the store stays within [1 << 30]. *)
Lemma set_returns key value m :
  pow2_store m → HashMap._count m < 2 ^ 29 → is_Some (HashMap.set key value m).
Proof.
  intros Hp Hsmall. destruct (getBucket_Some key m Hp) as (bucket & Hg & _).
  destruct (HashMap.set_scan key value bucket) as [bucket'|] eqn:Hs.
  - rewrite (set_found _ _ _ _ _ Hg Hs). by eexists.
  - rewrite (set_absent _ _ _ _ Hg Hs).
    destruct (grown_returns (pushed key value bucket m)) as [m' Hm'].
    + by apply pow2_putBucket.
    + simpl. lia.
    + unfold grown in Hm'. case_decide; [by eexists|by eexists].
Qed.

End SetSpec.

(** ** [remove], [clear], [map], [retain] and the capacity methods *)

Section OtherOps.
Context {K T : Type} `{LawfulHasher K}.
Local Abbreviation HashMap := (HashMap.HashMap K T).
Local Abbreviation Bucket := (HashMap.Bucket K T).
Implicit Types (key k : K) (value v : T) (bucket b : Bucket) (m : HashMap).

(** Every [remove] that returns went one of two ways. *)
Lemma remove_cases key m r m' :
  HashMap.remove key m = Some (r, m') →
  ∃ bucket,
    HashMap.getBucket key m = Some bucket
    ∧ match HashMap.remove_scan key bucket with
      | Some (v, bucket') =>
          r = some v
          ∧ m' = {| HashMap._buckets := HashMap.putBucket key bucket' m;
                    HashMap._count := HashMap._count m - 1 |}
      | None => r = none ∧ m' = m
      end.
Proof.
  unfold HashMap.remove. destruct (HashMap.getBucket key m) as [bucket|]; [|done]. simpl.
  intros Hrm. exists bucket. split; [done|].
  destruct (HashMap.remove_scan key bucket) as [[v bucket']|]; by simplify_eq.
Qed.

Lemma remove_returns key m : pow2_store m → is_Some (HashMap.remove key m).
Proof.
  intros Hp. destruct (getBucket_Some key m Hp) as (bucket & Hg & _).
  unfold HashMap.remove. rewrite Hg. simpl.
  destruct (HashMap.remove_scan key bucket) as [[v bucket']|]; by eexists.
Qed.

Lemma remove_wf key m r m' :
  wf m → HashMap.remove key m = Some (r, m') → wf m'.
Proof.
  intros Hwf (bucket & Hg & Hcase)%remove_cases.
  destruct (HashMap.remove_scan key bucket) as [[v bucket']|] eqn:Hs;
    destruct Hcase as [-> ->]; [|done].
  destruct Hwf as [Hp Hpl Hu Hc].
  apply remove_scan_Some in Hs as (l1 & k & l2 & -> & -> & Hno & Hk).
  destruct (iterator_putBucket key m (l1 ++ (k, v) :: l2) (l1 ++ l2)
              (HashMap._count m - 1) Hg) as (before & after & Hit & Hit').
  split.
  - by apply pow2_putBucket.
  - apply (placed_putBucket key m (l1 ++ (k, v) :: l2)); [done|done|].
    intros k' Hk'. left. rewrite fmap_app in *. simpl.
    apply elem_of_app in Hk' as [?|?]; apply elem_of_app; [by left|right; by right].
  - revert Hu. unfold HashMap.keys. rewrite Hit, Hit'.
    apply unique_keys_sublist. apply fmap_sublist.
    apply sublist_app; [done|]. apply sublist_app; [|done].
    apply sublist_app; [done|]. by apply sublist_cons.
  - unfold counted in *. rewrite Hit' in *. rewrite Hit in Hc. simpl.
    rewrite !length_app in *. simpl in Hc. lia.
Qed.

Lemma clear_wf m : pow2_store m → wf (HashMap.clear m).
Proof. intros Hp. by apply wf_empty_store. Qed.

Lemma clear_degenerate m : degenerate m → degenerate (HashMap.clear m).
Proof. intros [Hb _]. unfold HashMap.clear, HashMap.buckets. by rewrite Hb. Qed.

Lemma concat_fmap_fmap {A B} (f : A → B) (ls : list (list A)) :
  concat ((λ l : list A, f <$> l) <$> ls) = f <$> concat ls.
Proof.
  induction ls as [|l ls IH]; [done|].
  rewrite fmap_cons. simpl. rewrite fmap_app. f_equal. apply IH.
Qed.

Lemma map_wf fn m : wf m → wf (HashMap.map fn m).
Proof.
  intros [Hp Hpl Hu Hc].
  assert (HashMap.iterator (HashMap.map fn m)
          = (λ kv : K * T, (kv.1, fn kv.2 kv.1)) <$> HashMap.iterator m) as Hit.
  { unfold HashMap.map, HashMap.iterator. simpl. apply concat_fmap_fmap. }
  assert (HashMap.keys (HashMap.map fn m) = HashMap.keys m) as Hkeys.
  { unfold HashMap.keys. rewrite Hit, <- list_fmap_compose. done. }
  split.
  - unfold pow2_store, HashMap.buckets, HashMap.map. simpl. by rewrite length_fmap.
  - unfold placed, HashMap.buckets, HashMap.map. simpl. rewrite length_fmap.
    intros i b kv Hi Hkv. rewrite list_lookup_fmap in Hi.
    destruct (HashMap._buckets m !! i) as [b0|] eqn:Hb0; [|done]. simplify_eq/=.
    apply list_elem_of_fmap in Hkv as (kv0 & -> & Hkv0). simpl.
    by apply (Hpl i b0 kv0).
  - by rewrite Hkeys.
  - unfold counted in *. rewrite Hit, length_fmap. done.
Qed.

Lemma map_degenerate fn m : degenerate m → degenerate (HashMap.map fn m).
Proof. intros [Hb Hc]. unfold degenerate, HashMap.map. simpl. by rewrite Hb. Qed.

Lemma retain_bucket_spec fn bucket :
  (HashMap.retain_bucket fn bucket).1 `sublist_of` bucket
  ∧ Z.of_nat (length (HashMap.retain_bucket fn bucket).1)
    + (HashMap.retain_bucket fn bucket).2 = Z.of_nat (length bucket).
Proof.
  unfold HashMap.retain_bucket. induction bucket as [|kv bucket [IHs IHl]]; simpl; [done|].
  destruct (fn kv.2 kv.1); simpl.
  - split; [by apply sublist_skip | lia].
  - split; [by apply sublist_cons | lia].
Qed.

Lemma retain_spec fn (store : list Bucket) count :
  concat ((λ bucket, (HashMap.retain_bucket fn bucket).1) <$> store) `sublist_of` concat store
  ∧ foldl (λ c bucket, c - (HashMap.retain_bucket fn bucket).2) count store
    = count - Z.of_nat (length (concat store))
      + Z.of_nat (length (concat ((λ bucket, (HashMap.retain_bucket fn bucket).1) <$> store))).
Proof.
  revert count. induction store as [|b store IH]; intros count.
  - simpl. split; [done | lia].
  - rewrite fmap_cons. cbn [concat foldl].
    destruct (retain_bucket_spec fn b) as [Hs Hl].
    destruct (IH (count - (HashMap.retain_bucket fn b).2)) as [IHs IHl]. split.
    + by apply sublist_app.
    + rewrite IHl, !length_app. lia.
Qed.

Lemma retain_wf fn m : wf m → wf (HashMap.retain fn m).
Proof.
  intros [Hp Hpl Hu Hc].
  destruct (retain_spec fn (HashMap._buckets m) (HashMap._count m)) as [Hsub Hcount].
  split.
  - unfold pow2_store, HashMap.buckets, HashMap.retain. simpl. by rewrite length_fmap.
  - unfold placed, HashMap.buckets, HashMap.retain. simpl. rewrite length_fmap.
    intros i b kv Hi Hkv. rewrite list_lookup_fmap in Hi.
    destruct (HashMap._buckets m !! i) as [b0|] eqn:Hb0; [|done]. simplify_eq/=.
    apply (Hpl i b0 kv Hb0).
    eapply elem_of_sublist; [done|]. apply retain_bucket_spec.
  - revert Hu. apply unique_keys_sublist. by apply fmap_sublist.
  - unfold counted in *. unfold HashMap.retain, HashMap.iterator in *. simpl.
    rewrite Hcount. lia.
Qed.

Lemma retain_degenerate fn m : degenerate m → degenerate (HashMap.retain fn m).
Proof. intros [Hb Hc]. unfold degenerate, HashMap.retain. simpl. by rewrite Hb. Qed.

Lemma reserve_inv n m m' :
  wf m ∨ degenerate m → HashMap.reserve n m = Some m' → wf m' ∨ degenerate m'.
Proof.
  unfold HashMap.reserve. cbv zeta. case_decide; [|by intros ? [= <-]].
  apply resize_inv.
Qed.

Lemma shrinkToFit_inv m m' :
  wf m ∨ degenerate m → HashMap.shrinkToFit m = Some m' → wf m' ∨ degenerate m'.
Proof.
  unfold HashMap.shrinkToFit. cbv zeta. case_decide; [|by intros ? [= <-]].
  apply resize_inv.
Qed.

Lemma shrinkTo_inv n m m' :
  wf m ∨ degenerate m → HashMap.shrinkTo n m = Some m' → wf m' ∨ degenerate m'.
Proof.
  unfold HashMap.shrinkTo. cbv zeta. case_decide; [apply resize_inv|].
  case_decide; [apply shrinkToFit_inv | by intros ? [= <-]].
Qed.

Lemma degenerate_getBucket key m : degenerate m → HashMap.getBucket key m = None.
Proof.
  intros [Hb _]. unfold HashMap.getBucket, JS.index. rewrite Hb.
  case_decide; [apply lookup_nil | done].
Qed.

Lemma set_inv key value m m' :
  wf m ∨ degenerate m → HashMap.set key value m = Some m' → wf m' ∨ degenerate m'.
Proof.
  intros [Hwf|Hd] Hset; [left; by eapply set_wf|].
  unfold HashMap.set in Hset. by rewrite degenerate_getBucket in Hset.
Qed.

Lemma remove_inv key m r m' :
  wf m ∨ degenerate m → HashMap.remove key m = Some (r, m') → wf m' ∨ degenerate m'.
Proof.
  intros [Hwf|Hd] Hrm; [left; by eapply remove_wf|].
  unfold HashMap.remove in Hrm. by rewrite degenerate_getBucket in Hrm.
Qed.

Lemma set_all_inv pairs m m' :
  wf m ∨ degenerate m → HashMap.set_all pairs m = Some m' → wf m' ∨ degenerate m'.
Proof.
  revert m. induction pairs as [|[k v] pairs IH]; intros m Hinv; simpl.
  - by intros [= <-].
  - destruct (HashMap.set k v m) as [m1|] eqn:Hset; [|done]. simpl.
    apply IH. by eapply set_inv.
Qed.

End OtherOps.

(** ** Reachable maps are in order *)

Section ReachableInv.
Context {K T : Type} `{LawfulHasher K}.
Local Abbreviation HashMap := (HashMap.HashMap K T).
Implicit Types (key k : K) (value v : T) (m : HashMap).

Lemma clear_inv m : wf m ∨ degenerate m → wf (HashMap.clear m) ∨ degenerate (HashMap.clear m).
Proof.
  intros [[Hp _ _ _]|Hd]; [left; by apply clear_wf | right; by apply clear_degenerate].
Qed.

Lemma next_inv g m r g' m' :
  wf m ∨ degenerate m → HashMap.next g m = (r, g', m') → wf m' ∨ degenerate m'.
Proof.
  intros Hinv. destruct g as [|bucket rest|]; simpl.
  - destruct (HashMap.drain_loop _). intros [= _ _ <-]. by apply clear_inv.
  - destruct bucket; [destruct (HashMap.drain_loop _)|]; by intros [= _ _ <-].
  - by intros [= _ _ <-].
Qed.

Lemma entry_set_inv value (e : Entry.Entry K) m m' :
  wf m ∨ degenerate m → Entry.set value e m = Some m' → wf m' ∨ degenerate m'.
Proof. apply set_inv. Qed.

Lemma entry_remove_inv (e : Entry.Entry K) m r m' :
  wf m ∨ degenerate m → Entry.remove e m = Some (r, m') → wf m' ∨ degenerate m'.
Proof.
  intros Hinv. unfold Entry.remove.
  destruct (Entry.get e m) as [[v|]|]; simpl; [|by intros [= _ <-]|done].
  destruct (HashMap.remove _ m) as [[r' m1]|] eqn:Hrm; simpl; [|done].
  intros [= _ <-]. by eapply remove_inv.
Qed.

Lemma reachable_inv m : reachable m → wf m ∨ degenerate m.
Proof.
  induction 1 as [ |capacity m Hm|fromArray m Hm|key value m m' _ IH Hm
    |key m r m' _ IH Hm|n m m' _ IH Hm|m m' _ IH Hm|n m m' _ IH Hm
    |m _ IH|fn m _ IH|fn m _ IH|g m r g' m' _ IH Hm
    |fn e m e' m' _ IH Hm|value e m e' m' _ IH Hm|value e m e' m' _ IH Hm
    |fn e m e' calls m' _ IH Hm|value e m r m' _ IH Hm|e m r m' _ IH Hm|e m r m' _ IH Hm].
  - left. apply wf_new.
  - eapply resize_inv; [|exact Hm]. left. apply wf_new.
  - unfold HashMap.from in Hm.
    destruct (HashMap.withCapacity _) as [m0|] eqn:Hm0; [|done]. simpl in Hm.
    eapply set_all_inv; [|exact Hm]. eapply resize_inv; [|exact Hm0]. left. apply wf_new.
  - by eapply set_inv.
  - by eapply remove_inv.
  - by eapply reserve_inv.
  - by eapply shrinkToFit_inv.
  - by eapply shrinkTo_inv.
  - by apply clear_inv.
  - destruct IH; [left; by apply map_wf | right; by apply map_degenerate].
  - destruct IH; [left; by apply retain_wf | right; by apply retain_degenerate].
  - by eapply next_inv.
  - unfold Entry.andModify in Hm. destruct (Entry.get e m) as [[v|]|]; simpl in Hm; [| |done].
    + destruct (Entry.set _ e m) as [m1|] eqn:Hs; [|done]. simplify_eq/=. by eapply set_inv.
    + by simplify_eq.
  - unfold Entry.insertEntry in Hm.
    destruct (Entry.set _ e m) as [m1|] eqn:Hs; [|done]. simplify_eq/=. by eapply set_inv.
  - unfold Entry.orInsert in Hm. destruct (Entry.get e m) as [[v|]|]; simpl in Hm; [| |done].
    + by simplify_eq.
    + destruct (Entry.set _ e m) as [m1|] eqn:Hs; [|done]. simplify_eq/=. by eapply set_inv.
  - unfold Entry.orInsertWith in Hm. destruct (Entry.get e m) as [[v|]|]; simpl in Hm; [| |done].
    + by simplify_eq.
    + destruct (Entry.set _ e m) as [m1|] eqn:Hs; [|done]. simplify_eq/=. by eapply set_inv.
  - unfold Entry.insert in Hm. destruct (Entry.get e m) as [o|]; simpl in Hm; [|done].
    destruct (Entry.set _ e m) as [m1|] eqn:Hs; [|done]. simplify_eq/=. by eapply set_inv.
  - by eapply entry_remove_inv.
  - unfold Entry.removeEntry in Hm. destruct (Entry.get e m) as [[v|]|]; simpl in Hm; [| |done].
    + destruct (HashMap.remove _ m) as [[r' m1]|] eqn:Hrm; [|done]. simplify_eq/=.
      by eapply remove_inv.
    + by simplify_eq.
Qed.

Lemma reachable_set_all pairs m m' :
  reachable m → HashMap.set_all pairs m = Some m' → reachable m'.
Proof.
  revert m. induction pairs as [|[k v] pairs IH]; intros m Hm; simpl.
  - by intros [= <-].
  - destruct (HashMap.set k v m) as [m1|] eqn:Hset; [|done]. simpl.
    apply IH. by eapply reachable_set.
Qed.

End ReachableInv.

(** ** The default hasher is lawful *)

Global Instance defaultHasher_lawful : @LawfulHasher Primitive defaultHasher.
Proof.
  split; simpl; unfold Object_is.
  - intros a. by apply bool_decide_eq_true.
  - intros a b ->%bool_decide_eq_true. by apply bool_decide_eq_true.
  - intros a b c ->%bool_decide_eq_true. done.
  - intros a b ->%bool_decide_eq_true. done.
Qed.

(** ** Insertion and lookup *)

Section LastWriteWins.
Context {K T : Type} `{LawfulHasher K}.
Local Abbreviation HashMap := (HashMap.HashMap K T).
Implicit Types (key k : K) (value v : T) (m : HashMap).

Lemma count_set key value m m' :
  wf m → HashMap.set key value m = Some m' →
  HashMap._count m ≤ HashMap._count m' ≤ HashMap._count m + 1.
Proof.
  intros Hwf Hset. destruct (size_set key value m m' Hwf Hset) as [[_ Hs]|[_ Hs]];
    unfold HashMap.size in Hs; lia.
Qed.

Lemma set_all_spec pairs m :
  wf m → HashMap._count m + Z.of_nat (length pairs) ≤ 2 ^ 29 →
  ∃ m', HashMap.set_all pairs m = Some m'
    ∧ wf m'
    ∧ ∀ key, HashMap.get key m' = last_write key pairs <$> HashMap.get key m.
Proof.
  revert m. induction pairs as [|[k v] pairs IH]; intros m Hwf Hsmall; simpl.
  - exists m. split_and!; [done|done|]. intros key. by destruct (HashMap.get key m).
  - simpl in Hsmall.
    destruct (set_returns k v m) as [m1 Hset]; [by destruct Hwf|lia|].
    rewrite Hset. simpl.
    pose proof (set_wf k v m m1 Hwf Hset) as Hwf1.
    pose proof (count_set k v m m1 Hwf Hset) as Hcount.
    destruct (IH m1 Hwf1) as (m' & Hall & Hwf' & Hget); [lia|].
    exists m'. split_and!; [done|done|]. intros key.
    rewrite Hget, (get_set k key v m m1 Hwf Hset).
    by destruct (HashMap.get key m).
Qed.

(** C1.  Last write wins.  On a well-formed map that a run of [set] calls
    keeps below [2^29] entries (so that doubling the store stays within
    [1 << 30]), the calls all return and [get] then answers, for every key,
    with the value of the last call whose key equals it, or with what it
    answered before when there was none.  A single [set] on a key that is
    present replaces the value of the stored pair where it stands and
    leaves [size] as it was; on a key that is absent it pushes the pair at
    the end of the key's bucket, adds one to [size], and runs the growth
    check. *)
Theorem set_get_last_write_wins m :
  wf m →
  (∀ pairs,
     HashMap._count m + Z.of_nat (length pairs) ≤ 2 ^ 29 →
     ∃ m', HashMap.set_all pairs m = Some m'
       ∧ ∀ key, HashMap.get key m' = last_write key pairs <$> HashMap.get key m)
  ∧ (∀ key value,
     HashMap._count m < 2 ^ 29 →
     ∃ m', HashMap.set key value m = Some m'
       ∧ HashMap.get key m' = Some (some value)
       ∧ match HashMap.get key m with
         | Some (some _) =>
             HashMap.size m' = HashMap.size m
             ∧ ∃ l1 k v0 l2,
                 HashMap.getBucket key m = Some (l1 ++ (k, v0) :: l2)
                 ∧ no_key key l1.*1 ∧ equals key k = true
                 ∧ m' = overwritten key (l1 ++ (k, value) :: l2) m
         | Some none =>
             HashMap.size m' = HashMap.size m + 1
             ∧ ∃ bucket,
                 HashMap.getBucket key m = Some bucket
                 ∧ grown (pushed key value bucket m) m'
         | None => False
         end).
Proof.
  intros Hwf. split.
  - intros pairs Hsmall.
    destruct (set_all_spec pairs m Hwf Hsmall) as (m' & Hall & _ & Hget). by exists m'.
  - intros key value Hsmall. pose proof Hwf as [Hp _ _ _].
    destruct (set_returns key value m Hp Hsmall) as [m' Hset]. exists m'.
    split; [done|]. split.
    { rewrite (get_set key key value m m' Hwf Hset), (get_returns key m Hwf). simpl.
      by rewrite equals_refl. }
    destruct (set_cases key value m m' Hp Hset) as (bucket & Hg & Hcase).
    destruct (size_set key value m m' Hwf Hset) as [[Hget Hsize]|[[v Hget] Hsize]];
      rewrite Hget; (split; [done|]).
    + exists bucket. split; [done|].
      unfold HashMap.get in Hget. rewrite Hg in Hget. simplify_eq/=.
      by rewrite (proj2 (set_scan_None key value bucket)) in Hcase.
    + unfold HashMap.get in Hget. rewrite Hg in Hget. simplify_eq/=.
      destruct (HashMap.set_scan key value bucket) as [bucket'|] eqn:Hs.
      * apply set_scan_Some in Hs as (l1 & k & v0 & l2 & -> & -> & Hno & Hk).
        by exists l1, k, v0, l2.
      * apply set_scan_None in Hs. congruence.
Qed.

End LastWriteWins.

Lemma set_get_last_write_wins_witness :
  ∃ m', HashMap.set_all
          [(PString "a", 1); (PString "b", 2); (PString "a", 3)] HashMap.new = Some m'
    ∧ ∀ key, HashMap.get key m'
             = last_write key
                 [(PString "a", 1); (PString "b", 2); (PString "a", 3)]
               <$> HashMap.get key HashMap.new.
Proof.
  apply (proj1 (set_get_last_write_wins HashMap.new wf_new)).
  simpl. lia.
Defined.

(** ** Sample maps are reachable *)


Lemma three_entries_reachable : reachable three_entries.
Proof.
  apply (reachable_set_all
           [(PString "one", 1); (PString "two", 2); (PString "three", 3)]
           HashMap.new three_entries reachable_new).
  vm_compute. reflexivity.
Qed.

Lemma one_entry_reachable : reachable one_entry.
Proof.
  apply (reachable_set (PString "a") 1 HashMap.new one_entry reachable_new).
  vm_compute. reflexivity.
Qed.

Lemma reachable_wf {K T} `{LawfulHasher K} (m : HashMap.HashMap K T) :
  reachable m → 0 < HashMap.buckets m → wf m.
Proof.
  intros [Hwf|[Hb _]]%reachable_inv Hpos; [done|].
  unfold HashMap.buckets in Hpos. rewrite Hb in Hpos. simpl in Hpos. lia.
Qed.

Lemma three_entries_wf : wf three_entries.
Proof. apply reachable_wf; [apply three_entries_reachable | reflexivity]. Qed.

Lemma one_entry_wf : wf one_entry.
Proof. apply reachable_wf; [apply one_entry_reachable | reflexivity]. Qed.

(** ** Growth and the load threshold *)

Section Growth.
Context {K T : Type} `{LawfulHasher K}.
Local Abbreviation HashMap := (HashMap.HashMap K T).
Implicit Types (key k : K) (value v : T) (m : HashMap).

Lemma capacity_size m : within_load m ↔ HashMap.size m ≤ HashMap.capacity m.
Proof.
  unfold within_load, HashMap.size, HashMap.capacity. split; intros Hle.
  - apply Z.div_le_lower_bound; lia.
  - pose proof (Z.mul_div_le (3 * HashMap.buckets m) 4 ltac:(lia)). lia.
Qed.

(** As long as doubling stays within [1 << 30], an insert over the
    threshold doubles the store before [set] returns, and a map within its
    load threshold stays within it. *)
Lemma set_within_load key value m m' :
  wf m → HashMap.buckets m ≤ 2 ^ 29 → HashMap.set key value m = Some m' →
  (HashMap.get key m = Some none →
   HashMap.buckets m' =
   if decide (3 * HashMap.buckets m < 4 * (HashMap.size m + 1))
   then 2 * HashMap.buckets m else HashMap.buckets m)
  ∧ (within_load m → HashMap.size m' ≤ HashMap.capacity m').
Proof.
  intros Hwf Hsmall Hset. pose proof Hwf as [Hp _ _ Hc].
  destruct (set_cases key value m m' Hp Hset) as (bucket & Hg & Hcase).
  unfold HashMap.get. rewrite Hg. simpl.
  destruct (HashMap.set_scan key value bucket) as [bucket'|] eqn:Hs.
  - subst m'. split.
    + intros [= Hscan]. rewrite <- (set_scan_None key value), Hs in Hscan. done.
    + intros Hload. apply capacity_size. unfold within_load, overwritten in *.
      by rewrite buckets_putBucket.
  - assert (HashMap.buckets (pushed key value bucket m) = HashMap.buckets m) as Hb1
      by apply buckets_putBucket.
    assert (HashMap._count (pushed key value bucket m) = HashMap._count m + 1) as Hc1
      by reflexivity.
    assert (HashMap.buckets (pushed key value bucket m) ≤ 2 ^ 29) as Hsmall1 by lia.
    pose proof (grown_buckets (pushed key value bucket m) m'
                  (pow2_putBucket key m _ _ Hp) Hsmall1 Hcase) as Hgrown.
    apply grown_content in Hcase as [Hcount _].
    unfold HashMap.size. split.
    + intros _. repeat case_decide; lia.
    + intros Hload. apply capacity_size. unfold within_load in *.
      destruct Hp as (j & Hj & Hpj).
      assert (j = 0 ∨ 2 ^ 1 ≤ 2 ^ j) as Hj1.
      { destruct (decide (j = 0)); [by left|right]. apply Z.pow_le_mono_r; lia. }
      case_decide; destruct Hj1 as [->|Hj1]; lia.
Qed.

End Growth.

(** C2.  The load threshold is not kept by every reachable map: the call
    [reserve(2 ** 31)] asks [resize] for 2863311532 buckets, the rounding
    [1 << (32 - Math.clz32(...))] wraps to [1 << 32 = 1], and the map is
    left with one bucket.  The next insert of a new key doubles that to two
    buckets, and [capacity()] is 1 while [size()] is 2. *)
Theorem capacity_below_size_after_reserve_wrap :
  ∃ m2 m3,
    reachable m3
    ∧ HashMap.reserve (2 ^ 31) one_entry = Some m2
    ∧ HashMap.buckets m2 = 1
    ∧ HashMap.set (PString "b") 2 m2 = Some m3
    ∧ HashMap.buckets m3 = 2
    ∧ HashMap.capacity m3 = 1
    ∧ HashMap.size m3 = 2.
Proof.
  exists {| HashMap._buckets := [[(PString "a", 1)]]; HashMap._count := 1 |},
         {| HashMap._buckets := [[(PString "a", 1)]; [(PString "b", 2)]];
            HashMap._count := 2 |}.
  assert (HashMap.reserve (2 ^ 31) one_entry
          = Some {| HashMap._buckets := [[(PString "a", 1)]]; HashMap._count := 1 |})
    as Hreserve by (vm_compute; reflexivity).
  assert (HashMap.set (PString "b") 2
            {| HashMap._buckets := [[(PString "a", 1)]]; HashMap._count := 1 |}
          = Some {| HashMap._buckets := [[(PString "a", 1)]; [(PString "b", 2)]];
                    HashMap._count := 2 |})
    as Hset by (vm_compute; reflexivity).
  split_and!; [|done|reflexivity|done|reflexivity|reflexivity|reflexivity].
  eapply reachable_set; [|exact Hset].
  eapply reachable_reserve; [|exact Hreserve].
  apply one_entry_reachable.
Qed.

(** The scenarios of the specification: [reserve(50)] on a new map gives a
    capacity of at least 50, and after the inserts of the keys 0 to 99
    every key reads its value, across the resizes on the way. *)
Example reserve_fifty :
  ∃ m : HashMap.HashMap Primitive Z,
    HashMap.reserve 50 HashMap.new = Some m
    ∧ HashMap.buckets m = 128
    ∧ 50 ≤ HashMap.capacity m.
Proof.
  evaluate_to (HashMap.reserve (K := Primitive) (T := Z) 50 HashMap.new).
  split_and!; vm_compute; (reflexivity || discriminate).
Qed.

Example hundred_inserts :
  ∃ m : HashMap.HashMap Primitive Z,
    HashMap.set_all (distinct_keys 100) HashMap.new = Some m
    ∧ HashMap.size m = 100
    ∧ HashMap.buckets m = 256
    ∧ forallb (λ kv : Primitive * Z,
                 match HashMap.get kv.1 m with
                 | Some (some v) => v =? kv.2
                 | _ => false
                 end) (distinct_keys 100) = true.
Proof.
  evaluate_to (HashMap.set_all (distinct_keys 100) HashMap.new).
  split_and!; vm_compute; reflexivity.
Qed.

(** ** [resize] keeps the content *)

(** C3.  For every map and every target bucket count up to [2^30] (the
    counts that [1 << _] can round), [resize] returns, and the pairs met by
    a full iteration afterwards are those met before, up to order; the size
    is unchanged. *)
Theorem resize_preserves_content {K T} `{Hasher K} (m : HashMap.HashMap K T) (n : Z) :
  n ≤ 2 ^ 30 →
  ∃ m', HashMap.resize n m = Some m'
    ∧ HashMap.iterator m' ≡ₚ HashMap.iterator m
    ∧ HashMap.size m' = HashMap.size m.
Proof.
  intros Hn. destruct (bucketCountFinal_ge n Hn) as (j & Hj & Hbcf & _).
  destruct (resize_returns n m j Hj Hbcf) as (m' & Hre & _).
  exists m'. split; [done|].
  by apply resize_spec in Hre as (_ & ? & ? & _).
Qed.

Lemma resize_preserves_content_witness :
  ∃ m', HashMap.resize 16 three_entries = Some m'
    ∧ HashMap.iterator m' ≡ₚ HashMap.iterator three_entries
    ∧ HashMap.size m' = HashMap.size three_entries.
Proof. apply (resize_preserves_content three_entries 16). vm_compute. discriminate. Defined.

(** ** [withCapacity] *)

(** C4.  [withCapacity(8)] multiplies the requested capacity by the load
    threshold where [reserve] divides by it: it asks for [ceil(8 * 0.75) = 6]
    buckets and gets 8, whose [capacity()] is 6.  The seventh of eight
    inserts of distinct keys then resizes to 16 buckets.  [reserve(8)] on a
    new map gives 16 buckets at once. *)
Theorem withCapacity_below_request :
  ∃ m m7 m' : HashMap.HashMap Primitive Z,
    HashMap.withCapacity 8 = Some m
    ∧ HashMap.size m = 0
    ∧ HashMap.buckets m = 8
    ∧ HashMap.capacity m = 6
    ∧ HashMap.set_all (distinct_keys 7) m = Some m7
    ∧ HashMap.buckets m7 = 16
    ∧ HashMap.reserve 8 HashMap.new = Some m'
    ∧ HashMap.capacity m' = 12.
Proof.
  evaluate_to (HashMap.withCapacity (K := Primitive) (T := Z) 8).
  evaluate_to (m ← HashMap.withCapacity 8; HashMap.set_all (distinct_keys 7) m).
  evaluate_to (HashMap.reserve (K := Primitive) (T := Z) 8 HashMap.new).
  split_and!; vm_compute; reflexivity.
Qed.

(** ** [drain] *)

Section Drain.
Context {K T : Type} `{Hasher K}.
Local Abbreviation HashMap := (HashMap.HashMap K T).
Local Abbreviation Bucket := (HashMap.Bucket K T).
Implicit Types (m : HashMap) (bucket : Bucket) (rest : list Bucket).

(** One run of the loop up to its next [yield]: it yields the first pair
    still to come and keeps the others, or ends when there is none. *)
Lemma drain_loop_spec (oldBuckets : list Bucket) :
  match concat oldBuckets with
  | [] => HashMap.drain_loop oldBuckets = (HashMap.Done, HashMap.Completed)
  | kv :: pairs =>
      ∃ bucket rest,
        HashMap.drain_loop oldBuckets = (HashMap.Yield kv, HashMap.SuspendedYield bucket rest)
        ∧ pairs = bucket ++ concat rest
  end.
Proof.
  induction oldBuckets as [|[|kv bucket] rest IH]; simpl; [done|done|].
  by exists bucket, rest.
Qed.

Lemma Array_from_suspended fuel bucket rest m :
  (length (bucket ++ concat rest) < fuel)%nat →
  HashMap.Array_from fuel (HashMap.SuspendedYield bucket rest) m
  = Some (bucket ++ concat rest, HashMap.Completed, m).
Proof.
  revert bucket rest. induction fuel as [|fuel IH]; intros bucket rest Hfuel; [lia|].
  cbn [HashMap.Array_from HashMap.next].
  pose proof (drain_loop_spec (bucket :: rest)) as Hloop. simpl concat in Hloop.
  destruct (bucket ++ concat rest) as [|kv pairs] eqn:Hpairs.
  - by rewrite Hloop.
  - destruct Hloop as (bucket' & rest' & -> & ->).
    rewrite IH by (simpl in Hfuel; lia). done.
Qed.

Lemma Array_from_drain fuel m :
  (length (HashMap.iterator m) < fuel)%nat →
  HashMap.Array_from fuel HashMap.SuspendedStart m
  = Some (HashMap.iterator m, HashMap.Completed, HashMap.clear m).
Proof.
  destruct fuel as [|fuel]; intros Hfuel; [lia|].
  cbn [HashMap.Array_from HashMap.next].
  pose proof (drain_loop_spec (HashMap._buckets m)) as Hloop.
  unfold HashMap.iterator in *.
  destruct (concat (HashMap._buckets m)) as [|kv pairs] eqn:Hpairs.
  - by rewrite Hloop.
  - destruct Hloop as (bucket' & rest' & -> & ->).
    rewrite Array_from_suspended by (simpl in Hfuel; lia). done.
Qed.

(** What [drain] does when its generator is run to exhaustion with no
    other call in between.  The call hands back a generator that has not
    started and leaves the map as it is; the first [next()] clears the map.
    On a map whose count is the number of stored pairs the generator yields
    the stored pairs, each once, in iteration order, [size()] of them; the
    map is then empty with [size() = 0], and its bucket count is
    unchanged. *)
Theorem drain_yields_all_then_empty m :
  counted m →
  HashMap.drain m = (HashMap.SuspendedStart, m)
  ∧ (∀ r g' m', HashMap.next HashMap.SuspendedStart m = (r, g', m') → m' = HashMap.clear m)
  ∧ (∀ fuel, (length (HashMap.iterator m) < fuel)%nat →
       HashMap.Array_from fuel (HashMap.drain m).1 (HashMap.drain m).2
       = Some (HashMap.iterator m, HashMap.Completed, HashMap.clear m))
  ∧ Z.of_nat (length (HashMap.iterator m)) = HashMap.size m
  ∧ HashMap.size (HashMap.clear m) = 0
  ∧ HashMap.iterator (HashMap.clear m) = []
  ∧ HashMap.buckets (HashMap.clear m) = HashMap.buckets m.
Proof.
  intros Hc. split_and!.
  - done.
  - intros r g' m'. simpl. destruct (HashMap.drain_loop _). by intros [= _ _ <-].
  - intros fuel Hfuel. by apply Array_from_drain.
  - symmetry. exact Hc.
  - done.
  - apply concat_replicate_nil.
  - unfold HashMap.buckets at 1. simpl. rewrite length_Array_from_length.
    unfold HashMap.buckets. lia.
Qed.

End Drain.

Lemma drain_yields_all_then_empty_witness :
  HashMap.Array_from 4 (HashMap.drain three_entries).1 (HashMap.drain three_entries).2
  = Some ([(PString "one", 1); (PString "three", 3); (PString "two", 2)],
          HashMap.Completed, HashMap.clear three_entries).
Proof.
  apply (drain_yields_all_then_empty three_entries).
  - reflexivity.
  - simpl. lia.
Defined.

(** C5.  The claim has [drain()] clear the map at the call and yield the
    pairs that were stored at that moment.  The code does not: [drain] is
    declared a generator, so the call runs nothing of its body, neither the
    copy of the bucket array nor [this.clear()].  After [const g =
    m.drain()] on the map of three entries, [m.size()] is still 3 and [m]
    still iterates its three pairs; and a pair set after the call and
    before the first [next()] is drained with the others, four pairs for a
    map that held three at the call. *)
Lemma drain_call_does_not_clear :
  HashMap.size (HashMap.drain three_entries).2 ≠ 0
  ∧ HashMap.iterator (HashMap.drain three_entries).2
    = [(PString "one", 1); (PString "three", 3); (PString "two", 2)]
  ∧ ∃ m',
      HashMap.set (PString "late") 4 (HashMap.drain three_entries).2 = Some m'
      ∧ HashMap.Array_from 5 (HashMap.drain three_entries).1 m'
        = Some ([(PString "one", 1); (PString "three", 3); (PString "two", 2);
                 (PString "late", 4)],
                HashMap.Completed, HashMap.clear m').
Proof.
  split_and!; [discriminate|reflexivity|].
  eexists. split; vm_compute; reflexivity.
Qed.

(** ** Shrinking *)

Section Shrink.
Context {K T : Type} `{Hasher K}.
Local Abbreviation HashMap := (HashMap.HashMap K T).
Implicit Types (m : HashMap).

(** A [resize] to fewer buckets than the store has rounds the request up to
    a power of two, which is still within the store's count. *)
Lemma resize_shrink m n :
  pow2_store m → n < HashMap.buckets m →
  ∃ m', HashMap.resize n m = Some m'
    ∧ HashMap.iterator m' ≡ₚ HashMap.iterator m
    ∧ HashMap.size m' = HashMap.size m
    ∧ HashMap.buckets m' = 2 ^ Z.log2_up (Z.max n 1)
    ∧ n ≤ HashMap.buckets m' ≤ HashMap.buckets m.
Proof.
  intros (k & Hk & Hlen) Hn.
  assert (0 < 2 ^ k ≤ 2 ^ 30) as Hpk.
  { split; [apply Z.pow_pos_nonneg; lia | apply Z.pow_le_mono_r; lia]. }
  assert (n ≤ 2 ^ 30) as Hn30 by lia.
  destruct (bucketCountFinal_ge n Hn30) as (j & Hj & Hbcf & Hle).
  destruct (resize_returns n m j Hj Hbcf) as (m' & Hre & Hb').
  exists m'. split; [done|].
  apply resize_spec in Hre as (_ & Hcount & Hperm & _).
  split_and!; [done|done| |lia|].
  - by rewrite Hb', <- Hbcf, bucketCountFinal_round.
  - rewrite Hb', <- Hbcf, bucketCountFinal_round, Hlen by done.
    apply Z.pow_le_mono_r; [lia|].
    apply Z.log2_up_le_pow2; lia.
Qed.

Lemma shrinkToFit_spec m :
  pow2_store m →
  ∃ m', HashMap.shrinkToFit m = Some m'
    ∧ HashMap.iterator m' ≡ₚ HashMap.iterator m
    ∧ HashMap.size m' = HashMap.size m
    ∧ HashMap.buckets m' ≤ HashMap.buckets m
    ∧ (m' = m ∨ within_load m').
Proof.
  intros Hp. unfold HashMap.shrinkToFit. cbv zeta. case_decide as Hlt.
  - destruct (resize_shrink m _ Hp Hlt) as (m' & Hre & Hperm & Hsize & _ & Hge & Hle).
    exists m'. split_and!; [done|done|done|done|]. right.
    unfold within_load. unfold HashMap.size in Hsize. rewrite Hsize.
    pose proof (ceil_div_ge (4 * HashMap._count m) 3). lia.
  - exists m. split_and!; [done|done|done|lia|by left].
Qed.

(** Within the range of [1 << _], [reserve] leaves room for [newCount] more
    entries under the load threshold and keeps the content. *)
Lemma reserve_within_load newCount m :
  pow2_store m → within_load m →
  JS.ceil_div (4 * (newCount + HashMap._count m)) 3 ≤ 2 ^ 30 →
  ∃ m', HashMap.reserve newCount m = Some m'
    ∧ HashMap.iterator m' ≡ₚ HashMap.iterator m
    ∧ HashMap.size m' = HashMap.size m
    ∧ within_load m'
    ∧ HashMap.size m' + newCount ≤ HashMap.capacity m'.
Proof.
  intros Hp Hload Hsmall. unfold HashMap.reserve. cbv zeta.
  pose proof (ceil_div_ge (4 * (newCount + HashMap._count m)) 3 ltac:(lia)) as Hceil.
  assert (∀ m', HashMap.size m' = HashMap.size m →
    4 * (newCount + HashMap._count m) ≤ 3 * HashMap.buckets m' →
    HashMap.size m' + newCount ≤ HashMap.capacity m') as Hroom.
  { intros m' Hsize Hle. unfold HashMap.capacity, HashMap.size in *.
    apply Z.div_le_lower_bound; lia. }
  case_decide as Hgrow.
  - destruct (bucketCountFinal_ge _ Hsmall) as (j & Hj & Hbcf & Hle).
    destruct (resize_returns _ m j Hj Hbcf) as (m' & Hre & Hb').
    exists m'. pose proof Hre as (_ & Hcount & Hperm & _)%resize_spec.
    unfold within_load in *. unfold HashMap.size in *.
    split_and!; [done|done|done|lia|]. apply Hroom; [done|lia].
  - exists m. split_and!; [done|done|done|done|]. apply Hroom; [done|lia].
Qed.

(** C6, as the code has it.  [shrinkTo] computes the target
    [ceil(newCapacity / 0.75)] and the minimum [ceil(count / 0.75)].  When
    the target is at least the minimum and below the bucket count, the
    store is resized to the target rounded up to a power of two.  When the
    target is below the minimum, the call is [shrinkToFit].  In the
    remaining case, a target that is not below the bucket count, the map is
    left as it is.  The call always returns, keeps the content and the
    size, never adds buckets, and a store it has changed holds the entries
    within the load threshold. *)
Theorem shrinkTo_spec m newCapacity :
  pow2_store m →
  let targetBucketCount := JS.ceil_div (4 * newCapacity) 3 in
  let minBuckets := JS.ceil_div (4 * HashMap._count m) 3 in
  ∃ m', HashMap.shrinkTo newCapacity m = Some m'
    ∧ HashMap.iterator m' ≡ₚ HashMap.iterator m
    ∧ HashMap.size m' = HashMap.size m
    ∧ HashMap.buckets m' ≤ HashMap.buckets m
    ∧ (m' = m ∨ within_load m')
    ∧ if decide (minBuckets ≤ targetBucketCount ∧ targetBucketCount < HashMap.buckets m)
      then HashMap.buckets m' = 2 ^ Z.log2_up (Z.max targetBucketCount 1)
      else if decide (targetBucketCount < minBuckets)
      then HashMap.shrinkToFit m = Some m'
      else m' = m.
Proof.
  intros Hp targetBucketCount minBuckets. unfold HashMap.shrinkTo. cbv zeta.
  fold targetBucketCount minBuckets. case_decide as Hfit.
  - destruct Hfit as [Hmin Hlt].
    destruct (resize_shrink m _ Hp Hlt) as (m' & Hre & Hperm & Hsize & Hb & Hge & Hle).
    exists m'. split_and!; [done|done|done|done| |done]. right.
    unfold within_load. unfold HashMap.size in Hsize. rewrite Hsize.
    pose proof (ceil_div_ge (4 * HashMap._count m) 3). unfold minBuckets in *. lia.
  - case_decide as Hbelow.
    + destruct (shrinkToFit_spec m Hp) as (m' & Hfit' & Hperm & Hsize & Hle & Hload).
      by exists m'.
    + exists m. split_and!; [done|done|done|lia|by left|done].
Qed.

End Shrink.

Lemma shrinkTo_spec_witness :
  ∃ m', HashMap.shrinkTo 2 three_entries = Some m'
    ∧ HashMap.iterator m' ≡ₚ HashMap.iterator three_entries
    ∧ HashMap.size m' = HashMap.size three_entries
    ∧ HashMap.buckets m' ≤ HashMap.buckets three_entries
    ∧ (m' = three_entries ∨ within_load m')
    ∧ HashMap.shrinkToFit three_entries = Some m'.
Proof.
  apply (shrinkTo_spec three_entries 2). exists 3. split; [lia|reflexivity].
Defined.

(** With a target that is not below the bucket count, [shrinkTo] leaves the
    map as it is, where [shrinkToFit] shrinks it: a new map keeps its 8
    buckets under [shrinkTo(100)] and goes down to one under
    [shrinkToFit()]. *)
Lemma shrinkTo_large_target_is_not_shrinkToFit :
  HashMap.shrinkTo (T := Z) 100 HashMap.new = Some HashMap.new
  ∧ HashMap.shrinkTo (T := Z) 100 HashMap.new ≠ HashMap.shrinkToFit HashMap.new
  ∧ ∃ m', HashMap.shrinkToFit (T := Z) HashMap.new = Some m' ∧ HashMap.buckets m' = 1.
Proof.
  split_and!; [reflexivity|vm_compute; discriminate|].
  eexists. split; [vm_compute|]; reflexivity.
Qed.

(** ** [remove] *)

Section Remove.
Context {K T : Type} `{LawfulHasher K}.
Local Abbreviation HashMap := (HashMap.HashMap K T).
Implicit Types (key k : K) (value v : T) (m : HashMap).

Lemma get_remove key key' m r m' :
  wf m → HashMap.remove key m = Some (r, m') →
  HashMap.get key' m' = if equals key' key then Some none else HashMap.get key' m.
Proof.
  intros Hwf Hrm. pose proof (remove_wf key m r m' Hwf Hrm) as Hwf'.
  rewrite (get_returns key' m' Hwf'), (get_returns key' m Hwf).
  pose proof (get_returns key m Hwf) as Hget.
  destruct Hwf as [Hp Hpl Hu Hc].
  apply remove_cases in Hrm as (bucket & Hg & Hcase).
  unfold HashMap.get in Hget. rewrite Hg in Hget. simpl in Hget. apply (inj Some) in Hget.
  destruct (HashMap.remove_scan key bucket) as [[v bucket']|] eqn:Hs.
  - destruct Hcase as [-> ->].
    apply remove_scan_Some in Hs as (l1 & k & l2 & -> & -> & Hno & Hk).
    destruct (iterator_putBucket key m (l1 ++ (k, v) :: l2) (l1 ++ l2)
                (HashMap._count m - 1) Hg) as (before & after & Hit & Hit').
    rewrite Hit', Hit. unfold HashMap.keys in Hu. rewrite Hit in Hu.
    rewrite !fmap_app, fmap_cons in Hu. simpl in Hu.
    apply unique_keys_app in Hu as (_ & Hu & Hcross_before).
    apply unique_keys_app in Hu as (Hu & _ & Hcross_after).
    apply unique_keys_app in Hu as (_ & [Hno2 _] & Hcross_1).
    rewrite !get_scan_app. simpl.
    destruct (equals key' key) eqn:E.
    + assert (∀ k0, equals k k0 = false → equals key' k0 = false) as Hother.
      { intros k0 Hk0. rewrite (equals_true_r key key' k0 E).
        destruct (equals key k0) eqn:E0; [|done].
        apply equals_sym in Hk. by rewrite (equals_trans k key k0) in Hk0. }
      assert (∀ l : list (K * T), no_key k l.*1 → HashMap.get_scan key' l = none) as Hnone.
      { intros l Hl. apply get_scan_none. intros k0 Hk0. by apply Hother, Hl. }
      assert (k ∈ l1.*1 ++ k :: l2.*1) as Hin.
      { apply elem_of_app. right. left. }
      rewrite (Hnone before), (Hnone l1), (Hnone l2), (Hnone after); [done| |done| |].
      * by apply Hcross_after.
      * intros k0 Hk0. apply equals_false_sym. apply (Hcross_1 k0 Hk0). left.
      * intros k0 Hk0. apply equals_false_sym. apply (Hcross_before k0 Hk0).
        apply elem_of_app. by left.
    + assert (equals key' k = false) as ->; [|done].
      destruct (equals key' k) eqn:E'; [|done].
      apply equals_sym in Hk. by rewrite (equals_trans key' k key) in E.
  - destruct Hcase as [-> ->]. destruct (equals key' key) eqn:E; [|done].
    apply remove_scan_None in Hs. f_equal.
    apply get_scan_none. eapply no_key_equal; [done|].
    apply get_scan_none. congruence.
Qed.


End Remove.


(** The scenario of the specification: after [set("a", 1)], [remove("b")]
    returns [none] and leaves [get("a")] at [some(1)] and [size()] at 1. *)
Example remove_absent_scenario :
  HashMap.remove (PString "b") one_entry = Some (none, one_entry)
  ∧ HashMap.get (PString "a") one_entry = Some (some 1)
  ∧ HashMap.size one_entry = 1.
Proof. split_and!; reflexivity. Qed.

(** ** Placement of keys *)

Section Placement.
Context {K T : Type} `{LawfulHasher K}.
Local Abbreviation HashMap := (HashMap.HashMap K T).
Implicit Types (key k : K) (value v : T) (m : HashMap).

Lemma placed_getBucket m i bucket kv :
  placed m → HashMap._buckets m !! i = Some bucket → kv ∈ bucket →
  HashMap.getBucket kv.1 m = Some bucket.
Proof.
  intros Hpl Hi Hkv. unfold HashMap.getBucket, HashMap.slot.
  rewrite (Hpl i bucket kv Hi Hkv). by rewrite index_of_nat.
Qed.

(** C8, as the code has it.  In every reachable map the bucket count is a
    power of two up to [2^30] (or the store is gone after a wrapped
    [resize]); a stored pair sits in the bucket whose index is the
    remainder of the absolute value of its key's hash by the bucket count,
    and that is the bucket [getBucket] hands to [set], [get],
    [getKeyValue] and [remove] for the key; keys that are equal are stored
    in one bucket, and no two stored pairs have equal keys; a [resize]
    leaves every pair in the bucket [getBucket] selects for it. *)
Theorem reachable_placement m :
  reachable m →
  (HashMap.buckets m = 0 ∨ ∃ j, 0 ≤ j ≤ 30 ∧ HashMap.buckets m = 2 ^ j)
  ∧ (∀ i bucket kv,
       HashMap._buckets m !! i = Some bucket → kv ∈ bucket →
       Z.of_nat i = Z.abs (hash kv.1) mod HashMap.buckets m
       ∧ HashMap.getBucket kv.1 m = Some bucket)
  ∧ (∀ i i' bucket bucket' kv kv',
       HashMap._buckets m !! i = Some bucket → kv ∈ bucket →
       HashMap._buckets m !! i' = Some bucket' → kv' ∈ bucket' →
       equals kv.1 kv'.1 = true → i = i')
  ∧ unique_keys (HashMap.keys m)
  ∧ (∀ n m' i bucket kv,
       HashMap.resize n m = Some m' →
       HashMap._buckets m' !! i = Some bucket → kv ∈ bucket →
       HashMap.getBucket kv.1 m' = Some bucket).
Proof.
  intros Hreach. assert (∀ n m' i bucket kv,
       HashMap.resize n m = Some m' →
       HashMap._buckets m' !! i = Some bucket → kv ∈ bucket →
       HashMap.getBucket kv.1 m' = Some bucket) as Hresize.
  { intros n m' i bucket kv (_ & _ & _ & Hpl)%resize_spec. by apply placed_getBucket. }
  destruct (reachable_inv m Hreach) as [[Hp Hpl Hu Hc]|[Hb Hc]].
  - split_and!; [by right| | |done|done].
    + intros i bucket kv Hi Hkv. split; [|by eapply placed_getBucket].
      rewrite <- (slot_mod _ m Hp). symmetry. by apply (Hpl i bucket kv).
    + intros i i' bucket bucket' kv kv' Hi Hkv Hi' Hkv' Heq.
      apply Nat2Z.inj. rewrite <- (Hpl i bucket kv Hi Hkv), <- (Hpl i' bucket' kv' Hi' Hkv').
      by rewrite (equals_hash _ _ Heq).
  - split_and!; [left; unfold HashMap.buckets; by rewrite Hb| | | |done].
    + intros i bucket kv Hi. by rewrite Hb, lookup_nil in Hi.
    + intros i i' bucket bucket' kv kv' Hi. by rewrite Hb, lookup_nil in Hi.
    + unfold HashMap.keys, HashMap.iterator. by rewrite Hb.
Qed.

End Placement.

Lemma reachable_placement_witness :
  Z.of_nat 3 = Z.abs (hash (PString "two")) mod HashMap.buckets three_entries
  ∧ HashMap.getBucket (PString "two") three_entries = Some [(PString "two", 2)].
Proof.
  apply (proj1 (proj2 (reachable_placement three_entries three_entries_reachable))
           3%nat [(PString "two", 2)] (PString "two", 2)).
  - reflexivity.
  - apply list_elem_of_singleton. reflexivity.
Defined.

(** The hash of the string key ["foo"] is negative.  On a new map of 8
    buckets the key is stored in bucket 1, the remainder of the absolute
    value of the hash, while the remainder of the hash itself is 7 (and
    [-1] for the truncating [%]). *)
Lemma slot_is_not_hash_mod :
  ∃ m, HashMap.set (PString "foo") 1 HashMap.new = Some m
    ∧ reachable m
    ∧ hash (PString "foo") = -1547014545
    ∧ HashMap._buckets m !! 1%nat = Some [(PString "foo", 1)]
    ∧ hash (PString "foo") mod HashMap.buckets m = 7
    ∧ Z.rem (hash (PString "foo")) (HashMap.buckets m) = -1
    ∧ Z.abs (hash (PString "foo")) mod HashMap.buckets m = 1.
Proof.
  evaluate_to (HashMap.set (PString "foo") 1 HashMap.new).
  split; [vm_compute; reflexivity|]. split.
  { eapply (reachable_set (PString "foo") 1 HashMap.new); [apply reachable_new|].
    vm_compute. reflexivity. }
  split_and!; vm_compute; reflexivity.
Qed.

(** ** The entry handle *)

Section EntrySpec.
Context {K T : Type} `{LawfulHasher K}.
Local Abbreviation HashMap := (HashMap.HashMap K T).
Implicit Types (key k : K) (value v : T) (m : HashMap).

(** C9.  On a well-formed map of fewer than [2^29] entries,
    [entry(key).orInsertWith(fn)] returns the handle it was called on.
    When the key is absent, [fn] is called once, with the key, and the map
    then holds [fn]'s result at the key.  When the key is present, [fn] is
    not called and the map is the same.  Either way the key is present
    afterwards, so a second call does not call its function and changes
    nothing. *)
Theorem orInsertWith_spec key (fn : K → T) m :
  wf m → HashMap._count m < 2 ^ 29 →
  ∃ calls m',
    Entry.orInsertWith fn (entry key) m = Some (entry key, calls, m')
    ∧ match HashMap.get key m with
      | Some none => calls = [key] ∧ HashMap.get key m' = Some (some (fn key))
      | Some (some _) => calls = [] ∧ m' = m
      | None => False
      end
    ∧ ∀ fn', Entry.orInsertWith fn' (entry key) m' = Some (entry key, [], m').
Proof.
  intros Hwf Hsmall. pose proof Hwf as [Hp _ _ _].
  unfold Entry.orInsertWith, Entry.get, Entry.set. simpl.
  rewrite (get_returns key m Hwf). simpl.
  destruct (HashMap.get_scan key (HashMap.iterator m)) as [v|] eqn:Hscan.
  - exists [], m. split; [done|]. split; [done|].
    intros fn'. by rewrite (get_returns key m Hwf), Hscan.
  - destruct (set_returns key (fn key) m Hp Hsmall) as [m' Hset]. rewrite Hset. simpl.
    exists [key], m'.
    assert (HashMap.get key m' = Some (some (fn key))) as Hget.
    { rewrite (get_set key key (fn key) m m' Hwf Hset), (get_returns key m Hwf). simpl.
      by rewrite equals_refl. }
    split; [done|]. split; [done|]. intros fn'. by rewrite Hget.
Qed.

End EntrySpec.

Lemma orInsertWith_spec_witness :
  ∃ calls m',
    Entry.orInsertWith (λ _, 99) (entry (PString "x")) three_entries
    = Some (entry (PString "x"), calls, m')
    ∧ (calls = [PString "x"] ∧ HashMap.get (PString "x") m' = Some (some 99))
    ∧ ∀ fn', Entry.orInsertWith fn' (entry (PString "x")) m'
             = Some (entry (PString "x"), [], m').
Proof.
  assert (HashMap.get (PString "x") three_entries = Some none) as Hget
    by (vm_compute; reflexivity).
  destruct (orInsertWith_spec (PString "x") (λ _, 99) three_entries three_entries_wf)
    as (calls & m' & Hcall & Hcase & Hagain).
  { simpl. lia. }
  rewrite Hget in Hcase. exists calls, m'. exact (conj Hcall (conj Hcase Hagain)).
Defined.

(** ** Zeros and [NaN] under the default hasher *)

(** C10.  Under the default hasher, [0] and [-0] have the same hash but are
    not equal, in either order, and [NaN] equals itself.  On a well-formed
    map of fewer than [2^29] entries, [set(0, v)] leaves what [get(-0)]
    answers as it was, [set(-0, v)] leaves what [get(0)] answers as it was,
    and after [set(NaN, v)], [get(NaN)] answers [some(v)]. *)
Theorem default_hasher_zeros_and_NaN {T} (m : HashMap.HashMap Primitive T) (v : T) :
  wf m → HashMap._count m < 2 ^ 29 →
  hash (PNumber (Int 0)) = hash (PNumber NegZero)
  ∧ equals (PNumber (Int 0)) (PNumber NegZero) = false
  ∧ equals (PNumber NegZero) (PNumber (Int 0)) = false
  ∧ equals (PNumber NaN) (PNumber NaN) = true
  ∧ (∃ m', HashMap.set (PNumber (Int 0)) v m = Some m'
       ∧ HashMap.get (PNumber (Int 0)) m' = Some (some v)
       ∧ HashMap.get (PNumber NegZero) m' = HashMap.get (PNumber NegZero) m)
  ∧ (∃ m', HashMap.set (PNumber NegZero) v m = Some m'
       ∧ HashMap.get (PNumber NegZero) m' = Some (some v)
       ∧ HashMap.get (PNumber (Int 0)) m' = HashMap.get (PNumber (Int 0)) m)
  ∧ (∃ m', HashMap.set (PNumber NaN) v m = Some m'
       ∧ HashMap.get (PNumber NaN) m' = Some (some v)).
Proof.
  intros Hwf Hsmall. pose proof Hwf as [Hp _ _ _].
  assert (∀ key key' : Primitive, equals key' key = false →
    ∃ m', HashMap.set key v m = Some m'
      ∧ HashMap.get key m' = Some (some v)
      ∧ HashMap.get key' m' = HashMap.get key' m) as Hset.
  { intros key key' Hne. destruct (set_returns key v m Hp Hsmall) as [m' Hset].
    exists m'. split; [done|].
    rewrite !(get_set key _ v m m' Hwf Hset), !get_returns by done.
    by rewrite Hne, (equals_refl key). }
  do 4 (split; [vm_compute; reflexivity|]). split; [|split].
  - apply Hset. vm_compute. reflexivity.
  - apply Hset. vm_compute. reflexivity.
  - destruct (Hset (PNumber NaN) (PNumber NegZero)) as (m' & Hm' & Hget & _).
    { vm_compute. reflexivity. }
    exists m'. exact (conj Hm' Hget).
Qed.

Lemma default_hasher_zeros_and_NaN_witness :
  ∃ m', HashMap.set (PNumber NegZero) 7 three_entries = Some m'
    ∧ HashMap.get (PNumber NegZero) m' = Some (some 7)
    ∧ HashMap.get (PNumber (Int 0)) m' = HashMap.get (PNumber (Int 0)) three_entries.
Proof.
  destruct (default_hasher_zeros_and_NaN three_entries 7 three_entries_wf)
    as (_ & _ & _ & _ & _ & Hzero & _).
  { simpl. lia. }
  exact Hzero.
Defined.

(** Both zeros as keys of one map: two entries in one bucket. *)
Example zeros_are_two_keys :
  ∃ m1 m2 : HashMap.HashMap Primitive Z,
    HashMap.set (PNumber (Int 0)) 1 HashMap.new = Some m1
    ∧ HashMap.set (PNumber NegZero) 2 m1 = Some m2
    ∧ HashMap.size m2 = 2
    ∧ HashMap.get (PNumber (Int 0)) m2 = Some (some 1)
    ∧ HashMap.get (PNumber NegZero) m2 = Some (some 2)
    ∧ HashMap.getBucket (PNumber (Int 0)) m2
      = Some [(PNumber (Int 0), 1); (PNumber NegZero, 2)].
Proof.
  evaluate_to (HashMap.set (PNumber (Int 0)) 1 HashMap.new).
  evaluate_to (m1 ← HashMap.set (PNumber (Int 0)) 1 HashMap.new;
               HashMap.set (PNumber NegZero) 2 m1).
  split_and!; vm_compute; reflexivity.
Qed.

(** * Further properties of the code *)

(** ** The string hash *)

Lemma ToInt32_range (a : Z) : - 2 ^ 31 ≤ JS.ToInt32 a < 2 ^ 31.
Proof.
  unfold JS.ToInt32. cbv zeta.
  pose proof (Z.mod_pos_bound a (2 ^ 32) ltac:(lia)).
  destruct (Z.ltb_spec (a mod 2 ^ 32) (2 ^ 31)); lia.
Qed.

Lemma ToInt32_mod (a b : Z) :
  a mod 2 ^ 32 = b mod 2 ^ 32 → JS.ToInt32 a = JS.ToInt32 b.
Proof. unfold JS.ToInt32. by intros ->. Qed.

Lemma ToInt32_shift (a q : Z) : JS.ToInt32 (a + q * 2 ^ 32) = JS.ToInt32 a.
Proof. apply ToInt32_mod, Z_mod_plus_full. Qed.

(** One round of the loop is [31 * hash + code], wrapped. *)
Lemma hashString_round (h h' c : Z) :
  JS.ToInt32 h = JS.ToInt32 h' →
  JS.ToInt32 (JS.shl h 5 - h + c) = JS.ToInt32 (31 * h' + c).
Proof.
  intros Hh. unfold JS.shl.
  change (JS.ToUint32 5 mod 32) with 5. rewrite Z.shiftl_mul_pow2 by lia.
  destruct (ToInt32_congr (JS.ToInt32 h * 2 ^ 5)) as [q1 ->].
  destruct (ToInt32_congr h) as [q2 Hq2]. destruct (ToInt32_congr h') as [q3 Hq3].
  rewrite Hq2. assert (h = h' + (q3 - q2) * 2 ^ 32) as -> by lia.
  rewrite <- (ToInt32_shift (31 * h' + c) (q1 + 31 * q3 - 31 * q2 + q2 * 2 ^ 5)).
  f_equal. lia.
Qed.

Lemma hashString_from_horner (input : string) (h h' : Z) :
  JS.ToInt32 h = JS.ToInt32 h' →
  JS.ToInt32 (hashString_from h input) = JS.ToInt32 (horner h' input).
Proof.
  revert h h'. induction input as [|c rest IH]; intros h h' Hh; simpl; [done|].
  apply IH. rewrite (ToInt32_small (JS.ToInt32 _)) by apply ToInt32_range.
  by apply hashString_round.
Qed.

Lemma hashString_from_range (input : string) (h : Z) :
  - 2 ^ 31 ≤ h < 2 ^ 31 → - 2 ^ 31 ≤ hashString_from h input < 2 ^ 31.
Proof.
  revert h. induction input as [|c rest IH]; intros h Hh; simpl; [done|].
  apply IH, ToInt32_range.
Qed.

(** X1.  [hashString] is the value in base 31 of the code units of its
    input, reduced to a signed 32-bit integer: the polynomial rolling hash
    with 32-bit wrap-around.  Its result always fits 32 bits, and the hash
    of a string extended by one code unit is [31 * hash + code], wrapped. *)
Theorem hashString_polynomial (input : string) :
  hashString input = JS.ToInt32 (horner 0 input)
  ∧ - 2 ^ 31 ≤ hashString input < 2 ^ 31
  ∧ ∀ c, hashString (input +:+ String c EmptyString)
         = JS.ToInt32 (31 * hashString input + charCode c).
Proof.
  assert (∀ s, hashString s = JS.ToInt32 (horner 0 s)) as Hpoly.
  { intros s. unfold hashString.
    rewrite <- (hashString_from_horner s 0 0 eq_refl).
    symmetry. apply ToInt32_small, hashString_from_range. lia. }
  split; [apply Hpoly|]. split; [apply hashString_from_range; lia|].
  intros c. rewrite (Hpoly (input +:+ _)).
  assert (∀ h, horner h (input +:+ String c EmptyString) = 31 * horner h input + charCode c)
    as ->.
  { induction input as [|c0 rest IH]; intros h; simpl; [done|]. apply IH. }
  rewrite Hpoly. destruct (ToInt32_congr (horner 0 input)) as [q ->].
  rewrite <- (ToInt32_shift (31 * horner 0 input + charCode c) (31 * q)).
  f_equal. lia.
Qed.

(** ** The hashers *)

(** X2.  The default hasher meets the contract of a hasher: [equals] holds
    exactly between a value and itself (no coercion: the string ["1"] and
    the number [1] differ, the two zeros differ, [NaN] equals [NaN]), so it
    is reflexive, symmetric and transitive, and keys that are equal have
    the same hash; every hash is a signed 32-bit integer. *)
Theorem defaultHasher_contract :
  (∀ a b : Primitive, equals a b = true ↔ a = b)
  ∧ (∀ a : Primitive, equals a a = true)
  ∧ (∀ a b : Primitive, equals a b = equals b a)
  ∧ (∀ a b c : Primitive, equals a b = true → equals b c = true → equals a c = true)
  ∧ (∀ a b : Primitive, equals a b = true → hash a = hash b)
  ∧ (∀ a : Primitive, - 2 ^ 31 ≤ hash a < 2 ^ 31).
Proof.
  assert (∀ a b : Primitive, equals a b = true ↔ a = b) as Heq.
  { intros a b. apply bool_decide_eq_true. }
  split_and!.
  - done.
  - intros a. by apply Heq.
  - intros a b. destruct (equals a b) eqn:E1, (equals b a) eqn:E2; try done.
    + apply Heq in E1 as ->. by rewrite (proj2 (Heq b b) eq_refl) in E2.
    + apply Heq in E2 as ->. by rewrite (proj2 (Heq a a) eq_refl) in E1.
  - intros a b c ->%Heq. done.
  - intros a b ->%Heq. done.
  - intros a. apply hashString_from_range. lia.
Qed.

Section WeakMapHasherSpec.
Import WeakMapHasher.
Implicit Types (key k : Obj) (s : State).

Lemma weak_ok_hash key s : weak_ok s → weak_ok (hash key s).2.
Proof.
  intros (Hpos & Hlt & Hinj). unfold hash.
  destruct (map s !! key) as [h|] eqn:Hkey; [done|].
  split_and!; simpl.
  - lia.
  - intros k id [[-> <-]|[Hne Hk]]%lookup_insert_Some; [|apply Hlt in Hk]; lia.
  - intros k1 k2 id [[-> <-]|[Hne1 Hk1]]%lookup_insert_Some
      [[-> Heq]|[Hne2 Hk2]]%lookup_insert_Some; try done.
    + apply Hlt in Hk2. lia.
    + apply Hlt in Hk1. lia.
    + by eapply Hinj.
Qed.

Lemma weak_reachable_ok s : reachable s → weak_ok s.
Proof.
  induction 1 as [|key s _ IH]; [|by apply weak_ok_hash].
  split_and!; [done|..]; intros ?; intros; simplify_map_eq.
Qed.

Lemma weak_hash_lookup key s :
  map (hash key s).2 !! key = Some (hash key s).1.
Proof.
  unfold hash. destruct (map s !! key) as [h|] eqn:Hkey; simpl; [done|].
  apply lookup_insert_eq.
Qed.

Lemma weak_hash_known key s id :
  map s !! key = Some id → hash key s = (id, s).
Proof. intros Hk. unfold hash. by rewrite Hk. Qed.

(** X3.  With the [WeakMap] hasher, [hash] gives a key the same identifier
    at every call and changes nothing once the key has one; it never changes
    the identifier of another key; and two different keys never get the same
    identifier. *)
Theorem weakMapHasher_hash_spec key s :
  reachable s →
  hash key (hash key s).2 = hash key s
  ∧ (∀ k id, map s !! k = Some id → hash k (hash key s).2 = (id, (hash key s).2))
  ∧ (∀ k, k ≠ key → (hash k (hash key s).2).1 ≠ (hash key s).1).
Proof.
  intros Hok%weak_reachable_ok. pose proof (weak_ok_hash key s Hok) as (_ & Hlt' & Hinj').
  pose proof (weak_hash_lookup key s) as Hkey. split_and!.
  - rewrite (weak_hash_known _ _ _ Hkey). by destruct (hash key s).
  - intros k id Hk. apply weak_hash_known.
    unfold hash. destruct (map s !! key) as [h|] eqn:Hs; simpl; [done|].
    rewrite lookup_insert_ne; [done|]. intros ->. congruence.
  - intros k Hne Heq.
    destruct (map (hash key s).2 !! k) as [id|] eqn:Hk.
    + rewrite (weak_hash_known _ _ _ Hk) in Heq. simpl in Heq. subst id.
      by apply Hne, (Hinj' k key (hash key s).1).
    + unfold hash at 1 in Heq. rewrite Hk in Heq. simpl in Heq.
      apply Hlt' in Hkey. lia.
Qed.

(** X4.  With the [WeakMap] hasher, [equals] holds exactly between a key
    that [hash] has seen and itself.  A key that [hash] has not seen equals
    nothing, not even itself; once hashed it equals itself; and keys that
    are equal have the same hash. *)
Theorem weakMapHasher_equals_spec k1 k2 s :
  reachable s →
  (equals k1 k2 s = true ↔ k1 = k2 ∧ is_Some (map s !! k1))
  ∧ equals k1 k1 (hash k1 s).2 = true
  ∧ (map s !! k1 = None → equals k1 k2 s = false ∧ equals k2 k1 s = false)
  ∧ (equals k1 k2 s = true → (hash k1 s).1 = (hash k2 s).1).
Proof.
  intros (_ & Hlt & Hinj)%weak_reachable_ok.
  assert (equals k1 k2 s = true ↔ k1 = k2 ∧ is_Some (map s !! k1)) as Hiff.
  { unfold equals. destruct (map s !! k1) as [h1|] eqn:H1.
    - rewrite bool_decide_eq_true. split.
      + intros H2. split; [by eapply Hinj|by eexists].
      + by intros [<- _].
    - split; [done|]. by intros [_ [? ?]]. }
  split_and!.
  - done.
  - unfold equals. rewrite weak_hash_lookup. by apply bool_decide_eq_true.
  - intros H1. unfold equals. rewrite H1. split; [done|].
    destruct (map s !! k2); [|done]. apply bool_decide_eq_false. congruence.
  - by intros [<- _]%Hiff.
Qed.

End WeakMapHasherSpec.

Lemma weakMapHasher_sample_reachable :
  WeakMapHasher.reachable (WeakMapHasher.hash 7%positive WeakMapHasher.init).2.
Proof. apply WeakMapHasher.reachable_hash, WeakMapHasher.reachable_init. Qed.

Lemma weakMapHasher_hash_spec_witness :
  (WeakMapHasher.hash 9%positive
     (WeakMapHasher.hash 5%positive
        (WeakMapHasher.hash 7%positive WeakMapHasher.init).2).2).1
  ≠ (WeakMapHasher.hash 5%positive
       (WeakMapHasher.hash 7%positive WeakMapHasher.init).2).1.
Proof.
  apply (weakMapHasher_hash_spec 5%positive _ weakMapHasher_sample_reachable).
  discriminate.
Defined.

Lemma weakMapHasher_equals_spec_witness :
  WeakMapHasher.equals 5%positive 7%positive
    (WeakMapHasher.hash 7%positive WeakMapHasher.init).2 = false
  ∧ WeakMapHasher.equals 7%positive 5%positive
      (WeakMapHasher.hash 7%positive WeakMapHasher.init).2 = false.
Proof.
  apply (weakMapHasher_equals_spec 5%positive 7%positive _ weakMapHasher_sample_reachable).
  reflexivity.
Defined.

Section HybridHasherSpec.
Import HybridHasher.
Implicit Types (key k : Obj) (s : State).

Lemma hybrid_ok_preventExtensions key s : hybrid_ok s → hybrid_ok (preventExtensions key s).
Proof.
  intros (Hpos & Htl & Hml & Hti & Hmi & Htm & Hne).
  split_and!; try done. simpl. intros k Hk. apply elem_of_union. right. by apply Hne.
Qed.

(** The three ways [hash] returns: the tag of a tagged key, a new tag for an
    extensible key, the table for a key that is not extensible. *)
Lemma hash_cases key s id s' :
  hybrid_ok s → hash key s = Some (id, s') →
  (isHashTagged key s = true ∧ tags s !! key = Some id ∧ s' = s)
  ∨ (isHashTagged key s = false ∧ (key ∉ nonExtensible s) ∧ tags s !! key = None
     ∧ id = counter s
     ∧ s' = {| counter := counter s + 1; map := map s;
               tags := <[key := counter s]> (tags s);
               nonExtensible := nonExtensible s; functions := functions s |})
  ∨ (isHashTagged key s = false ∧ key ∈ nonExtensible s ∧ map s !! key = Some id ∧ s' = s)
  ∨ (isHashTagged key s = false ∧ key ∈ nonExtensible s ∧ map s !! key = None
     ∧ id = counter s
     ∧ s' = {| counter := counter s + 1; map := <[key := counter s]> (map s);
               tags := tags s;
               nonExtensible := nonExtensible s; functions := functions s |}).
Proof.
  intros (Hpos & Htl & Hml & Hti & Hmi & Htm & Hne). unfold hash.
  destruct (isHashTagged key s) eqn:Htagged.
  - destruct (tags s !! key) as [tag|]; simpl; [|done]. intros [= <- <-]. by left.
  - case_decide as Hext.
    + unfold defineProperty. destruct (tags s !! key) as [current|] eqn:Htag.
      * case_decide as Hsame; simpl; [|done]. apply Htl in Htag. lia.
      * simpl. intros [= <- <-]. right. left. done.
    + pose proof Hext as Hin.
      destruct (map s !! key) as [id0|] eqn:Hmap.
      * intros [= <- <-]. right. right. left. done.
      * intros [= <- <-]. right. right. right. done.
Qed.

Lemma hybrid_ok_hash key s id s' :
  hybrid_ok s → hash key s = Some (id, s') → hybrid_ok s'.
Proof.
  intros Hok Hhash. pose proof Hok as (Hpos & Htl & Hml & Hti & Hmi & Htm & Hne).
  destruct (hash_cases key s id s' Hok Hhash)
    as [(_ & _ & ->)|[(_ & Hext & Htag & -> & ->)|[(_ & _ & _ & ->)|(_ & Hin & Hmap & -> & ->)]]];
    [done| |done|].
  - split_and!; simpl.
    + lia.
    + intros k i [[-> <-]|[_ Hk]]%lookup_insert_Some; [|apply Htl in Hk]; lia.
    + intros k i Hk. apply Hml in Hk. lia.
    + intros k1 k2 i [[-> <-]|[_ Hk1]]%lookup_insert_Some
        [[-> Heq]|[_ Hk2]]%lookup_insert_Some; try done.
      * apply Htl in Hk2. lia.
      * apply Htl in Hk1. lia.
      * by eapply Hti.
    + done.
    + intros k1 k2 i [[-> <-]|[_ Hk1]]%lookup_insert_Some Hk2.
      * apply Hml in Hk2. lia.
      * by eapply Htm.
    + done.
  - split_and!; simpl.
    + lia.
    + intros k i Hk. apply Htl in Hk. lia.
    + intros k i [[-> <-]|[_ Hk]]%lookup_insert_Some; [|apply Hml in Hk]; lia.
    + done.
    + intros k1 k2 i [[-> <-]|[_ Hk1]]%lookup_insert_Some
        [[-> Heq]|[_ Hk2]]%lookup_insert_Some; try done.
      * apply Hml in Hk2. lia.
      * apply Hml in Hk1. lia.
      * by eapply Hmi.
    + intros k1 k2 i Hk1 [[-> <-]|[_ Hk2]]%lookup_insert_Some.
      * apply Htl in Hk1. lia.
      * by eapply Htm.
    + intros k [i [[-> <-]|[_ Hk]]%lookup_insert_Some]; [done|]. apply Hne. by eexists.
Qed.

Lemma hybrid_reachable_ok s : reachable s → hybrid_ok s.
Proof.
  induction 1 as [ne fs|key s id s' _ IH Hhash|key s _ IH].
  - split_and!; [done|..]; intros ?; intros; simplify_map_eq.
    by destruct H as [? ?]; simplify_map_eq.
  - by eapply hybrid_ok_hash.
  - by apply hybrid_ok_preventExtensions.
Qed.

Lemma isHashTagged_true key s :
  isHashTagged key s = true ↔ (key ∉ functions s) ∧ is_Some (tags s !! key).
Proof.
  unfold isHashTagged. rewrite andb_true_iff, !bool_decide_eq_true. done.
Qed.

(** What [hash] answers for a key that is not a function and that it has
    already seen. *)
Lemma hash_seen key s id :
  key ∉ functions s →
  tags s !! key = Some id ∨ (tags s !! key = None ∧ (key ∈ nonExtensible s) ∧ map s !! key = Some id) →
  hash key s = Some (id, s).
Proof.
  intros Hfn [Htag|(Htag & Hin & Hmap)]; unfold hash.
  - rewrite (proj2 (isHashTagged_true key s)) by (split; [done|by eexists]).
    by rewrite Htag.
  - assert (isHashTagged key s = false) as ->.
    { apply not_true_is_false. intros [_ [? ?]]%isHashTagged_true. congruence. }
    rewrite decide_False by (intros Hn; by apply Hn). by rewrite Hmap.
Qed.

(** After [hash] returned for a key that is not a function, the key is seen. *)
Lemma hash_makes_seen key s id s' :
  hybrid_ok s → key ∉ functions s → hash key s = Some (id, s') →
  functions s' = functions s
  ∧ (tags s' !! key = Some id
     ∨ (tags s' !! key = None ∧ (key ∈ nonExtensible s') ∧ map s' !! key = Some id)).
Proof.
  intros Hok Hfn Hhash.
  assert (isHashTagged key s = false → tags s !! key = None) as Huntagged.
  { intros Hf. destruct (tags s !! key) eqn:Htag; [|done].
    rewrite (proj2 (isHashTagged_true key s)) in Hf; [done|]. split; [done|by eexists]. }
  destruct (hash_cases key s id s' Hok Hhash)
    as [(_ & Htag & ->)|[(_ & Hext & Htag & -> & ->)|[(Hf & Hin & Hmap & ->)|(Hf & Hin & Hmap & -> & ->)]]];
    (split; [done|]); simpl.
  - by left.
  - left. apply lookup_insert_eq.
  - right. auto.
  - right. split_and!; [auto|done|apply lookup_insert_eq].
Qed.

(** A call of [hash] that returns and leaves the state as it is has read
    the identifier off the tag or off the table. *)
Lemma hash_fixed_iff k s id :
  hybrid_ok s →
  hash k s = Some (id, s) ↔
  (isHashTagged k s = true ∧ tags s !! k = Some id)
  ∨ (isHashTagged k s = false ∧ k ∈ nonExtensible s ∧ map s !! k = Some id).
Proof.
  intros Hok. split.
  - intros Hhash.
    destruct (hash_cases k s id s Hok Hhash)
      as [(Ht & Htag & _)|[(_ & _ & _ & _ & Hs)|[(Ht & Hin & Hmap & _)|(_ & _ & _ & _ & Hs)]]].
    + by left.
    + apply (f_equal counter) in Hs. simpl in Hs. lia.
    + right. done.
    + apply (f_equal counter) in Hs. simpl in Hs. lia.
  - intros [[Ht Htag]|(Ht & Hin & Hmap)]; unfold hash; rewrite Ht.
    + by rewrite Htag.
    + rewrite decide_False by (intros Hn; by apply Hn). by rewrite Hmap.
Qed.

(** A call of [hash] on any key keeps the identifier of every key that has
    one. *)
Lemma hash_keeps k idk key s id s' :
  hybrid_ok s → hash k s = Some (idk, s) → hash key s = Some (id, s') →
  hash k s' = Some (idk, s').
Proof.
  intros Hok Hk Hhash. pose proof (hybrid_ok_hash key s id s' Hok Hhash) as Hok'.
  apply (hash_fixed_iff k s idk Hok) in Hk. apply (hash_fixed_iff k s' idk Hok').
  destruct (hash_cases key s id s' Hok Hhash)
    as [(_ & _ & ->)|[(_ & Hext & Htag & -> & ->)|[(_ & _ & _ & ->)|(_ & Hin & Hmap & -> & ->)]]];
    [done| |done|].
  - assert (k ≠ key) as Hne.
    { intros ->. destruct Hk as [[_ Hk]|(_ & Hk & _)]; [congruence|done]. }
    unfold isHashTagged in *. simpl. by rewrite lookup_insert_ne.
  - unfold isHashTagged in *. simpl.
    destruct Hk as [Hk|(Ht & Hnex & Hk)]; [by left|right].
    split_and!; [done|done|]. rewrite lookup_insert_ne; [done|]. intros <-. congruence.
Qed.

(** Making an object non-extensible keeps the identifier of every key that
    has one. *)
Lemma preventExtensions_keeps k idk key s :
  hybrid_ok s → hash k s = Some (idk, s) →
  hash k (preventExtensions key s) = Some (idk, preventExtensions key s).
Proof.
  intros Hok Hk. apply (hash_fixed_iff k s idk Hok) in Hk.
  apply (hash_fixed_iff k _ idk (hybrid_ok_preventExtensions key s Hok)).
  unfold isHashTagged in *. simpl.
  destruct Hk as [Hk|(Ht & Hnex & Hk)]; [by left|right].
  split_and!; [done| |done]. apply elem_of_union. by right.
Qed.

Lemma later_keeps k idk s s'' :
  hybrid_ok s → hash k s = Some (idk, s) → later s s'' →
  hybrid_ok s'' ∧ hash k s'' = Some (idk, s'').
Proof.
  intros Hok Hk. induction 1 as [|key s1 id s2 _ [Hok1 Hk1] Hhash|key s1 _ [Hok1 Hk1]].
  - done.
  - split; [by eapply hybrid_ok_hash|by eapply hash_keeps].
  - split; [by apply hybrid_ok_preventExtensions|by apply preventExtensions_keeps].
Qed.

(** The identifier of a key is not given to another key. *)
Lemma hash_distinct k1 k2 s id1 id2 s2 :
  hybrid_ok s → hash k1 s = Some (id1, s) → k2 ≠ k1 → hash k2 s = Some (id2, s2) →
  id2 ≠ id1.
Proof.
  intros Hok Hk1 Hne Hhash2 ->.
  pose proof Hok as (Hpos & Htl & Hml & Hti & Hmi & Htm & Hnex).
  apply (hash_fixed_iff k1 s id1 Hok) in Hk1.
  destruct (hash_cases k2 s id1 s2 Hok Hhash2)
    as [(_ & Htag & _)|[(_ & _ & _ & Hid & _)|[(_ & _ & Hmap & _)|(_ & _ & _ & Hid & _)]]];
    destruct Hk1 as [[_ Htag']|(_ & _ & Hmap')].
  - by apply Hne, (Hti k2 k1 id1).
  - by eapply Htm.
  - apply Htl in Htag'. lia.
  - apply Hml in Hmap'. lia.
  - by eapply Htm.
  - by apply Hne, (Hmi k2 k1 id1).
  - apply Htl in Htag'. lia.
  - apply Hml in Hmap'. lia.
Qed.

(** X5.  With the hybrid hasher, [hash] returns for every key that is not a
    function, and the identifier it returns stays the key's own.  A call of
    [hash] keeps the identifier of every key that has one already.  From
    the state [s'] the call leaves, every later [hash] of the key returns
    the same identifier and changes nothing: right away, after the key has
    been frozen, and in every state [s''] the hasher comes to by calls of
    [hash] on any keys and by objects made non-extensible.  And no other
    key is given that identifier, neither in [s'] nor in any such later
    state, whether the identifiers are tags on the objects or entries of
    the fallback table. *)
Theorem hybridHasher_hash_spec key s :
  reachable s → key ∉ functions s →
  ∃ id s',
    hash key s = Some (id, s')
    ∧ hash key s' = Some (id, s')
    ∧ hash key (preventExtensions key s') = Some (id, preventExtensions key s')
    ∧ (∀ k id2 s2, k ≠ key → hash k s' = Some (id2, s2) → id2 ≠ id)
    ∧ (∀ k idk, hash k s = Some (idk, s) → hash k s' = Some (idk, s'))
    ∧ (∀ s'', later s' s'' → hash key s'' = Some (id, s''))
    ∧ (∀ s'' k id2 s2,
         later s' s'' → k ≠ key → hash k s'' = Some (id2, s2) → id2 ≠ id).
Proof.
  intros Hok%hybrid_reachable_ok Hfn.
  assert (∃ id s', hash key s = Some (id, s')) as (id & s' & Hhash).
  { unfold hash. destruct (isHashTagged key s) eqn:Htagged.
    - apply isHashTagged_true in Htagged as [_ [tag ->]]. by eexists _, _.
    - case_decide.
      + unfold defineProperty. destruct (tags s !! key) as [current|] eqn:Htag.
        * rewrite (proj2 (isHashTagged_true key s)) in Htagged; [done|].
          split; [done|by eexists].
        * by eexists _, _.
      + destruct (map s !! key); by eexists _, _. }
  exists id, s'. pose proof (hybrid_ok_hash key s id s' Hok Hhash) as Hok'.
  destruct (hash_makes_seen key s id s' Hok Hfn Hhash) as [Hfs Hseen].
  assert (key ∉ functions s') as Hfn' by by rewrite Hfs.
  assert (hash key s' = Some (id, s')) as Hfixed by by apply hash_seen.
  split; [done|]. split; [done|]. split; [by apply preventExtensions_keeps|].
  split; [|split; [|split]].
  - intros k id2 s2 Hne Hhash2. by eapply hash_distinct.
  - intros k idk Hk. exact (hash_keeps k idk key s id s' Hok Hk Hhash).
  - intros s'' Hlater. by apply (later_keeps key id s' s'' Hok' Hfixed).
  - intros s'' k id2 s2 Hlater Hne Hhash2.
    destruct (later_keeps key id s' s'' Hok' Hfixed Hlater) as [Hok'' Hfixed''].
    by eapply hash_distinct.
Qed.

(** X6.  With the hybrid hasher, for a first key that is not a function,
    [equals] holds exactly between a key that [hash] has seen (tagged, or
    entered in the table) and itself.  So a tagged key never equals an
    untagged one, a key that was never hashed equals nothing, a key equals
    itself once hashed, and keys that are equal have the same hash. *)
Theorem hybridHasher_equals_spec k1 k2 s :
  reachable s → k1 ∉ functions s →
  (equals k1 k2 s = true ↔
   k1 = k2 ∧ (is_Some (tags s !! k1) ∨ is_Some (map s !! k1)))
  ∧ (∀ id s', hash k1 s = Some (id, s') → equals k1 k1 s' = true)
  ∧ (equals k1 k2 s = true →
     ∃ id, hash k1 s = Some (id, s) ∧ hash k2 s = Some (id, s)).
Proof.
  intros Hok%hybrid_reachable_ok Hfn.
  pose proof Hok as (Hpos & Htl & Hml & Hti & Hmi & Htm & Hnex).
  assert (∀ s0 k, hybrid_ok s0 → k ∉ functions s0 →
    (is_Some (tags s0 !! k) ∨ is_Some (map s0 !! k)) → equals k k s0 = true) as Hrefl.
  { intros s0 k Hok0 Hfn0 Hseen. unfold equals.
    destruct (isHashTagged k s0) eqn:Htagged; [by apply bool_decide_eq_true|].
    destruct Hseen as [Htag|[id Hmap]].
    - rewrite (proj2 (isHashTagged_true k s0)) in Htagged; done.
    - rewrite Hmap. by apply bool_decide_eq_true. }
  assert (equals k1 k2 s = true →
          k1 = k2 ∧ (is_Some (tags s !! k1) ∨ is_Some (map s !! k1))) as Hto.
  { unfold equals. destruct (isHashTagged k1 s) eqn:Ht1.
    - destruct (isHashTagged k2 s) eqn:Ht2; [|done].
      apply isHashTagged_true in Ht1 as [_ [t1 Ht1]].
      apply isHashTagged_true in Ht2 as [_ [t2 Ht2]].
      rewrite bool_decide_eq_true, Ht1, Ht2. intros [= ->].
      split; [by eapply Hti | left; by eexists].
    - destruct (map s !! k1) as [id1|] eqn:Hm1; [|done].
      rewrite bool_decide_eq_true. intros Hm2.
      split; [by eapply Hmi | right; by eexists]. }
  split_and!.
  - split; [done|]. intros [<- Hseen]. by apply Hrefl.
  - intros id s' Hhash. pose proof (hybrid_ok_hash _ _ _ _ Hok Hhash) as Hok'.
    destruct (hash_makes_seen k1 s id s' Hok Hfn Hhash) as [Hfs Hseen].
    apply Hrefl; [done|by rewrite Hfs|].
    destruct Hseen as [?|(_ & _ & ?)]; [left|right]; by eexists.
  - intros [<- Hseen]%Hto.
    assert (∃ id, tags s !! k1 = Some id
      ∨ (tags s !! k1 = None ∧ (k1 ∈ nonExtensible s) ∧ map s !! k1 = Some id)) as [id Hid].
    { destruct (tags s !! k1) as [t|] eqn:Htag; [exists t; by left|].
      destruct Hseen as [[? ?]|[id Hmap]]; [done|].
      exists id. right. split_and!; [done| |done]. apply Hnex. by eexists. }
    exists id. split; by apply hash_seen.
Qed.

(** X7.  With the hybrid hasher a function that is extensible cannot be a
    key: [isHashTagged] rejects whatever is not of type ["object"], so the
    first [hash] tags the function and the second tries to tag it again
    with the next identifier and throws; and the function does not equal
    itself. *)
Theorem hybridHasher_function_key key s :
  reachable s → key ∈ functions s → key ∉ nonExtensible s → tags s !! key = None →
  ∃ s', hash key s = Some (counter s, s')
    ∧ tags s' !! key = Some (counter s)
    ∧ hash key s' = None
    ∧ equals key key s' = false.
Proof.
  intros Hok%hybrid_reachable_ok Hfn Hext Htag.
  pose proof Hok as (Hpos & Htl & Hml & Hti & Hmi & Htm & Hnex).
  assert (∀ s0, functions s0 = functions s → isHashTagged key s0 = false) as Huntagged.
  { intros s0 Hfs. unfold isHashTagged. rewrite Hfs.
    by rewrite (bool_decide_eq_false_2 (key ∉ functions s)) by (intros Hn; by apply Hn). }
  eexists. split_and!.
  - unfold hash. rewrite Huntagged by done. rewrite decide_True by done.
    unfold defineProperty. rewrite Htag. simpl. reflexivity.
  - simpl. apply lookup_insert_eq.
  - unfold hash. rewrite Huntagged by done. simpl. rewrite decide_True by done.
    unfold defineProperty. simpl. rewrite lookup_insert_eq.
    rewrite decide_False by lia. done.
  - unfold equals. rewrite Huntagged by done. simpl.
    destruct (map s !! key) as [id|] eqn:Hmap; [|done].
    destruct Hext. apply Hnex. by eexists.
Qed.

End HybridHasherSpec.

Lemma hybridHasher_hash_spec_witness :
  ∃ id s',
    HybridHasher.hash 3%positive (HybridHasher.init {[5%positive]} ∅) = Some (id, s')
    ∧ HybridHasher.hash 3%positive s' = Some (id, s')
    ∧ HybridHasher.hash 3%positive (HybridHasher.preventExtensions 3%positive s')
      = Some (id, HybridHasher.preventExtensions 3%positive s')
    ∧ (∀ k id2 s2, k ≠ 3%positive → HybridHasher.hash k s' = Some (id2, s2) → id2 ≠ id)
    ∧ (∀ k idk,
         HybridHasher.hash k (HybridHasher.init {[5%positive]} ∅)
         = Some (idk, HybridHasher.init {[5%positive]} ∅) →
         HybridHasher.hash k s' = Some (idk, s'))
    ∧ (∀ s'', HybridHasher.later s' s'' → HybridHasher.hash 3%positive s'' = Some (id, s''))
    ∧ (∀ s'' k id2 s2,
         HybridHasher.later s' s'' → k ≠ 3%positive →
         HybridHasher.hash k s'' = Some (id2, s2) → id2 ≠ id).
Proof.
  apply (hybridHasher_hash_spec 3%positive (HybridHasher.init {[5%positive]} ∅)).
  - apply HybridHasher.reachable_init.
  - apply not_elem_of_empty.
Defined.

(** The run [hash 3], [hash 6], [hash 5], [hash 3] on a hasher that starts
    with the frozen object 5: the identifiers are 0, 1, 2 and again 0. *)
Example hybridHasher_run :
  ∃ s1 s2 s3,
    HybridHasher.hash 3%positive (HybridHasher.init {[5%positive]} ∅) = Some (0, s1)
    ∧ HybridHasher.hash 6%positive s1 = Some (1, s2)
    ∧ HybridHasher.hash 5%positive s2 = Some (2, s3)
    ∧ HybridHasher.hash 3%positive s3 = Some (0, s3).
Proof. do 3 eexists. split_and!; vm_compute; reflexivity. Qed.

Lemma hybridHasher_equals_spec_witness :
  HybridHasher.equals 3%positive 5%positive (HybridHasher.init {[5%positive]} ∅) = true
  ↔ 3%positive = 5%positive
    ∧ (is_Some (HybridHasher.tags (HybridHasher.init {[5%positive]} ∅) !! 3%positive)
       ∨ is_Some (HybridHasher.map (HybridHasher.init {[5%positive]} ∅) !! 3%positive)).
Proof.
  apply (hybridHasher_equals_spec 3%positive 5%positive
           (HybridHasher.init {[5%positive]} ∅)).
  - apply HybridHasher.reachable_init.
  - apply not_elem_of_empty.
Defined.

Lemma hybridHasher_function_key_witness :
  ∃ s', HybridHasher.hash 4%positive (HybridHasher.init ∅ {[4%positive]})
        = Some (HybridHasher.counter (HybridHasher.init ∅ {[4%positive]}), s')
    ∧ HybridHasher.tags s' !! 4%positive
      = Some (HybridHasher.counter (HybridHasher.init ∅ {[4%positive]}))
    ∧ HybridHasher.hash 4%positive s' = None
    ∧ HybridHasher.equals 4%positive 4%positive s' = false.
Proof.
  apply (hybridHasher_function_key 4%positive (HybridHasher.init ∅ {[4%positive]})).
  - apply HybridHasher.reachable_init.
  - simpl. by apply elem_of_singleton.
  - apply not_elem_of_empty.
  - apply lookup_empty.
Defined.

(** ** Lookups *)

Section Lookups.
Context {K T : Type} `{LawfulHasher K}.
Local Abbreviation HashMap := (HashMap.HashMap K T).
Implicit Types (key k : K) (value v : T) (m : HashMap).




Lemma get_scan_elem key value (l : list (K * T)) :
  unique_keys l.*1 → (key, value) ∈ l → HashMap.get_scan key l = some value.
Proof.
  induction l as [|[k0 v0] l IH]; simpl.
  - by intros _ ?%elem_of_nil.
  - intros [Hno Hu] [[= <- <-]|Hin]%elem_of_cons.
    + by rewrite equals_refl.
    + assert (equals key k0 = false) as ->; [|by apply IH].
      apply equals_false_sym, Hno. by apply (list_elem_of_fmap_2 fst) in Hin.
Qed.

(** X9.  On a well-formed map iteration and lookup tell the same: every
    pair that iteration yields is what [get] finds for its key, whatever
    [get] finds is a pair that iteration yields under an equal key, [get]
    answers [none] exactly for the keys that equal no key of the iteration,
    and iteration yields [size()] pairs. *)
Theorem iterator_get_agree m :
  wf m →
  (∀ k v, (k, v) ∈ HashMap.iterator m → HashMap.get k m = Some (some v))
  ∧ (∀ key v, HashMap.get key m = Some (some v) →
       ∃ k, equals key k = true ∧ (k, v) ∈ HashMap.iterator m)
  ∧ (∀ key, HashMap.get key m = Some none ↔ no_key key (HashMap.keys m))
  ∧ Z.of_nat (length (HashMap.keys m)) = HashMap.size m
  ∧ Z.of_nat (length (HashMap.values m)) = HashMap.size m.
Proof.
  intros Hwf. pose proof Hwf as [Hp Hpl Hu Hc]. split_and!.
  - intros k v Hin. rewrite (get_returns k m Hwf). f_equal. by apply get_scan_elem.
  - intros key v. rewrite (get_returns key m Hwf). intros [= Hscan].
    apply get_scan_some in Hscan as (l1 & k & l2 & Hl & _ & Hk).
    exists k. split; [done|]. rewrite Hl. apply elem_of_app. right. left.
  - intros key. rewrite (get_returns key m Hwf). unfold HashMap.keys.
    rewrite <- get_scan_none. split; [by intros [= ->]|by intros ->].
  - unfold HashMap.keys. rewrite length_fmap. symmetry. exact Hc.
  - unfold HashMap.values. rewrite length_fmap. symmetry. exact Hc.
Qed.

(** X10.  [clear] empties the map and keeps its buckets: on a store of
    [2^j] buckets the cleared map has the same bucket count and capacity,
    size 0, nothing to iterate, and every [get] and [remove] answers
    [none], leaving it as it is. *)
Theorem clear_spec key m :
  pow2_store m →
  HashMap.buckets (HashMap.clear m) = HashMap.buckets m
  ∧ HashMap.capacity (HashMap.clear m) = HashMap.capacity m
  ∧ HashMap.size (HashMap.clear m) = 0
  ∧ HashMap.isEmpty (HashMap.clear m) = true
  ∧ HashMap.iterator (HashMap.clear m) = []
  ∧ HashMap.get key (HashMap.clear m) = Some none
  ∧ HashMap.remove key (HashMap.clear m) = Some (none, HashMap.clear m)
  ∧ wf (HashMap.clear m).
Proof.
  intros Hp. pose proof (clear_wf m Hp) as Hwf.
  assert (HashMap.buckets (HashMap.clear m) = HashMap.buckets m) as Hb.
  { unfold HashMap.buckets at 1. simpl. rewrite length_Array_from_length.
    pose proof (buckets_nonneg m). lia. }
  assert (HashMap.iterator (HashMap.clear m) = []) as Hit by apply concat_replicate_nil.
  assert (HashMap.get key (HashMap.clear m) = Some none) as Hget.
  { by rewrite (get_returns key _ Hwf), Hit. }
  split_and!; [done|by unfold HashMap.capacity; rewrite Hb|done|done|done|done| |done].
  destruct (remove_returns key (HashMap.clear m)) as [[r m'] Hrm]; [by destruct Hwf|].
  rewrite Hrm. apply remove_cases in Hrm as (bucket & Hg & Hcase).
  unfold HashMap.get in Hget. rewrite Hg in Hget. simpl in Hget.
  apply (inj Some), remove_scan_None in Hget. rewrite Hget in Hcase.
  by destruct Hcase as [-> ->].
Qed.

End Lookups.

(** ** Removal *)

Section RemoveMore.
Context {K T : Type} `{LawfulHasher K}.
Local Abbreviation HashMap := (HashMap.HashMap K T).
Implicit Types (key k : K) (value v : T) (m : HashMap).

Lemma get_equal_key key key' m :
  wf m → equals key' key = true → HashMap.get key' m = HashMap.get key m.
Proof.
  intros Hwf Heq. rewrite !get_returns by done. f_equal.
  generalize (HashMap.iterator m). intros l.
  induction l as [|[k v] l IH]; simpl; [done|].
  by rewrite (equals_true_r key key' k Heq), IH.
Qed.

(** X11.  On a well-formed map [remove] returns what [get] found and keeps
    the map well formed; afterwards [get] answers [none] for the key and for
    every key equal to it, answers as before for every other key, and the
    size is one less if a pair was removed and the same if not. *)
Theorem remove_then_get key m :
  wf m →
  ∃ r m',
    HashMap.remove key m = Some (r, m')
    ∧ HashMap.get key m = Some r
    ∧ wf m'
    ∧ (∀ key', HashMap.get key' m'
               = if equals key' key then Some none else HashMap.get key' m)
    ∧ HashMap.has key m' = Some false
    ∧ HashMap.size m' = HashMap.size m - (if isSome r then 1 else 0).
Proof.
  intros Hwf. pose proof Hwf as [Hp _ _ _].
  destruct (remove_returns key m Hp) as [[r m'] Hrm]. exists r, m'.
  pose proof (get_remove key key m r m' Hwf Hrm) as Hgone.
  rewrite equals_refl in Hgone.
  split_and!; [done| |by eapply remove_wf|by intros key'; eapply get_remove
    |by unfold HashMap.has; rewrite Hgone|].
  - apply remove_cases in Hrm as (bucket & Hg & Hcase).
    unfold HashMap.get. rewrite Hg. simpl.
    destruct (HashMap.remove_scan key bucket) as [[v bucket']|] eqn:Hs;
      destruct Hcase as [-> _].
    + by rewrite (remove_scan_get _ _ _ _ Hs).
    + apply remove_scan_None in Hs. by rewrite Hs.
  - apply remove_cases in Hrm as (bucket & Hg & Hcase).
    destruct (HashMap.remove_scan key bucket) as [[v bucket']|];
      destruct Hcase as [-> ->]; unfold HashMap.size; simpl; lia.
Qed.

(** X12.  Insert and remove undo each other: on a well-formed map of fewer
    than [2^29] entries, setting an absent key and removing it again
    returns the value set and leaves a map of the size it had before, in
    which every key reads what it read before (the store may have grown on
    the way). *)
Theorem set_remove_round_trip key value m :
  wf m → HashMap._count m < 2 ^ 29 → HashMap.get key m = Some none →
  ∃ m1 m2,
    HashMap.set key value m = Some m1
    ∧ HashMap.remove key m1 = Some (some value, m2)
    ∧ HashMap.size m2 = HashMap.size m
    ∧ wf m2
    ∧ ∀ key', HashMap.get key' m2 = HashMap.get key' m.
Proof.
  intros Hwf Hsmall Habsent. pose proof Hwf as [Hp _ _ _].
  destruct (set_returns key value m Hp Hsmall) as [m1 Hset].
  pose proof (set_wf key value m m1 Hwf Hset) as Hwf1. pose proof Hwf1 as [Hp1 _ _ _].
  destruct (remove_returns key m1 Hp1) as [[r m2] Hrm].
  assert (HashMap.get key m1 = Some (some value)) as Hget1.
  { rewrite (get_set key key value m m1 Hwf Hset), Habsent. simpl. by rewrite equals_refl. }
  pose proof Hrm as (bucket & Hg & Hcase)%remove_cases.
  unfold HashMap.get in Hget1. rewrite Hg in Hget1. simpl in Hget1. apply (inj Some) in Hget1.
  destruct (HashMap.remove_scan key bucket) as [[v bucket']|] eqn:Hs.
  - rewrite (remove_scan_get _ _ _ _ Hs) in Hget1. simplify_eq.
    destruct Hcase as [-> Hm2]. exists m1, m2. split_and!; [done|done| |by eapply remove_wf|].
    + destruct (size_set key value m m1 Hwf Hset) as [[_ Hsize]|[[? ?] _]]; [|congruence].
      rewrite Hm2. unfold HashMap.size in *. simpl. lia.
    + intros key'. rewrite (get_remove key key' m1 _ m2 Hwf1 Hrm).
      rewrite (get_set key key' value m m1 Hwf Hset).
      destruct (equals key' key) eqn:E.
      * by rewrite (get_equal_key key key' m Hwf E), Habsent.
      * by destruct (HashMap.get key' m).
  - apply remove_scan_None in Hs. congruence.
Qed.

End RemoveMore.

(** ** [map] and [retain] *)

Section MapRetain.
Context {K T : Type} `{LawfulHasher K}.
Local Abbreviation HashMap := (HashMap.HashMap K T).
Implicit Types (key k : K) (value v : T) (m : HashMap).

Lemma getKeyValue_scan_fmap key (g : K * T → K * T) (l : list (K * T)) :
  (∀ kv, (g kv).1 = kv.1) →
  HashMap.getKeyValue_scan key (g <$> l)
  = match HashMap.getKeyValue_scan key l with some kv => some (g kv) | none => none end.
Proof.
  intros Hg. induction l as [|kv l IH]; [done|].
  rewrite fmap_cons. simpl. rewrite Hg. by destruct (equals key kv.1).
Qed.

(** X13.  [map(fn)] replaces the value of every stored pair by [fn] of the
    value and the stored key, and nothing else: the keys, their order, the
    size and the bucket count are the same, and [getKeyValue] finds the same
    stored key with the new value. *)
Theorem map_replaces_values (fn : T → K → T) key m :
  HashMap.iterator (HashMap.map fn m)
  = (λ kv : K * T, (kv.1, fn kv.2 kv.1)) <$> HashMap.iterator m
  ∧ HashMap.keys (HashMap.map fn m) = HashMap.keys m
  ∧ HashMap.size (HashMap.map fn m) = HashMap.size m
  ∧ HashMap.buckets (HashMap.map fn m) = HashMap.buckets m
  ∧ HashMap.getKeyValue key (HashMap.map fn m)
    = (λ r, match r with some kv => some (kv.1, fn kv.2 kv.1) | none => none end)
      <$> HashMap.getKeyValue key m.
Proof.
  assert (HashMap.iterator (HashMap.map fn m)
          = (λ kv : K * T, (kv.1, fn kv.2 kv.1)) <$> HashMap.iterator m) as Hit.
  { unfold HashMap.map, HashMap.iterator. simpl. apply concat_fmap_fmap. }
  assert (HashMap.buckets (HashMap.map fn m) = HashMap.buckets m) as Hb.
  { unfold HashMap.buckets, HashMap.map. simpl. by rewrite length_fmap. }
  split_and!; [done| |done|done|].
  - unfold HashMap.keys. rewrite Hit, <- list_fmap_compose. done.
  - unfold HashMap.getKeyValue, HashMap.getBucket, HashMap.slot. rewrite Hb.
    unfold JS.index. case_decide; [|done].
    unfold HashMap.map at 1. simpl. rewrite list_lookup_fmap.
    destruct (HashMap._buckets m !! _) as [bucket|]; [|done]. simpl.
    by rewrite getKeyValue_scan_fmap.
Qed.

Lemma retain_bucket_filter (fn : T → K → bool) (bucket : list (K * T)) :
  (HashMap.retain_bucket fn bucket).1 = filter (λ kv, fn kv.2 kv.1 = true) bucket.
Proof.
  unfold HashMap.retain_bucket. induction bucket as [|kv bucket IH]; [done|].
  rewrite filter_cons. cbn [foldr]. rewrite <- IH.
  case_decide as E.
  - by rewrite E.
  - by destruct (fn kv.2 kv.1).
Qed.

Lemma concat_fmap_filter {A} (P : A → Prop) `{∀ x, Decision (P x)} (ls : list (list A)) :
  concat ((λ l : list A, filter P l) <$> ls) = filter P (concat ls).
Proof.
  induction ls as [|l ls IH]; [done|].
  rewrite fmap_cons. simpl. by rewrite filter_app, IH.
Qed.

Lemma getKeyValue_scan_filter key (P : K * T → Prop) `{∀ x, Decision (P x)}
    (l : list (K * T)) :
  unique_keys l.*1 →
  HashMap.getKeyValue_scan key (filter P l)
  = match HashMap.getKeyValue_scan key l with
    | some kv => if decide (P kv) then some kv else none
    | none => none
    end.
Proof.
  induction l as [|kv l IH]; [done|]. simpl. intros [Hno Hu].
  rewrite filter_cons. destruct (equals key kv.1) eqn:E.
  - case_decide; simpl; [by rewrite E|].
    assert (HashMap.getKeyValue_scan key l = none) as Hnone.
    { clear IH. induction l as [|kv' l IH']; simpl; [done|].
      simpl in Hno. apply no_key_cons in Hno as [Hne Hno].
      assert (equals key kv'.1 = false) as ->.
      { destruct (equals key kv'.1) eqn:E'; [|done].
        apply equals_sym in E. by rewrite (equals_trans kv.1 key kv'.1) in Hne. }
      apply IH'; [done|]. simpl in Hu. by destruct Hu. }
    rewrite IH, Hnone; done.
  - case_decide; simpl; [rewrite E|]; by apply IH.
Qed.

(** X14.  [retain(fn)] keeps exactly the pairs whose value and key [fn]
    accepts, in their order, in the same buckets; the count goes down by the
    number of pairs dropped, so a map whose count was right keeps a right
    count; and on a well-formed map a key is found afterwards exactly when
    it was found before with a pair that [fn] accepts. *)
Theorem retain_keeps_accepted (fn : T → K → bool) m :
  HashMap.iterator (HashMap.retain fn m)
  = filter (λ kv, fn kv.2 kv.1 = true) (HashMap.iterator m)
  ∧ HashMap.buckets (HashMap.retain fn m) = HashMap.buckets m
  ∧ HashMap.size (HashMap.retain fn m)
    = HashMap.size m - Z.of_nat (length (HashMap.iterator m))
      + Z.of_nat (length (HashMap.iterator (HashMap.retain fn m)))
  ∧ (wf m →
     wf (HashMap.retain fn m)
     ∧ ∀ key, HashMap.getKeyValue key (HashMap.retain fn m)
              = (λ r, match r with
                      | some kv => if fn kv.2 kv.1 then some kv else none
                      | none => none
                      end) <$> HashMap.getKeyValue key m).
Proof.
  assert (HashMap._buckets (HashMap.retain fn m)
          = (λ bucket : list (K * T), filter (λ kv, fn kv.2 kv.1 = true) bucket)
            <$> HashMap._buckets m) as Hstore.
  { unfold HashMap.retain. simpl. apply list_fmap_ext. intros i b _.
    apply retain_bucket_filter. }
  assert (HashMap.buckets (HashMap.retain fn m) = HashMap.buckets m) as Hb.
  { unfold HashMap.buckets. by rewrite Hstore, length_fmap. }
  split_and!.
  - unfold HashMap.iterator. rewrite Hstore. apply concat_fmap_filter.
  - done.
  - destruct (retain_spec fn (HashMap._buckets m) (HashMap._count m)) as [_ Hcount].
    unfold HashMap.size, HashMap.iterator, HashMap.retain. simpl. exact Hcount.
  - intros Hwf. split; [by apply retain_wf|]. intros key.
    destruct Hwf as [Hp Hpl Hu Hc].
    unfold HashMap.getKeyValue, HashMap.getBucket, HashMap.slot. rewrite Hb, Hstore.
    unfold JS.index. case_decide; [|done]. rewrite list_lookup_fmap.
    destruct (HashMap._buckets m !! _) as [bucket|] eqn:Hbucket; [|done]. simpl. f_equal.
    rewrite getKeyValue_scan_filter.
    + destruct (HashMap.getKeyValue_scan key bucket) as [kv|]; [|done].
      destruct (fn kv.2 kv.1) eqn:E; [by rewrite decide_True|by rewrite decide_False].
    + revert Hu. unfold HashMap.keys, HashMap.iterator.
      rewrite (concat_middle _ _ _ Hbucket), !fmap_app.
      intros (_ & (Hu & _ & _)%unique_keys_app & _)%unique_keys_app. done.
Qed.

End MapRetain.

(** ** The properties above on the sample maps *)


Lemma iterator_get_agree_witness :
  (∀ k v, (k, v) ∈ HashMap.iterator three_entries
          → HashMap.get k three_entries = Some (some v))
  ∧ Z.of_nat (length (HashMap.keys three_entries)) = HashMap.size three_entries.
Proof.
  pose proof (iterator_get_agree three_entries three_entries_wf) as (Hin & _ & _ & Hk & _).
  exact (conj Hin Hk).
Defined.

Lemma clear_spec_witness :
  HashMap.buckets (HashMap.clear three_entries) = 8
  ∧ HashMap.size (HashMap.clear three_entries) = 0
  ∧ HashMap.get (PString "one") (HashMap.clear three_entries) = Some none.
Proof.
  assert (pow2_store three_entries) as Hp by (exists 3; split; [lia|reflexivity]).
  pose proof (clear_spec (PString "one") three_entries Hp) as (Hb & _ & Hs & _ & _ & Hg & _).
  exact (conj Hb (conj Hs Hg)).
Defined.

Lemma remove_then_get_witness :
  ∃ r m',
    HashMap.remove (PString "one") three_entries = Some (r, m')
    ∧ HashMap.get (PString "one") three_entries = Some r
    ∧ wf m'
    ∧ (∀ key', HashMap.get key' m'
               = if equals key' (PString "one") then Some none
                 else HashMap.get key' three_entries)
    ∧ HashMap.has (PString "one") m' = Some false
    ∧ HashMap.size m' = HashMap.size three_entries - (if isSome r then 1 else 0).
Proof. apply (remove_then_get (PString "one") three_entries three_entries_wf). Defined.

Lemma set_remove_round_trip_witness :
  ∃ m1 m2,
    HashMap.set (PString "four") 4 three_entries = Some m1
    ∧ HashMap.remove (PString "four") m1 = Some (some 4, m2)
    ∧ HashMap.size m2 = HashMap.size three_entries
    ∧ wf m2
    ∧ ∀ key', HashMap.get key' m2 = HashMap.get key' three_entries.
Proof.
  apply (set_remove_round_trip (PString "four") 4 three_entries three_entries_wf).
  - simpl. lia.
  - vm_compute. reflexivity.
Defined.

Lemma retain_keeps_accepted_witness :
  HashMap.iterator (HashMap.retain (λ v _, 1 <? v) three_entries)
  = filter (λ kv, (1 <? kv.2) = true) (HashMap.iterator three_entries)
  ∧ wf (HashMap.retain (λ v _, 1 <? v) three_entries).
Proof.
  pose proof (retain_keeps_accepted (λ v _, 1 <? v) three_entries) as (Hit & _ & _ & Hwf).
  exact (conj Hit (proj1 (Hwf three_entries_wf))).
Defined.

(** ** [from] *)

Section From.
Context {K T : Type} `{LawfulHasher K}.
Local Abbreviation HashMap := (HashMap.HashMap K T).
Implicit Types (key k : K) (value v : T) (m : HashMap).

Lemma ceil_div_le (a b c : Z) : 0 < b → a ≤ b * c → JS.ceil_div a b ≤ c.
Proof.
  intros Hb Ha. unfold JS.ceil_div.
  assert (- c ≤ (- a) / b); [|lia].
  apply Z.div_le_lower_bound; lia.
Qed.

Lemma withCapacity_returns capacity :
  capacity ≤ 2 ^ 30 →
  ∃ m, HashMap.withCapacity capacity = Some m
    ∧ wf m ∧ HashMap._count m = 0 ∧ ∀ key, HashMap.get key m = Some none.
Proof.
  intros Hc. unfold HashMap.withCapacity.
  assert (JS.ceil_div (3 * capacity) 4 ≤ 2 ^ 30) as Hn by (apply ceil_div_le; lia).
  destruct (bucketCountFinal_ge _ Hn) as (j & Hj & Hbcf & _).
  destruct (resize_returns (JS.ceil_div (3 * capacity) 4) (HashMap.new : HashMap) j Hj Hbcf)
    as (m & Hm & Hb).
  assert (0 < HashMap.bucketCountFinal (JS.ceil_div (3 * capacity) 4)) as Hpos.
  { rewrite Hbcf. apply Z.pow_pos_nonneg; lia. }
  exists m. split_and!; [done|by eapply resize_wf; [apply wf_new|..]| |].
  - by apply resize_spec in Hm as (_ & -> & _).
  - intros key. rewrite (get_resize _ _ _ key wf_new Hm Hpos).
    by rewrite (get_returns key _ wf_new).
Qed.

Lemma set_all_count pairs m m' :
  wf m → HashMap.set_all pairs m = Some m' →
  HashMap._count m ≤ HashMap._count m' ≤ HashMap._count m + Z.of_nat (length pairs).
Proof.
  revert m. induction pairs as [|[k v] pairs IH]; intros m Hwf; simpl.
  - intros [= ->]. lia.
  - destruct (HashMap.set k v m) as [m1|] eqn:Hset; [|done]. simpl. intros Hall.
    pose proof (count_set k v m m1 Hwf Hset).
    pose proof (IH m1 (set_wf _ _ _ _ Hwf Hset) Hall). lia.
Qed.

Lemma set_all_fresh pairs m m' :
  wf m → unique_keys pairs.*1 →
  (∀ k, k ∈ pairs.*1 → HashMap.get k m = Some none) →
  HashMap.set_all pairs m = Some m' →
  HashMap.size m' = HashMap.size m + Z.of_nat (length pairs).
Proof.
  revert m. induction pairs as [|[k v] pairs IH]; intros m Hwf; simpl.
  - intros _ _ [= ->]. lia.
  - intros [Hno Hu] Hfresh.
    destruct (HashMap.set k v m) as [m1|] eqn:Hset; [|done]. simpl. intros Hall.
    destruct (size_set k v m m1 Hwf Hset) as [[_ Hsize]|[[v' Hv'] _]].
    + rewrite (IH m1 (set_wf _ _ _ _ Hwf Hset) Hu); [lia| |done].
      intros k' Hk'. rewrite (get_set k k' v m m1 Hwf Hset).
      rewrite (equals_false_sym _ _ (Hno k' Hk')).
      rewrite Hfresh by (by right). done.
    + rewrite Hfresh in Hv' by left. done.
Qed.

Lemma last_write_unique key (pairs : list (K * T)) before :
  unique_keys pairs.*1 →
  last_write key pairs before
  = match HashMap.get_scan key pairs with some v => some v | none => before end.
Proof.
  revert before. induction pairs as [|[k v] pairs IH]; intros before; simpl; [done|].
  intros [Hno Hu]. rewrite IH by done. destruct (equals key k) eqn:E; [|done].
  assert (HashMap.get_scan key pairs = none) as ->; [|done].
  apply get_scan_none. by apply (no_key_equal k).
Qed.

Lemma from_set_all (fromArray : list (K * T)) :
  Z.of_nat (length fromArray) ≤ 2 ^ 29 →
  ∃ m0 m, HashMap.withCapacity (Z.of_nat (length fromArray)) = Some m0
    ∧ wf m0 ∧ HashMap._count m0 = 0 ∧ (∀ key, HashMap.get key m0 = Some none)
    ∧ HashMap.set_all fromArray m0 = Some m
    ∧ HashMap.from fromArray = Some m
    ∧ wf m
    ∧ ∀ key, HashMap.get key m = Some (last_write key fromArray none).
Proof.
  intros Hlen.
  destruct (withCapacity_returns (Z.of_nat (length fromArray))) as (m0 & Hm0 & Hwf0 & Hc0 & Hg0);
    [lia|].
  destruct (set_all_spec fromArray m0 Hwf0) as (m & Hm & Hwf & Hget); [lia|].
  exists m0, m. split_and!; try done.
  - unfold HashMap.from. rewrite Hm0. exact Hm.
  - intros key. by rewrite Hget, Hg0.
Qed.

(** X15.  [from] of an array of at most [2^29] pairs returns a well-formed,
    reachable map in which every key reads the value of the last pair of
    the array whose key equals it, and [none] if there is no such pair; its
    size is at most the length of the array, and equal to it when the keys
    of the array are pairwise different. *)
Theorem from_last_write_wins (fromArray : list (K * T)) :
  Z.of_nat (length fromArray) ≤ 2 ^ 29 →
  ∃ m, HashMap.from fromArray = Some m
    ∧ wf m ∧ reachable m
    ∧ (∀ key, HashMap.get key m = Some (last_write key fromArray none))
    ∧ HashMap.size m ≤ Z.of_nat (length fromArray)
    ∧ (unique_keys fromArray.*1 → HashMap.size m = Z.of_nat (length fromArray)).
Proof.
  intros Hlen.
  destruct (from_set_all fromArray Hlen)
    as (m0 & m & Hm0 & Hwf0 & Hc0 & Hg0 & Hm & Hfrom & Hwf & Hget).
  exists m. split_and!; [done|done|by eapply reachable_from|done| |].
  - pose proof (set_all_count fromArray m0 m Hwf0 Hm). unfold HashMap.size. lia.
  - intros Hu. rewrite (set_all_fresh fromArray m0 m Hwf0 Hu); [|done|done].
    unfold HashMap.size. lia.
Qed.

(** X16.  Rebuilding a map from its own iteration gives the same map to
    every lookup: for a well-formed map [m] of at most [2^29] entries,
    [from] of the pairs that iterating [m] yields returns a well-formed map
    of the same size in which every key reads what it reads in [m]. *)
Theorem from_iterator_round_trip m :
  wf m → HashMap.size m ≤ 2 ^ 29 →
  ∃ m', HashMap.from (HashMap.iterator m) = Some m'
    ∧ wf m'
    ∧ HashMap.size m' = HashMap.size m
    ∧ ∀ key, HashMap.get key m' = HashMap.get key m.
Proof.
  intros Hwf Hsize. pose proof Hwf as [_ _ Hu Hc]. unfold counted in Hc.
  unfold HashMap.size in *.
  destruct (from_set_all (HashMap.iterator m))
    as (m0 & m' & Hm0 & Hwf0 & Hc0 & Hg0 & Hm & Hfrom & Hwf' & Hget); [lia|].
  exists m'. split_and!; [done|done| |].
  - pose proof (set_all_fresh (HashMap.iterator m) m0 m' Hwf0 Hu) as Hsz.
    unfold HashMap.size in Hsz. rewrite Hsz; [lia|done|done].
  - intros key. rewrite Hget, (get_returns key m Hwf), last_write_unique by done.
    by destruct (HashMap.get_scan key (HashMap.iterator m)).
Qed.

End From.

Lemma from_last_write_wins_witness :
  ∃ m, HashMap.from [(PString "a", 1); (PString "b", 2); (PString "a", 3)] = Some m
    ∧ wf m ∧ reachable m
    ∧ (∀ key, HashMap.get key m
              = Some (last_write key [(PString "a", 1); (PString "b", 2); (PString "a", 3)] none))
    ∧ HashMap.size m ≤ 3
    ∧ (unique_keys [(PString "a", 1); (PString "b", 2); (PString "a", 3)].*1
       → HashMap.size m = 3).
Proof.
  apply (from_last_write_wins [(PString "a", 1); (PString "b", 2); (PString "a", 3)]).
  simpl. lia.
Defined.

Lemma from_iterator_round_trip_witness :
  ∃ m', HashMap.from (HashMap.iterator three_entries) = Some m'
    ∧ wf m'
    ∧ HashMap.size m' = HashMap.size three_entries
    ∧ ∀ key, HashMap.get key m' = HashMap.get key three_entries.
Proof.
  apply (from_iterator_round_trip three_entries three_entries_wf). simpl. lia.
Defined.

(** ** [reserve] and [shrinkToFit] *)

Section Sizing.
Context {K T : Type} `{LawfulHasher K}.
Local Abbreviation HashMap := (HashMap.HashMap K T).
Implicit Types (key k : K) (value v : T) (m : HashMap).

Lemma pow2_store_bounds m : pow2_store m → 0 < HashMap.buckets m ≤ 2 ^ 30.
Proof.
  intros (j & Hj & ->).
  split; [apply Z.pow_pos_nonneg; lia | apply Z.pow_le_mono_r; lia].
Qed.

(** A [resize] within the range of [1 << _] returns and keeps the map well
    formed, its size and what every key reads. *)
Lemma resize_keeps n m :
  wf m → n ≤ 2 ^ 30 →
  ∃ m', HashMap.resize n m = Some m'
    ∧ wf m'
    ∧ HashMap.size m' = HashMap.size m
    ∧ (∀ key, HashMap.get key m' = HashMap.get key m)
    ∧ HashMap.buckets m' = 2 ^ Z.log2_up (Z.max n 1)
    ∧ n ≤ HashMap.buckets m'.
Proof.
  intros Hwf Hn.
  destruct (bucketCountFinal_ge n Hn) as (j & Hj & Hbcf & Hle).
  destruct (resize_returns n m j Hj Hbcf) as (m' & Hre & Hb').
  assert (0 < HashMap.bucketCountFinal n) as Hpos.
  { rewrite Hbcf. apply Z.pow_pos_nonneg; lia. }
  exists m'. split_and!; [done|by eapply resize_wf| | | |lia].
  - by apply resize_spec in Hre as (_ & ? & _).
  - intros key. by eapply get_resize.
  - by rewrite Hb', <- Hbcf, bucketCountFinal_round.
Qed.

(** X17.  [reserve(newCount)] on a well-formed map, with [newCount] plus
    the size at most [3 * 2^28]: the call returns, keeps the map well
    formed, its size and what every key reads, never takes buckets away,
    and leaves a capacity of at least the size plus [newCount]; a second
    [reserve] of the same count keeps the bucket count. *)
Theorem reserve_makes_room newCount m :
  wf m → newCount + HashMap.size m ≤ 3 * 2 ^ 28 →
  ∃ m', HashMap.reserve newCount m = Some m'
    ∧ wf m'
    ∧ HashMap.size m' = HashMap.size m
    ∧ (∀ key, HashMap.get key m' = HashMap.get key m)
    ∧ HashMap.buckets m ≤ HashMap.buckets m'
    ∧ HashMap.size m' + newCount ≤ HashMap.capacity m'
    ∧ ∀ m'', HashMap.reserve newCount m' = Some m'' →
             HashMap.buckets m'' = HashMap.buckets m'.
Proof.
  intros Hwf Hsmall. unfold HashMap.size in Hsmall.
  set (nb := JS.ceil_div (4 * (newCount + HashMap._count m)) 3).
  assert (nb ≤ 2 ^ 30) as Hnb by (apply ceil_div_le; lia).
  pose proof (ceil_div_ge (4 * (newCount + HashMap._count m)) 3 ltac:(lia)) as Hceil.
  fold nb in Hceil.
  assert (∀ m', HashMap.size m' = HashMap.size m → nb ≤ HashMap.buckets m' →
    HashMap.size m' + newCount ≤ HashMap.capacity m') as Hroom.
  { intros m' Hsize Hle. unfold HashMap.capacity, HashMap.size in *.
    apply Z.div_le_lower_bound; lia. }
  assert (∀ m' m'', HashMap.size m' = HashMap.size m →
    HashMap.buckets m' = 2 ^ Z.log2_up (Z.max nb 1) →
    HashMap.reserve newCount m' = Some m'' →
    HashMap.buckets m'' = HashMap.buckets m') as Hagain.
  { intros m' m'' Hsize Hb'. unfold HashMap.reserve. cbv zeta.
    unfold HashMap.size in Hsize. rewrite Hsize. fold nb. case_decide; [|by intros [= ->]].
    intros (Hlen & _)%resize_spec. rewrite Hlen, Hb', bucketCountFinal_round by done.
    pose proof (Z.pow_pos_nonneg 2 (Z.log2_up (Z.max nb 1))) as Hpos.
    specialize (Hpos ltac:(lia) (Z.log2_up_nonneg _)). lia. }
  unfold HashMap.reserve. cbv zeta. fold nb. case_decide as Hgrow.
  - destruct (resize_keeps nb m Hwf Hnb) as (m' & Hre & Hwf' & Hsize & Hget & Hb' & Hle).
    exists m'. split_and!; [done|done|done|done|lia|by apply Hroom|].
    intros m''. by apply Hagain.
  - exists m. split_and!; [done|done|done|done|lia|apply Hroom; [done|lia]|].
    intros m''. unfold HashMap.reserve. cbv zeta. fold nb.
    rewrite decide_False by done. by intros [= ->].
Qed.

(** X18.  [shrinkToFit] on a well-formed map returns, keeps the map well
    formed, its size and what every key reads, and never adds buckets.  The
    bucket count it leaves is at most every power of two that holds the
    entries within the load threshold, and unless the map is left as it was
    the entries are within the threshold.  A second [shrinkToFit] keeps the
    bucket count. *)
Theorem shrinkToFit_minimal m :
  wf m →
  ∃ m', HashMap.shrinkToFit m = Some m'
    ∧ wf m'
    ∧ HashMap.size m' = HashMap.size m
    ∧ (∀ key, HashMap.get key m' = HashMap.get key m)
    ∧ HashMap.buckets m' ≤ HashMap.buckets m
    ∧ (∀ j, 0 ≤ j → 4 * HashMap.size m ≤ 3 * 2 ^ j → HashMap.buckets m' ≤ 2 ^ j)
    ∧ (m' = m ∨ HashMap.size m' ≤ HashMap.capacity m')
    ∧ ∀ m'', HashMap.shrinkToFit m' = Some m'' →
             HashMap.buckets m'' = HashMap.buckets m'.
Proof.
  intros Hwf. pose proof Hwf as [Hp _ _ _].
  pose proof (pow2_store_bounds m Hp) as Hbounds.
  set (nb := JS.ceil_div (4 * HashMap._count m) 3).
  pose proof (ceil_div_ge (4 * HashMap._count m) 3 ltac:(lia)) as Hceil. fold nb in Hceil.
  assert (∀ j, 0 ≤ j → 4 * HashMap.size m ≤ 3 * 2 ^ j → nb ≤ 2 ^ j) as Hfit.
  { intros j Hj Hle. apply ceil_div_le; [lia|]. unfold HashMap.size in Hle. lia. }
  unfold HashMap.shrinkToFit. cbv zeta. fold nb. case_decide as Hlt.
  - destruct (resize_keeps nb m Hwf ltac:(lia)) as (m' & Hre & Hwf' & Hsize & Hget & Hb' & Hle).
    assert (HashMap.buckets m' ≤ HashMap.buckets m) as Hshrunk.
    { destruct Hp as (k & Hk & Hlen). rewrite Hb', Hlen.
      apply Z.pow_le_mono_r; [lia|]. apply Z.log2_up_le_pow2; lia. }
    exists m'. split_and!; [done|done|done|done|done| | |].
    + intros j Hj Hle4. rewrite Hb'. apply Z.pow_le_mono_r; [lia|].
      pose proof (Z.pow_pos_nonneg 2 j ltac:(lia) Hj).
      apply Z.log2_up_le_pow2; [lia|]. specialize (Hfit j Hj Hle4). lia.
    + right. apply capacity_size. unfold within_load.
      unfold HashMap.size in Hsize. rewrite Hsize. lia.
    + intros m''. unfold HashMap.shrinkToFit. cbv zeta.
      unfold HashMap.size in Hsize. rewrite Hsize. fold nb.
      case_decide; [|by intros [= ->]].
      intros (Hlen & _)%resize_spec. rewrite Hlen, Hb', bucketCountFinal_round by lia.
      pose proof (Z.pow_pos_nonneg 2 (Z.log2_up (Z.max nb 1))) as Hpos.
      specialize (Hpos ltac:(lia) (Z.log2_up_nonneg _)). lia.
  - exists m. split_and!; [done|done|done|done|lia| |by left|].
    + intros j Hj Hle4. specialize (Hfit j Hj Hle4). lia.
    + intros m''. unfold HashMap.shrinkToFit. cbv zeta. fold nb.
      rewrite decide_False by done. by intros [= ->].
Qed.

Lemma rehash_empty bcf (oldBuckets : list (list (K * T))) :
  HashMap.rehash bcf [] oldBuckets = if decide (concat oldBuckets = []) then Some [] else None.
Proof.
  induction oldBuckets as [|bucket rest IH]; simpl; [done|].
  destruct bucket as [|kv bucket].
  - exact IH.
  - rewrite decide_False by done. cbn [HashMap.rehash_bucket].
    unfold HashMap.rehash_pair, JS.index. cbv zeta.
    clear IH. case_decide; [rewrite lookup_nil|]; done.
Qed.

Lemma bucketCountFinal_wrap (n : Z) :
  2 ^ 30 < n ≤ 2 ^ 31 → HashMap.bucketCountFinal n = - 2 ^ 31.
Proof.
  intros Hn. unfold HashMap.bucketCountFinal, JS.clz32, JS.ToUint32.
  rewrite Z.max_l by lia.
  rewrite (Z.mod_small (n - 1)) by lia.
  assert (Z.log2 (n - 1) = 30) as ->.
  { apply Z.log2_unique; lia. }
  destruct (n - 1 =? 0) eqn:E; [apply Z.eqb_eq in E; lia|].
  reflexivity.
Qed.

(** X19.  Beyond the range of [1 << _]: when [newCount] plus the size is
    above [3 * 2^28] and at most [3 * 2^29], the rounded bucket count of
    [reserve] is [1 << 31], a negative number, and the new store has no
    bucket.  On a map that holds entries [reserve] throws; on an empty map
    it returns a map of 0 buckets and capacity 0 on which [get], [has],
    [set] and [remove] throw for every key. *)
Theorem reserve_beyond_range newCount m :
  wf m → 3 * 2 ^ 28 < newCount + HashMap.size m ≤ 3 * 2 ^ 29 →
  (HashMap.size m ≠ 0 → HashMap.reserve newCount m = None)
  ∧ (HashMap.size m = 0 →
     ∃ m', HashMap.reserve newCount m = Some m'
       ∧ HashMap.buckets m' = 0 ∧ HashMap.capacity m' = 0 ∧ HashMap.size m' = 0
       ∧ ∀ key value,
           HashMap.get key m' = None ∧ HashMap.has key m' = None
           ∧ HashMap.set key value m' = None ∧ HashMap.remove key m' = None).
Proof.
  intros Hwf Hrange. pose proof Hwf as [Hp _ _ Hc]. unfold HashMap.size in *.
  pose proof (pow2_store_bounds m Hp) as Hbounds.
  set (nb := JS.ceil_div (4 * (newCount + HashMap._count m)) 3).
  pose proof (ceil_div_ge (4 * (newCount + HashMap._count m)) 3 ltac:(lia)) as Hceil.
  fold nb in Hceil.
  assert (nb ≤ 2 ^ 31) as Hnb by (apply ceil_div_le; lia).
  assert (HashMap.reserve newCount m
          = if decide (HashMap.iterator m = [])
            then Some {| HashMap._buckets := []; HashMap._count := HashMap._count m |}
            else None) as Hreserve.
  { unfold HashMap.reserve. cbv zeta. fold nb. rewrite decide_True by lia.
    unfold HashMap.resize. cbv zeta. rewrite bucketCountFinal_wrap by lia.
    change (JS.Array_from_length (- 2 ^ 31) []) with ([] : list (list (K * T))).
    rewrite rehash_empty. unfold HashMap.iterator. by case_decide. }
  unfold counted in Hc. split.
  - intros Hne. rewrite Hreserve, decide_False; [done|].
    intros Hnil. rewrite Hnil in Hc. simpl in Hc. lia.
  - intros Hzero. rewrite Hreserve, decide_True.
    + eexists. split; [done|]. split_and!; [done|done|done|]. intros key value.
      assert (HashMap.getBucket key
                ({| HashMap._buckets := []; HashMap._count := HashMap._count m |} : HashMap)
              = None) as Hg.
      { apply degenerate_getBucket. by split. }
      unfold HashMap.has, HashMap.get, HashMap.set, HashMap.remove. rewrite Hg. done.
    + apply length_zero_iff_nil. lia.
Qed.

(** X20.  Whatever sequence of public operations built it, the map's
    [size()] is the number of pairs its iteration yields; so [isEmpty()]
    holds exactly when there is nothing to iterate, [keys()] and [values()]
    have [size()] elements, and a map without buckets is empty. *)
Theorem reachable_size_counts m :
  reachable m →
  HashMap.size m = Z.of_nat (length (HashMap.iterator m))
  ∧ (HashMap.isEmpty m = true ↔ HashMap.iterator m = [])
  ∧ Z.of_nat (length (HashMap.keys m)) = HashMap.size m
  ∧ Z.of_nat (length (HashMap.values m)) = HashMap.size m
  ∧ (HashMap.buckets m = 0 → HashMap.size m = 0).
Proof.
  intros Hr.
  assert (HashMap.size m = Z.of_nat (length (HashMap.iterator m))) as Hc.
  { destruct (reachable_inv m Hr) as [[_ _ _ Hc]|[Hb Hc]]; [done|].
    unfold HashMap.size, HashMap.iterator. by rewrite Hb, Hc. }
  split_and!; [done| | | |].
  - unfold HashMap.isEmpty. rewrite bool_decide_eq_true. unfold HashMap.size in Hc.
    rewrite Hc. split.
    + intros Hz. apply length_zero_iff_nil. lia.
    + by intros ->.
  - unfold HashMap.keys. by rewrite length_fmap.
  - unfold HashMap.values. by rewrite length_fmap.
  - unfold HashMap.buckets, HashMap.iterator in *. intros Hb.
    assert (HashMap._buckets m = []) as Hnil by (apply length_zero_iff_nil; lia).
    rewrite Hc, Hnil. done.
Qed.

End Sizing.

Lemma reserve_makes_room_witness :
  ∃ m', HashMap.reserve 50 three_entries = Some m'
    ∧ wf m'
    ∧ HashMap.size m' = HashMap.size three_entries
    ∧ (∀ key, HashMap.get key m' = HashMap.get key three_entries)
    ∧ HashMap.buckets three_entries ≤ HashMap.buckets m'
    ∧ HashMap.size m' + 50 ≤ HashMap.capacity m'
    ∧ ∀ m'', HashMap.reserve 50 m' = Some m'' →
             HashMap.buckets m'' = HashMap.buckets m'.
Proof.
  apply (reserve_makes_room 50 three_entries three_entries_wf). simpl. lia.
Defined.

Lemma shrinkToFit_minimal_witness :
  ∃ m', HashMap.shrinkToFit three_entries = Some m'
    ∧ wf m'
    ∧ HashMap.size m' = HashMap.size three_entries
    ∧ (∀ key, HashMap.get key m' = HashMap.get key three_entries)
    ∧ HashMap.buckets m' ≤ HashMap.buckets three_entries
    ∧ (∀ j, 0 ≤ j → 4 * HashMap.size three_entries ≤ 3 * 2 ^ j → HashMap.buckets m' ≤ 2 ^ j)
    ∧ (m' = three_entries ∨ HashMap.size m' ≤ HashMap.capacity m')
    ∧ ∀ m'', HashMap.shrinkToFit m' = Some m'' →
             HashMap.buckets m'' = HashMap.buckets m'.
Proof. apply (shrinkToFit_minimal three_entries three_entries_wf). Defined.

Lemma reserve_beyond_range_witness :
  (HashMap.size three_entries ≠ 0 → HashMap.reserve (2 ^ 30) three_entries = None)
  ∧ (HashMap.size three_entries = 0 →
     ∃ m', HashMap.reserve (2 ^ 30) three_entries = Some m'
       ∧ HashMap.buckets m' = 0 ∧ HashMap.capacity m' = 0 ∧ HashMap.size m' = 0
       ∧ ∀ key value,
           HashMap.get key m' = None ∧ HashMap.has key m' = None
           ∧ HashMap.set key value m' = None ∧ HashMap.remove key m' = None).
Proof.
  apply (reserve_beyond_range (2 ^ 30) three_entries three_entries_wf).
  simpl. lia.
Defined.

Lemma reachable_size_counts_witness :
  HashMap.size three_entries = Z.of_nat (length (HashMap.iterator three_entries))
  ∧ (HashMap.isEmpty three_entries = true ↔ HashMap.iterator three_entries = [])
  ∧ Z.of_nat (length (HashMap.keys three_entries)) = HashMap.size three_entries
  ∧ Z.of_nat (length (HashMap.values three_entries)) = HashMap.size three_entries
  ∧ (HashMap.buckets three_entries = 0 → HashMap.size three_entries = 0).
Proof. apply (reachable_size_counts three_entries three_entries_reachable). Defined.

(** ** The entry handle *)

Section EntryMore.
Context {K T : Type} `{LawfulHasher K}.
Local Abbreviation HashMap := (HashMap.HashMap K T).
Implicit Types (key k : K) (value v : T) (m : HashMap).

Lemma get_set_same key value m m' :
  wf m → HashMap.set key value m = Some m' → HashMap.get key m' = Some (some value).
Proof.
  intros Hwf Hset. rewrite (get_set key key value m m' Hwf Hset), (get_returns key m Hwf).
  simpl. by rewrite equals_refl.
Qed.

(** X21.  [entry(key).insert(value)] on a well-formed map of fewer than
    [2^29] entries returns what [get(key)] read before the call and leaves
    [value] at the key: every key equal to [key] reads [value] afterwards,
    every other key reads what it read before, and the size grows by one
    exactly when the key was absent.  [insertEntry(value)] leaves the same
    map and returns the handle, which is occupied afterwards. *)
Theorem entry_insert_spec key value m :
  wf m → HashMap.size m < 2 ^ 29 →
  ∃ old m',
    Entry.insert value (entry key) m = Some (old, m')
    ∧ HashMap.get key m = Some old
    ∧ wf m'
    ∧ (∀ key', HashMap.get key' m'
               = (λ r, if equals key' key then some value else r) <$> HashMap.get key' m)
    ∧ HashMap.size m' = HashMap.size m + (if isSome old then 0 else 1)
    ∧ Entry.insertEntry value (entry key) m = Some (entry key, m')
    ∧ Entry.isOccupied (entry key) m' = Some true.
Proof.
  intros Hwf Hsmall. pose proof Hwf as [Hp _ _ _].
  destruct (set_returns key value m Hp Hsmall) as [m' Hset].
  exists (HashMap.get_scan key (HashMap.iterator m)), m'.
  unfold Entry.insert, Entry.insertEntry, Entry.isOccupied, Entry.get, Entry.set. simpl.
  rewrite (get_returns key m Hwf), Hset, (get_set_same key value m m' Hwf Hset). simpl.
  split_and!; [done|done|by eapply set_wf|by intros key'; apply get_set| |done|done].
  destruct (size_set key value m m' Hwf Hset) as [[Hg ->]|[[v Hg] ->]];
    rewrite (get_returns key m Hwf) in Hg; injection Hg as ->; simpl; lia.
Qed.

(** X22.  The update-or-insert idiom.  On a well-formed map with room for
    one more entry below [2^29], [entry(key).andModify(fn).orInsert(value)]
    leaves [fn v] at the key when the key held [v] and [value] when it was
    absent; the other order, [orInsert(value).andModify(fn)], leaves [fn v]
    or [fn value].  Both return the handle, and the size grows by one
    exactly when the key was absent. *)
Theorem entry_andModify_orInsert key (fn : T → T) value m :
  wf m → HashMap.size m + 1 < 2 ^ 29 →
  ∃ old m1 m2 m3 m4,
    HashMap.get key m = Some old
    ∧ Entry.andModify fn (entry key) m = Some (entry key, m1)
    ∧ Entry.orInsert value (entry key) m1 = Some (entry key, m2)
    ∧ HashMap.get key m2
      = Some (some (match old with some v => fn v | none => value end))
    ∧ Entry.orInsert value (entry key) m = Some (entry key, m3)
    ∧ Entry.andModify fn (entry key) m3 = Some (entry key, m4)
    ∧ HashMap.get key m4
      = Some (some (fn (match old with some v => v | none => value end)))
    ∧ HashMap.size m2 = HashMap.size m + (if isSome old then 0 else 1)
    ∧ HashMap.size m4 = HashMap.size m + (if isSome old then 0 else 1).
Proof.
  intros Hwf Hsmall. pose proof Hwf as [Hp _ _ _]. unfold HashMap.size in Hsmall.
  pose proof (get_returns key m Hwf) as Hgm.
  exists (HashMap.get_scan key (HashMap.iterator m)).
  destruct (HashMap.get_scan key (HashMap.iterator m)) as [v|] eqn:Hscan.
  - destruct (set_returns key (fn v) m Hp ltac:(lia)) as [m1 Hset1].
    pose proof (get_set_same key (fn v) m m1 Hwf Hset1) as Hg1.
    destruct (size_set key (fn v) m m1 Hwf Hset1) as [[Hg _]|[_ Hs1]]; [congruence|].
    exists m1, m1, m, m1.
    unfold Entry.andModify, Entry.orInsert, Entry.get, Entry.set. simpl.
    rewrite Hgm, Hg1. simpl. rewrite Hset1. simpl.
    split_and!; [done|done|done|done|done|done|done|lia|lia].
  - destruct (set_returns key value m Hp ltac:(lia)) as [m3 Hset3].
    pose proof (get_set_same key value m m3 Hwf Hset3) as Hg3.
    pose proof (set_wf key value m m3 Hwf Hset3) as Hwf3. pose proof Hwf3 as [Hp3 _ _ _].
    destruct (size_set key value m m3 Hwf Hset3) as [[_ Hs3]|[[v Hg] _]]; [|congruence].
    unfold HashMap.size in Hs3.
    destruct (set_returns key (fn value) m3 Hp3 ltac:(lia)) as [m4 Hset4].
    pose proof (get_set_same key (fn value) m3 m4 Hwf3 Hset4) as Hg4.
    destruct (size_set key (fn value) m3 m4 Hwf3 Hset4) as [[Hg _]|[_ Hs4]]; [congruence|].
    exists m, m3, m3, m4. unfold HashMap.size in *.
    unfold Entry.andModify, Entry.orInsert, Entry.get, Entry.set. simpl.
    rewrite Hgm, Hg3. simpl. rewrite Hset3, Hset4. simpl.
    split_and!; [done|done|done|done|done|done|done|lia|lia].
Qed.

(** X23.  [entry(key).remove()] does what [remove(key)] of the map does:
    the same result and the same map.  [removeEntry()] leaves the same map
    and pairs the value with the key of the handle.  When the key is absent
    both return [none] and the map is as it was; either way the handle is
    not occupied afterwards.  [key()] is the key the handle was made
    with. *)
Theorem entry_remove_spec key m :
  wf m →
  ∃ r m',
    HashMap.remove key m = Some (r, m')
    ∧ Entry.remove (entry key) m = Some (r, m')
    ∧ Entry.removeEntry (entry key) m
      = Some (match r with some v => some (key, v) | none => none end, m')
    ∧ (r = none → m' = m)
    ∧ Entry.isOccupied (entry key) m' = Some false
    ∧ Entry.key (entry key : Entry.Entry K) = key.
Proof.
  intros Hwf. pose proof Hwf as [Hp _ _ _].
  destruct (remove_returns key m Hp) as [[r m'] Hrm]. exists r, m'.
  pose proof (get_remove key key m r m' Hwf Hrm) as Hgone. rewrite equals_refl in Hgone.
  pose proof Hrm as (bucket & Hg & Hcase)%remove_cases.
  unfold Entry.remove, Entry.removeEntry, Entry.isOccupied, Entry.get. simpl.
  rewrite Hgone. unfold HashMap.get. rewrite Hg. simpl.
  destruct (HashMap.remove_scan key bucket) as [[v bucket']|] eqn:Hs.
  - destruct Hcase as [-> Hm']. rewrite (remove_scan_get _ _ _ _ Hs), Hrm. simpl.
    split_and!; done.
  - destruct Hcase as [-> ->]. apply remove_scan_None in Hs. rewrite Hs.
    split_and!; done.
Qed.

(** X24.  [entries()] on a well-formed map yields one handle for each
    stored pair, in iteration order, [size()] handles in all; the key of
    the handle is the stored key, the handle is occupied, and its [get]
    reads the value stored with that key. *)
Theorem entries_spec m :
  wf m →
  Entry.key <$> entries m = HashMap.keys m
  ∧ Z.of_nat (length (entries m)) = HashMap.size m
  ∧ ∀ i e, entries m !! i = Some e →
      ∃ v, HashMap.iterator m !! i = Some (Entry.key e, v)
        ∧ Entry.get e m = Some (some v)
        ∧ Entry.isOccupied e m = Some true.
Proof.
  intros Hwf. pose proof Hwf as [_ _ Hu Hc]. unfold entries. split_and!.
  - unfold HashMap.keys. rewrite <- list_fmap_compose. by apply list_fmap_ext.
  - rewrite length_fmap. symmetry. exact Hc.
  - intros i e. rewrite list_lookup_fmap.
    destruct (HashMap.iterator m !! i) as [[k v]|] eqn:Hi; [|done]. simpl. intros [= <-].
    exists v. split; [done|].
    assert (HashMap.get k m = Some (some v)) as Hget.
    { rewrite (get_returns k m Hwf). f_equal. apply get_scan_elem; [done|].
      by eapply list_elem_of_lookup_2. }
    unfold Entry.get, Entry.isOccupied. simpl. by rewrite Hget.
Qed.

(** X25.  [withCapacity(capacity)] for a capacity of at most [2^30]
    returns an empty, well-formed map, and [info()] reports size 0 and as
    bucket count the least power of two that is at least
    [ceil(capacity * 0.75)], with the capacity that goes with it. *)
Theorem withCapacity_info capacity :
  capacity ≤ 2 ^ 30 →
  ∃ m, HashMap.withCapacity capacity = Some m
    ∧ wf m ∧ reachable m
    ∧ HashMap.isEmpty m = true
    ∧ (∀ key, HashMap.get key m = Some none)
    ∧ info m
      = {| info_size := 0;
           info_capacity :=
             3 * 2 ^ Z.log2_up (Z.max (JS.ceil_div (3 * capacity) 4) 1) / 4;
           info_buckets := 2 ^ Z.log2_up (Z.max (JS.ceil_div (3 * capacity) 4) 1) |}
    ∧ ∀ j, 0 ≤ j → 3 * capacity ≤ 4 * 2 ^ j → info_buckets (info m) ≤ 2 ^ j.
Proof.
  intros Hc.
  assert (JS.ceil_div (3 * capacity) 4 ≤ 2 ^ 30) as Hn by (apply ceil_div_le; lia).
  destruct (resize_keeps (JS.ceil_div (3 * capacity) 4) (HashMap.new : HashMap) wf_new Hn)
    as (m & Hm & Hwf & Hsize & Hget & Hb & _).
  exists m. change (HashMap.size HashMap.new) with 0 in Hsize.
  split_and!; [done|done|by eapply reachable_withCapacity| | | |].
  - unfold HashMap.isEmpty. apply bool_decide_eq_true. exact Hsize.
  - intros key. by rewrite Hget, (get_returns key _ wf_new).
  - unfold info, HashMap.capacity. by rewrite Hsize, Hb.
  - intros j Hj Hle. simpl. rewrite Hb. apply Z.pow_le_mono_r; [lia|].
    pose proof (Z.pow_pos_nonneg 2 j ltac:(lia) Hj).
    apply Z.log2_up_le_pow2; [lia|].
    assert (JS.ceil_div (3 * capacity) 4 ≤ 2 ^ j) by (apply ceil_div_le; lia). lia.
Qed.

End EntryMore.

Lemma entry_insert_spec_witness :
  ∃ old m',
    Entry.insert 10 (entry (PString "one")) three_entries = Some (old, m')
    ∧ HashMap.get (PString "one") three_entries = Some old
    ∧ wf m'
    ∧ (∀ key', HashMap.get key' m'
               = (λ r, if equals key' (PString "one") then some 10 else r)
                 <$> HashMap.get key' three_entries)
    ∧ HashMap.size m' = HashMap.size three_entries + (if isSome old then 0 else 1)
    ∧ Entry.insertEntry 10 (entry (PString "one")) three_entries
      = Some (entry (PString "one"), m')
    ∧ Entry.isOccupied (entry (PString "one")) m' = Some true.
Proof.
  apply (entry_insert_spec (PString "one") 10 three_entries three_entries_wf).
  simpl. lia.
Defined.

Lemma entry_andModify_orInsert_witness :
  ∃ old m1 m2 m3 m4,
    HashMap.get (PString "one") three_entries = Some old
    ∧ Entry.andModify (Z.add 5) (entry (PString "one")) three_entries
      = Some (entry (PString "one"), m1)
    ∧ Entry.orInsert 42 (entry (PString "one")) m1 = Some (entry (PString "one"), m2)
    ∧ HashMap.get (PString "one") m2
      = Some (some (match old with some v => 5 + v | none => 42 end))
    ∧ Entry.orInsert 42 (entry (PString "one")) three_entries
      = Some (entry (PString "one"), m3)
    ∧ Entry.andModify (Z.add 5) (entry (PString "one")) m3
      = Some (entry (PString "one"), m4)
    ∧ HashMap.get (PString "one") m4
      = Some (some (5 + match old with some v => v | none => 42 end))
    ∧ HashMap.size m2 = HashMap.size three_entries + (if isSome old then 0 else 1)
    ∧ HashMap.size m4 = HashMap.size three_entries + (if isSome old then 0 else 1).
Proof.
  apply (entry_andModify_orInsert (PString "one") (Z.add 5) 42 three_entries three_entries_wf).
  simpl. lia.
Defined.

Lemma entry_remove_spec_witness :
  ∃ r m',
    HashMap.remove (PString "one") three_entries = Some (r, m')
    ∧ Entry.remove (entry (PString "one")) three_entries = Some (r, m')
    ∧ Entry.removeEntry (entry (PString "one")) three_entries
      = Some (match r with some v => some (PString "one", v) | none => none end, m')
    ∧ (r = none → m' = three_entries)
    ∧ Entry.isOccupied (entry (PString "one")) m' = Some false
    ∧ Entry.key (entry (PString "one") : Entry.Entry Primitive) = PString "one".
Proof. apply (entry_remove_spec (PString "one") three_entries three_entries_wf). Defined.

Lemma entries_spec_witness :
  Entry.key <$> entries three_entries = HashMap.keys three_entries
  ∧ Z.of_nat (length (entries three_entries)) = HashMap.size three_entries
  ∧ ∀ i e, entries three_entries !! i = Some e →
      ∃ v, HashMap.iterator three_entries !! i = Some (Entry.key e, v)
        ∧ Entry.get e three_entries = Some (some v)
        ∧ Entry.isOccupied e three_entries = Some true.
Proof. apply (entries_spec three_entries three_entries_wf). Defined.

Lemma withCapacity_info_witness :
  ∃ m : HashMap.HashMap Primitive Z, HashMap.withCapacity 100 = Some m
    ∧ wf m ∧ reachable m
    ∧ HashMap.isEmpty m = true
    ∧ (∀ key, HashMap.get key m = Some none)
    ∧ info m
      = {| info_size := 0;
           info_capacity := 3 * 2 ^ Z.log2_up (Z.max (JS.ceil_div (3 * 100) 4) 1) / 4;
           info_buckets := 2 ^ Z.log2_up (Z.max (JS.ceil_div (3 * 100) 4) 1) |}
    ∧ ∀ j, 0 ≤ j → 3 * 100 ≤ 4 * 2 ^ j → info_buckets (info m) ≤ 2 ^ j.
Proof.
  apply (withCapacity_info 100). simpl. lia.
Defined.

(** ** The walk of [drain] and the stored key *)

Section DrainMore.
Context {K T : Type} `{Hasher K}.
Local Abbreviation HashMap := (HashMap.HashMap K T).
Implicit Types (key k : K) (value v : T) (m : HashMap).

(** X26.  The first [next()] of a generator of [drain] empties the map and
    captures its pairs: it yields the first pair of the iteration (or
    reports [done] when there is none), and from then on the generator
    yields the remaining pairs of that iteration and completes, whatever
    map [m2] the caller has made of the emptied one meanwhile, and without
    changing it.  A completed generator yields nothing more. *)
Theorem drain_walk_is_snapshot m :
  (HashMap.next HashMap.SuspendedStart m).2 = HashMap.clear m
  ∧ match HashMap.iterator m with
    | [] => (HashMap.next HashMap.SuspendedStart m).1 = (HashMap.Done, HashMap.Completed)
    | kv :: pairs =>
        (HashMap.next HashMap.SuspendedStart m).1.1 = HashMap.Yield kv
        ∧ ∀ m2 fuel, (length pairs < fuel)%nat →
            HashMap.Array_from fuel (HashMap.next HashMap.SuspendedStart m).1.2 m2
            = Some (pairs, HashMap.Completed, m2)
    end
  ∧ ∀ m2 fuel,
      HashMap.Array_from (S fuel) HashMap.Completed m2 = Some ([], HashMap.Completed, m2).
Proof.
  pose proof (drain_loop_spec (HashMap._buckets m)) as Hloop.
  unfold HashMap.iterator. cbn [HashMap.next].
  destruct (concat (HashMap._buckets m)) as [|kv pairs].
  - rewrite Hloop. by split_and!.
  - destruct Hloop as (bucket & rest & -> & ->).
    split; [done|]. split; [|done].
    split; [done|]. intros m2 fuel Hfuel. cbn [fst snd]. by apply Array_from_suspended.
Qed.

Lemma getKeyValue_scan_set key value (l : list (K * T)) k0 v0 :
  HashMap.getKeyValue_scan key l = some (k0, v0) →
  ∃ l', HashMap.set_scan key value l = Some l'
      ∧ HashMap.getKeyValue_scan key l' = some (k0, value)
      ∧ length l' = length l.
Proof.
  induction l as [|[k v] l IH]; simpl; [done|].
  destruct (equals key k) eqn:E.
  - intros [= -> ->]. eexists. split; [done|]. simpl. by rewrite E.
  - intros (l' & -> & Hscan & Hlen)%IH. eexists. split; [done|]. simpl.
    by rewrite E, Hscan, Hlen.
Qed.

(** X27.  [set] on a key that the map holds under an equal stored key
    replaces the value and keeps the stored key: [getKeyValue] returns the
    old key with the new value, and the keys in iteration order, the size
    and the bucket count are as before. *)
Theorem set_keeps_stored_key key value m k0 v0 :
  HashMap.getKeyValue key m = Some (some (k0, v0)) →
  ∃ m', HashMap.set key value m = Some m'
    ∧ HashMap.getKeyValue key m' = Some (some (k0, value))
    ∧ HashMap.keys m' = HashMap.keys m
    ∧ HashMap.size m' = HashMap.size m
    ∧ HashMap.buckets m' = HashMap.buckets m.
Proof.
  unfold HashMap.getKeyValue.
  destruct (HashMap.getBucket key m) as [bucket|] eqn:Hg; [|done]. simpl.
  intros [= Hscan]. destruct (getKeyValue_scan_set key value bucket k0 v0 Hscan)
    as (bucket' & Hset & Hscan' & _).
  exists (overwritten key bucket' m).
  assert (HashMap.buckets (overwritten key bucket' m) = HashMap.buckets m) as Hb.
  { unfold HashMap.buckets, overwritten, HashMap.putBucket. simpl. by rewrite length_insert. }
  split_and!; [by eapply set_found| |by eapply keys_overwritten|done|done].
  pose proof Hg as [Hslot Hlookup]%getBucket_lookup.
  unfold HashMap.getBucket, HashMap.slot. rewrite Hb. fold (HashMap.slot key m).
  unfold JS.index. rewrite decide_True by done.
  unfold overwritten, HashMap.putBucket. simpl.
  rewrite list_lookup_insert_eq by (by eapply lookup_lt_Some). simpl. by rewrite Hscan'.
Qed.

End DrainMore.

Lemma drain_walk_is_snapshot_witness :
  (HashMap.next HashMap.SuspendedStart three_entries).1.1 = HashMap.Yield (PString "one", 1)
  ∧ HashMap.Array_from 3 (HashMap.next HashMap.SuspendedStart three_entries).1.2 one_entry
    = Some ([(PString "three", 3); (PString "two", 2)], HashMap.Completed, one_entry).
Proof.
  pose proof (drain_walk_is_snapshot three_entries) as (_ & [Hfirst Hrest] & _).
  exact (conj Hfirst (Hrest one_entry 3%nat ltac:(simpl; lia))).
Defined.

Lemma set_keeps_stored_key_witness :
  ∃ m', HashMap.set (PString "one") 10 three_entries = Some m'
    ∧ HashMap.getKeyValue (PString "one") m' = Some (some (PString "one", 10))
    ∧ HashMap.keys m' = HashMap.keys three_entries
    ∧ HashMap.size m' = HashMap.size three_entries
    ∧ HashMap.buckets m' = HashMap.buckets three_entries.
Proof.
  apply (set_keeps_stored_key (PString "one") 10 three_entries (PString "one") 1).
  vm_compute. reflexivity.
Defined.
